(** * Inline expression engine of the editor view

    A shallow embedding of
    [packages/renderer/src/components/Views/Editor/EditorView.tsx]:
    the table indexer ([parseTables]), the range lookup ([getRange]), the
    placeholder evaluator with its module-level cache
    ([evaluateTableExpressions], [expressionCache]) and the debounced
    content handler ([updateContent]).

    JavaScript strings are sequences of UTF-16 code units and are modelled
    as [list N]; the numbers this code computes with (indices, code units,
    row numbers) are integers and are modelled in [Z], which is exact
    below 2^53; [NaN] is [None].  The libraries the code calls (the DOM
    parser, mathjs, KaTeX, the editor object) are parameters of the
    development.

    Besides these: [debounce], the zoom handlers of the view (which
    compute on doubles, modelled by the binary64 floats of the kernel),
    the earlier version of the view ([parseAndEvaluate] and its handler)
    and the link extension [extensions/CustomLink.ts]. *)

From Stdlib Require Import Strings.String Strings.Ascii.
From Stdlib Require Import ZArith NArith List Lia Bool.
From Stdlib Require Floats.
From stdpp Require Import gmap list fin_maps.

Local Open Scope Z_scope.

(** ** JavaScript strings *)

Abbreviation jstr := (list N).

(** A string literal of the source, as code units. *)
Fixpoint lit (s : String.string) : jstr :=
  match s with
  | String.EmptyString => []
  | String.String a s' => Ascii.N_of_ascii a :: lit s'
  end.
Arguments lit s%_string.

(** The double quote, U+0022. *)
Definition dquote : jstr := [34%N].

(** [s.startsWith(p)] *)
Fixpoint startsWith (s p : jstr) {struct p} : bool :=
  match p with
  | [] => true
  | a :: p' =>
      match s with
      | [] => false
      | b :: s' => N.eqb a b && startsWith s' p'
      end
  end.

(** [s.endsWith(p)] *)
Definition endsWith (s p : jstr) : bool := startsWith (rev s) (rev p).

(** [s.includes(p)] *)
Fixpoint includes (s p : jstr) {struct s} : bool :=
  startsWith s p ||
  match s with
  | [] => false
  | _ :: s' => includes s' p
  end.

(** Relative index of [slice]: negative counts from the end, then clamped. *)
Definition slice_index (len i : Z) : Z :=
  if i <? 0 then Z.max (len + i) 0 else Z.min i len.

(** [s.slice(b, e)] *)
Definition slice (s : jstr) (b e : Z) : jstr :=
  let len := Z.of_nat (length s) in
  let from := slice_index len b in
  let to := slice_index len e in
  take (Z.to_nat (to - from)) (drop (Z.to_nat from) s).

(** [s.slice(b)] *)
Definition slice_from (s : jstr) (b : Z) : jstr :=
  slice s b (Z.of_nat (length s)).

(** WhiteSpace and LineTerminator code units of ECMAScript. *)
Definition is_whitespace (c : N) : bool :=
  existsb (N.eqb c)
    [9; 10; 11; 12; 13; 32; 160; 5760; 8192; 8193; 8194; 8195; 8196; 8197;
     8198; 8199; 8200; 8201; 8202; 8232; 8233; 8239; 8287; 12288; 65279]%N.

Fixpoint trimStart (s : jstr) : jstr :=
  match s with
  | [] => []
  | c :: s' => if is_whitespace c then trimStart s' else s
  end.

Definition trimEnd (s : jstr) : jstr := rev (trimStart (rev s)).

(** [s.trim()] *)
Definition trim (s : jstr) : jstr := trimEnd (trimStart s).

Fixpoint split_go (sep : N) (s cur : jstr) : list jstr :=
  match s with
  | [] => [rev cur]
  | c :: s' =>
      if N.eqb c sep then rev cur :: split_go sep s' []
      else split_go sep s' (c :: cur)
  end.

(** [s.split(sep)] for a one-character separator. *)
Definition split (s : jstr) (sep : N) : list jstr := split_go sep s [].

(** ** JavaScript numbers, integer fragment *)

(** A number that is an integer or [NaN]. *)
Abbreviation jsint := (option Z).

(** Decimal digits of [n], least significant first. *)
Fixpoint le_digits (fuel : nat) (n : N) : list N :=
  match fuel with
  | O => [n]
  | S fuel' =>
      if (n <? 10)%N then [n] else (n mod 10)%N :: le_digits fuel' (n / 10)%N
  end.

Definition digit_code (d : N) : N := (48 + d)%N.

Definition N_toString (n : N) : jstr :=
  map digit_code (rev (le_digits (S (N.to_nat (N.log2 n))) n)).

(** [String(z)] / [`${z}`] for an integer [z]. *)
Definition Z_toString (z : Z) : jstr :=
  if z <? 0 then 45%N :: N_toString (Z.abs_N z) else N_toString (Z.to_N z).

(** Value of a code unit as a digit of the given radix. *)
Definition digit_value (radix c : N) : option N :=
  let v :=
    if (48 <=? c)%N && (c <=? 57)%N then Some (c - 48)%N
    else if (97 <=? c)%N && (c <=? 122)%N then Some (c - 87)%N
    else if (65 <=? c)%N && (c <=? 90)%N then Some (c - 55)%N
    else None in
  match v with
  | Some d => if (d <? radix)%N then Some d else None
  | None => None
  end.

(** The longest prefix of digits, read in the radix; [None] when empty. *)
Fixpoint parse_digits (radix : N) (s : jstr) (acc : option N) : option N :=
  match s with
  | [] => acc
  | c :: s' =>
      match digit_value radix c with
      | Some d =>
          parse_digits radix s'
            (Some (match acc with Some a => a * radix + d | None => d end)%N)
      | None => acc
      end
  end.

Definition strip_sign (s : jstr) : bool * jstr :=
  match s with
  | c :: r =>
      if N.eqb c 45 then (true, r)
      else if N.eqb c 43 then (false, r)
      else (false, s)
  | [] => (false, s)
  end.

Definition strip_hex_prefix (s : jstr) : N * jstr :=
  match s with
  | z :: x :: r =>
      if N.eqb z 48 && (N.eqb x 120 || N.eqb x 88) then (16%N, r)
      else (10%N, s)
  | _ => (10%N, s)
  end.

(** [parseInt(s)] with no radix argument. *)
Definition parseInt (s : jstr) : jsint :=
  let (neg, s2) := strip_sign (trimStart s) in
  let (radix, s3) := strip_hex_prefix s2 in
  match parse_digits radix s3 None with
  | None => None
  | Some n => Some (if neg then - Z.of_N n else Z.of_N n)
  end.

(** [s.charCodeAt(0)] *)
Definition charCodeAt0 (s : jstr) : jsint :=
  match s with
  | [] => None
  | c :: _ => Some (Z.of_N c)
  end.

(** [String.fromCharCode(z)]: the argument is taken modulo 2^16. *)
Definition fromCharCode (z : Z) : jstr := [Z.to_N (z mod 65536)].

Definition jsint_sub (a : jsint) (k : Z) : jsint :=
  match a with
  | Some z => Some (z - k)
  | None => None
  end.

(** [a < b] on numbers: false as soon as one side is [NaN]. *)
Definition jsint_lt (a b : jsint) : bool :=
  match a, b with
  | Some x, Some y => x <? y
  | _, _ => false
  end.

(** [a - 1] and [a + 1] are computed exactly by doubles for such [a]. *)
Definition safe_integer (a : jsint) : Prop :=
  match a with
  | Some z => Z.abs z < 2 ^ 53
  | None => True
  end.

(** [for (let i = lo; i <= hi; i++) body]: [n] is the number of turns left. *)
Fixpoint for_iter {St : Type} (n : nat) (i : Z) (body : Z -> St -> St)
    (s : St) : St :=
  match n with
  | O => s
  | S n' => for_iter n' (i + 1) body (body i s)
  end.

Definition for_upto {St : Type} (lo hi : jsint) (body : Z -> St -> St)
    (s : St) : St :=
  match lo, hi with
  | Some l, Some h => for_iter (Z.to_nat (h - l + 1)) l body s
  | _, _ => s
  end.

(** [l.forEach((x, i) => ...)], threading the state the callback mutates. *)
Fixpoint forEach_from {A St : Type} (i : nat) (f : A -> nat -> St -> St)
    (l : list A) (s : St) : St :=
  match l with
  | [] => s
  | x :: l' => forEach_from (S i) f l' (f x i s)
  end.

Definition forEach {A St : Type} (f : A -> nat -> St -> St) (l : list A)
    (s : St) : St :=
  forEach_from 0 f l s.

(** ** Objects used as dictionaries *)

(** Property names every plain object inherits from [Object.prototype]. *)
Definition object_prototype_names : list jstr :=
  [lit "constructor"; lit "__proto__"; lit "hasOwnProperty";
   lit "isPrototypeOf"; lit "propertyIsEnumerable"; lit "toLocaleString";
   lit "toString"; lit "valueOf"; lit "__defineGetter__";
   lit "__defineSetter__"; lit "__lookupGetter__"; lit "__lookupSetter__"].

Inductive property (A : Type) : Type :=
  | Own (a : A)
  | Inherited
  | Undefined.
Arguments Own {A} a.
Arguments Inherited {A}.
Arguments Undefined {A}.

(** [o[k]] on an object literal whose own properties are [o]. *)
Definition get_property {A : Type} (o : gmap jstr A) (k : jstr) : property A :=
  match o !! k with
  | Some a => Own a
  | None =>
      if bool_decide (k ∈ object_prototype_names) then Inherited else Undefined
  end.

(** ** Exceptions *)

Inductive exn : Type :=
  | JsError (message : jstr)       (* [new Error(message)] *)
  | LibraryError (message : jstr). (* anything a library throws *)

Inductive result (A : Type) : Type :=
  | Ok (a : A)
  | Throw (e : exn).
Arguments Ok {A} a.
Arguments Throw {A} e.

(** ** The parsed document, as the DOM queries of [parseTables] see it *)

Record Cell := { textContent : option jstr }.
(** [row.querySelectorAll("td, th")] *)
Record Row := { row_cells : list Cell }.
(** [table.querySelectorAll("tr")] *)
Record Table := { table_rows : list Row }.
(** [doc.querySelectorAll("table")] *)
Record Document := { doc_tables : list Table }.

Abbreviation table_index := (gmap jstr (gmap jstr jstr)).

(** Helper function to convert column index to letter *)
Definition columnIndexToLetter (index : nat) : jstr :=
  fromCharCode (65 + Z.of_nat index).

(** [`${columnIndexToLetter(cellIndex)}${rowIndex + 1}`] *)
Definition cellRef_of (cellIndex rowIndex : nat) : jstr :=
  columnIndexToLetter cellIndex ++ Z_toString (Z.of_nat rowIndex + 1).

(** [`table${tableIndex + 1}`] *)
Definition tableName_of (tableIndex : nat) : jstr :=
  lit "table" ++ Z_toString (Z.of_nat tableIndex + 1).

(** [cell.textContent?.trim() || ""] *)
Definition cell_text (cell : Cell) : jstr :=
  match textContent cell with
  | Some t => match trim t with [] => lit "" | t' => t' end
  | None => lit ""
  end.

(** [tableData[tableName][cellRef] = v] *)
Definition set_cell (tableName cellRef v : jstr) (tableData : table_index)
    : table_index :=
  alter (insert cellRef v) tableName tableData.

Definition index_row (tableName : jstr) (row : Row) (rowIndex : nat)
    (tableData : table_index) : table_index :=
  forEach
    (fun cell cellIndex td =>
       set_cell tableName (cellRef_of cellIndex rowIndex) (cell_text cell) td)
    (row_cells row) tableData.

Definition index_table (table : Table) (tableIndex : nat)
    (tableData : table_index) : table_index :=
  let tableName := tableName_of tableIndex in
  forEach (index_row tableName) (table_rows table)
    (<[tableName := ∅]> tableData).

Definition index_tables (doc : Document) : table_index :=
  forEach index_table (doc_tables doc) ∅.

(** ** The expression scanner: the matches of [/\{([^}]+)\}/g] *)

Inductive segment : Type :=
  | Text (t : jstr)                  (* copied to the output unchanged *)
  | Placeholder (expression : jstr). (* a match; the capture group *)

Definition lbrace : N := 123%N.
Definition rbrace : N := 125%N.

(** One left-to-right pass.  [text] is the unmatched text read so far and
    [expr], once an opening brace has been read, the characters after it
    (both reversed).  The first closing brace ends the attempt begun at the
    brace: with at least one character in between it is a match, otherwise
    both braces are text; at the end of the input an attempt still running
    has failed. *)
Fixpoint scan_go (s text : jstr) (expr : option jstr) : list segment :=
  match s with
  | [] =>
      match expr with
      | None => [Text (rev text)]
      | Some e => [Text (rev text ++ lbrace :: rev e)]
      end
  | c :: s' =>
      match expr with
      | None =>
          if N.eqb c lbrace then scan_go s' text (Some [])
          else scan_go s' (c :: text) None
      | Some [] =>
          if N.eqb c rbrace then scan_go s' (rbrace :: lbrace :: text) None
          else scan_go s' text (Some [c])
      | Some e =>
          if N.eqb c rbrace
          then Text (rev text) :: Placeholder (rev e) :: scan_go s' [] None
          else scan_go s' text (Some (c :: e))
      end
  end.

Definition scan (content : jstr) : list segment := scan_go content [] None.

(** The source text of a segment. *)
Definition segment_source (seg : segment) : jstr :=
  match seg with
  | Text t => t
  | Placeholder e => lbrace :: e ++ [rbrace]
  end.

Definition placeholders (segs : list segment) : list jstr :=
  omap (fun seg => match seg with Placeholder e => Some e | Text _ => None end)
    segs.

(** ** Rewriting of range references: [/table\d+\[[A-Z]\d+:[A-Z]\d+\]/g] *)

Definition is_digit (c : N) : bool := (48 <=? c)%N && (c <=? 57)%N.
Definition is_upper (c : N) : bool := (65 <=? c)%N && (c <=? 90)%N.

(** The longest prefix whose characters satisfy [p], and the rest. *)
Fixpoint span (p : N -> bool) (s : jstr) : jstr * jstr :=
  match s with
  | [] => ([], [])
  | c :: s' =>
      if p c then let (a, b) := span p s' in (c :: a, b) else ([], s)
  end.

(** [\d+] *)
Definition match_digits (s : jstr) : option (jstr * jstr) :=
  match span is_digit s with
  | ([], _) => None
  | (d, r) => Some (d, r)
  end.

Definition match_char (c : N) (s : jstr) : option jstr :=
  match s with
  | x :: r => if N.eqb x c then Some r else None
  | [] => None
  end.

Definition match_prefix (p s : jstr) : option jstr :=
  if startsWith s p then Some (drop (length p) s) else None.

(** [[A-Z]\d+] *)
Definition match_cell (s : jstr) : option (jstr * jstr) :=
  match s with
  | c :: r =>
      if is_upper c then
        '(d, r') ← match_digits r; Some (c :: d, r')
      else None
  | [] => None
  end.

(** A match of the whole pattern at the start of [s]: the matched text and
    what follows it. *)
Definition match_table_range (s : jstr) : option (jstr * jstr) :=
  r1 ← match_prefix (lit "table") s;
  '(n, r2) ← match_digits r1;
  r3 ← match_char 91 r2;
  '(a, r4) ← match_cell r3;
  r5 ← match_char 58 r4;
  '(b, r6) ← match_cell r5;
  r7 ← match_char 93 r6;
  Some (lit "table" ++ n ++ [91%N] ++ a ++ [58%N] ++ b ++ [93%N], r7).

(** An array element read by destructuring; a missing one prints as
    [undefined] in a template literal. *)
Definition element (l : list jstr) (i : nat) : jstr :=
  default (lit "undefined") (l !! i).

(** The replacement callback of [processTableExpression]. *)
Definition range_call (matched : jstr) : jstr :=
  let parts := split matched 91 in
  let tableName := element parts 0 in
  let range := element parts 1 in
  let cells := split (slice range 0 (-1)) 58 in
  let startCell := element cells 0 in
  let endCell := element cells 1 in
  lit "getRange(" ++ dquote ++ tableName ++ dquote ++ lit ", " ++
  dquote ++ startCell ++ dquote ++ lit ", " ++
  dquote ++ endCell ++ dquote ++ lit ")".

(** The global replace: [skip] counts the characters of the last match
    still to be passed over. *)
Fixpoint replace_ranges (skip : nat) (s : jstr) : jstr :=
  match s with
  | [] => []
  | c :: s' =>
      match skip with
      | S k => replace_ranges k s'
      | O =>
          match match_table_range s with
          | Some (m, _) => range_call m ++ replace_ranges (length m - 1) s'
          | None => c :: replace_ranges 0 s'
          end
      end
  end.

(** Function to process table-related expressions *)
Definition processTableExpression (expression : jstr) : jstr :=
  replace_ranges 0 expression.

(** ** Calls to the outside, in the order they are made *)

Inductive call : Type :=
  | ParseFromString (content : jstr)
  | KatexRenderToString (tex : jstr) (throwOnError : bool)
  | MathEvaluate (expr : jstr) (withGetRange : bool)
  | ConsoleError (expression : jstr)
  | SetContent (content : jstr) (emitUpdate preserveWhitespace : bool)
  | SetTextSelection (from to : Z).

Definition is_evaluator_call (c : call) : bool :=
  match c with
  | KatexRenderToString _ _ | MathEvaluate _ _ => true
  | _ => false
  end.

Definition is_SetContent (c : call) : bool :=
  match c with
  | SetContent _ _ _ => true
  | _ => false
  end.

(** How often an evaluator (mathjs or KaTeX) has been invoked. *)
Definition evaluator_calls (l : list call) : nat :=
  length (filter (fun c => is_evaluator_call c = true) l).

(** The module-level [expressionCache] and the calls made so far. *)
Record env : Type := {
  expressionCache : gmap jstr jstr;
  calls : list call
}.

Definition log (c : call) (st : env) : env :=
  {| expressionCache := expressionCache st; calls := calls st ++ [c] |}.

(** [expressionCache.set(k, v)] *)
Definition cache_set (k v : jstr) (st : env) : env :=
  {| expressionCache := <[k := v]> (expressionCache st); calls := calls st |}.

(** Code that may throw, over the state it has changed until then. *)
Definition M (A : Type) : Type := env -> result A * env.

Definition ret {A : Type} (a : A) : M A := fun st => (Ok a, st).

Definition bind {A B : Type} (m : M A) (f : A -> M B) : M B :=
  fun st =>
    match m st with
    | (Ok a, st') => f a st'
    | (Throw e, st') => (Throw e, st')
    end.

Definition lift {A : Type} (r : result A) : M A := fun st => (r, st).

Definition exec (f : env -> env) : M unit := fun st => (Ok tt, f st).

(** [try { body } catch (error) { handler }] *)
Definition try_catch {A : Type} (body : M A) (handler : exn -> env -> A * env)
    : env -> A * env :=
  fun st =>
    match body st with
    | (Ok a, st') => (a, st')
    | (Throw e, st') => handler e st'
    end.

Declare Scope js_scope.
Delimit Scope js_scope with js.
Notation "'let*' x := m 'in' k" := (bind m (fun x => k))
  (at level 10, x name, m at level 100, k at level 200) : js_scope.
Notation "m ;;; k" := (bind m (fun _ => k))
  (at level 100, k at level 200, right associativity) : js_scope.

(** [`<span style="color: red;">${expression}</span>`] *)
Definition error_marker (expression : jstr) : jstr :=
  lit "<span style=" ++ dquote ++ lit "color: red;" ++ dquote ++ lit ">" ++
  expression ++ lit "</span>".

(** [content.replace(re, callback)]: the callback runs once per match,
    left to right, and its results are spliced into the text. *)
Fixpoint replace_segments (callback : jstr -> env -> jstr * env)
    (segs : list segment) (st : env) : jstr * env :=
  match segs with
  | [] => ([], st)
  | Text t :: rest =>
      let (out, st') := replace_segments callback rest st in (t ++ out, st')
  | Placeholder e :: rest =>
      let (v, st1) := callback e st in
      let (out, st2) := replace_segments callback rest st1 in
      (v ++ out, st2)
  end.

(** ** The libraries the engine calls *)

(** [getRange] as mathjs receives it in its scope, closed over the table
    data of the cycle. *)
Abbreviation range_function num := (jstr -> jstr -> jstr -> result (list num)).

Class Libraries : Type := {
  (** numbers, [Number(s)] and [isNaN(x)] *)
  num : Type;
  Number : jstr -> num;
  isNaN : num -> bool;
  (** [new DOMParser().parseFromString(content, "text/html")], seen through
      the queries [parseTables] makes *)
  parseFromString : jstr -> Document;
  (** mathjs: values, [math.evaluate(expr)] and [math.evaluate(expr, scope)]
      where the scope adds [getRange] to mathjs's own functions,
      [typeof v === 'number'], [math.round(v, digits)], [v.toString()] *)
  mathval : Type;
  math_evaluate : jstr -> option (range_function num) -> result mathval;
  typeof_number : mathval -> bool;
  math_round : mathval -> Z -> result mathval;
  toString : mathval -> result jstr;
  (** [katex.renderToString(tex, { throwOnError })] *)
  katex_renderToString : jstr -> bool -> result jstr
}.

(** The editor object of the view, through the members [updateContent]
    uses. *)
Class EditorAPI : Type := {
  Editor : Type;
  getHTML : Editor -> jstr;
  (** [editor.state.selection], its [from] and [to] *)
  selection_from : Editor -> Z;
  selection_to : Editor -> Z;
  (** [editor.commands.setContent(content, emitUpdate,
      { preserveWhitespace })] *)
  setContent : jstr -> bool -> bool -> Editor -> Editor;
  (** [editor.commands.setTextSelection({ from, to })] *)
  setTextSelection : Z -> Z -> Editor -> Editor
}.

(** *** A small instance, to run the definitions on concrete inputs *)

Module Sample.

(** [Number] on optionally signed decimal integers and on the empty
    string (after trimming); every other string is [NaN] here. *)
Definition Number_integer (s : jstr) : jsint :=
  match trim s with
  | [] => Some 0
  | t =>
      let (neg, d) := strip_sign t in
      if forallb is_digit d then
        match parse_digits 10 d None with
        | Some n => Some (if neg then - Z.of_N n else Z.of_N n)
        | None => None
        end
      else None
  end.

Definition isNaN_integer (x : jsint) : bool :=
  match x with
  | Some _ => false
  | None => true
  end.

Inductive value : Type :=
  | VNumber (n : Z)
  | VArray (l : list jsint).

Definition sum_values (l : list jsint) : Z :=
  fold_left (fun a x => a + default 0 x) l 0.

(** The text of a [getRange("t", "a", "b")] call, split at its quotes. *)
Definition call_parts (expr : jstr)
    : option (jstr * jstr * jstr * jstr * jstr) :=
  match split expr 34 with
  | [p0; n; p1; a; p2; b; p3] =>
      if bool_decide (p1 = lit ", " ∧ p2 = lit ", ")
      then Some (p0, n, a, b, p3) else None
  | _ => None
  end.

(** Sums of decimal literals: [2+2], [40+2], [7]. *)
Definition evaluate_sum (expr : jstr) : result value :=
  let terms := split expr 43 in
  if forallb (fun t => negb (bool_decide (t = [])) && forallb is_digit t) terms
  then Ok (VNumber (sum_values (map Number_integer terms)))
  else Throw (LibraryError (lit "SyntaxError")).

(** A fragment of [math.evaluate]: a [getRange] call, [sum] of one, and
    sums of decimal literals; anything else is rejected. *)
Definition evaluate (expr : jstr) (scope : option (range_function jsint))
    : result value :=
  match call_parts expr with
  | Some (p0, n, a, b, p3) =>
      match scope with
      | None => Throw (LibraryError (lit "Undefined function getRange"))
      | Some getRange =>
          if bool_decide (p0 = lit "getRange(" ∧ p3 = lit ")") then
            match getRange n a b with
            | Ok l => Ok (VArray l)
            | Throw e => Throw e
            end
          else if bool_decide (p0 = lit "sum(getRange(" ∧ p3 = lit "))") then
            match getRange n a b with
            | Ok l => Ok (VNumber (sum_values l))
            | Throw e => Throw e
            end
          else Throw (LibraryError (lit "SyntaxError"))
      end
  | None => evaluate_sum expr
  end.

Definition value_is_number (v : value) : bool :=
  match v with
  | VNumber _ => true
  | VArray _ => false
  end.

Definition round (v : value) (digits : Z) : result value := Ok v.

Definition number_toString (x : jsint) : jstr :=
  match x with
  | Some z => Z_toString z
  | None => lit "NaN"
  end.

Fixpoint join (l : list jstr) : jstr :=
  match l with
  | [] => []
  | [x] => x
  | x :: r => x ++ 44%N :: join r
  end.

Definition value_toString (v : value) : result jstr :=
  match v with
  | VNumber n => Ok (Z_toString n)
  | VArray l => Ok (join (map number_toString l))
  end.

(** A renderer that tags its input and never throws. *)
Definition render (tex : jstr) (throwOnError : bool) : result jstr :=
  Ok (lit "<span class=katex>" ++ tex ++ lit "</span>").

(** Documents without table elements. *)
Definition no_tables (content : jstr) : Document := {| doc_tables := [] |}.

Definition libraries_with (parse : jstr -> Document) : Libraries := {|
  num := jsint;
  Number := Number_integer;
  isNaN := isNaN_integer;
  parseFromString := parse;
  mathval := value;
  math_evaluate := evaluate;
  typeof_number := value_is_number;
  math_round := round;
  toString := value_toString;
  katex_renderToString := render
|}.

Definition libraries : Libraries := libraries_with no_tables.

Definition cell (text : jstr) : Cell := {| textContent := Some text |}.

(** A table with the rows [1 | 3] and [2 | 4], and a document with
    this one table. *)
Definition table : Table :=
  {| table_rows :=
       [ {| row_cells := [cell (lit "1"); cell (lit " 3 ")] |};
         {| row_cells := [cell (lit "2"); cell (lit "4")] |} ] |}.

Definition one_table : Document := {| doc_tables := [table] |}.

Definition initial : env := {| expressionCache := ∅; calls := [] |}.

(** An editor that keeps the content and the selection it is given. *)
Record plain_editor : Type := {
  html : jstr;
  sel_from : Z;
  sel_to : Z
}.

Definition plain_editor_api : EditorAPI := {|
  Editor := plain_editor;
  getHTML := html;
  selection_from := sel_from;
  selection_to := sel_to;
  setContent := fun content _ _ ed =>
    {| html := content; sel_from := 0; sel_to := 0 |};
  setTextSelection := fun from to ed =>
    {| html := html ed; sel_from := from; sel_to := to |}
|}.

End Sample.

(** ** The engine *)

(** [cell.charCodeAt(0) - 65] *)
Definition column_of (cell : jstr) : jsint := jsint_sub (charCodeAt0 cell) 65.

(** [parseInt(cell.slice(1)) - 1] *)
Definition row_of (cell : jstr) : jsint :=
  jsint_sub (parseInt (slice_from cell 1)) 1.

(** [`${String.fromCharCode(col + 65)}${row + 1}`] *)
Definition cellRef_at (col row : Z) : jstr :=
  fromCharCode (col + 65) ++ Z_toString (row + 1).

Section Engine.

Context {L : Libraries}.

(** Function to extract values from a table range *)
Definition getRange (tableName startCell endCell : jstr)
    (tableData : table_index) : result (list num) :=
  match get_property tableData tableName with
  | Undefined =>
      Throw (JsError (lit "Table " ++ dquote ++ tableName ++ dquote ++
                      lit " not found."))
  | found =>
      (* an inherited member is truthy and has no property named by a
         cell reference *)
      let table : gmap jstr jstr :=
        match found with Own t => t | _ => ∅ end in
      let startCol := column_of startCell in
      let endCol := column_of endCell in
      let startRow := row_of startCell in
      let endRow := row_of endCell in
      Ok (for_upto startCol endCol
            (fun col =>
               for_upto startRow endRow
                 (fun row values =>
                    let cellRef := cellRef_at col row in
                    match get_property table cellRef with
                    | Own cellValue =>
                        if negb (isNaN (Number cellValue))
                        then values ++ [Number cellValue]
                        else values
                    | _ => values
                    end))
            [])
  end.

(** Function to parse tables and assign cell references *)
Definition parseTables (content : jstr) : jstr * table_index :=
  (content, index_tables (parseFromString content)).

Definition call_katex (tex : jstr) (throwOnError : bool) : M jstr :=
  (exec (log (KatexRenderToString tex throwOnError)) ;;;
   lift (katex_renderToString tex throwOnError))%js.

Definition call_math (expr : jstr) (scope : option (range_function num))
    : M mathval :=
  (exec (log (MathEvaluate expr (bool_decide (is_Some scope)))) ;;;
   lift (math_evaluate expr scope))%js.

(** The body of the [try] block of the replacement callback. *)
Definition evaluate_uncached (expression : jstr) (tableData : table_index)
    : M jstr :=
  (if startsWith expression (lit "$$") && endsWith expression (lit "$$") then
     (* Handle LaTeX expressions with the `$$` delimiter *)
     let latexExpression := trim (slice expression 2 (-2)) in
     let* result := call_katex latexExpression false in
     exec (cache_set expression result) ;;;
     ret result
   else if includes expression (lit "table") then
     (* Handle table-specific expressions *)
     let processedExpression := processTableExpression expression in
     let* result :=
       call_math processedExpression
         (Some (fun tableName startCell endCell =>
                  getRange tableName startCell endCell tableData)) in
     let* roundedResult :=
       (if typeof_number result
        then let* r := lift (math_round result 3) in lift (toString r)
        else lift (toString result)) in
     exec (cache_set expression roundedResult) ;;;
     ret roundedResult
   else
     (* Handle regular math expressions *)
     let* v := call_math expression None in
     let* r := lift (math_round v 3) in
     let* result := lift (toString r) in
     exec (cache_set expression result) ;;;
     ret result)%js.

(** The replacement callback of [evaluateTableExpressions]. *)
Definition evaluate_placeholder (tableData : table_index) (expression : jstr)
    : env -> jstr * env :=
  fun st =>
    match expressionCache st !! expression with
    | Some cached => (cached, st)
    | None =>
        try_catch (evaluate_uncached expression tableData)
          (fun error st' =>
             (error_marker expression, log (ConsoleError expression) st'))
          st
    end.

Definition evaluateTableExpressions (content : jstr) (tableData : table_index)
    : env -> jstr * env :=
  replace_segments (evaluate_placeholder tableData) (scan content).

(** *** The content handler *)

Context {E : EditorAPI}.

(** The view: its editor, the [previousContent] state of the component
    as the running handler sees it, and the module state. *)
Record view : Type := {
  editor : Editor;
  previousContent : jstr;
  world : env
}.

(** The function [updateContent] debounces; one run of it. *)
Definition updateContent (v : view) : view :=
  let start := selection_from (editor v) in
  let end_ := selection_to (editor v) in
  let str := getHTML (editor v) in
  (* Only evaluate if there is a closing brace *)
  if includes str [rbrace] then
    if negb (bool_decide (str = previousContent v)) then
      let parsedTableData := parseTables str in
      let w0 := log (ParseFromString str) (world v) in
      let (newContent, w1) :=
        evaluateTableExpressions (fst parsedTableData) (snd parsedTableData) w0 in
      let v1 :=
        if negb (bool_decide (newContent = previousContent v)) then
          {| editor := setContent newContent false true (editor v);
             previousContent := newContent;
             world := log (SetContent newContent false true) w1 |}
        else
          {| editor := editor v;
             previousContent := previousContent v;
             world := w1 |} in
      (* Restore cursor position *)
      {| editor := setTextSelection start end_ (editor v1);
         previousContent := previousContent v1;
         world := log (SetTextSelection start end_) (world v1) |}
    else v
  else v.

(** *** The component around the handler

    [const [previousContent, setPreviousContent] = useState("")] and
    [useEffect(() => { ... editor.on("update", updateContent) },
    [editor, previousContent])]: the effect runs again after every render
    in which [previousContent] has changed and registers the handler of
    that render; it returns no cleanup, so no handler is unregistered.
    Each handler has its own debounce timer and the [previousContent] of
    the render that created it. *)
Record component : Type := {
  mounted_editor : Editor;
  (** the state cell of [useState] *)
  state_previousContent : jstr;
  (** the registered handlers, oldest first, each given by the
      [previousContent] it closed over *)
  handlers : list jstr;
  module_state : env
}.

(** A registered handler runs, its delay over.  [setPreviousContent]
    writes the state cell; the component renders again when the cell
    has changed, and the effect registers the handler of that render. *)
Definition run_handler (captured : jstr) (c : component) : component :=
  let v :=
    updateContent
      {| editor := mounted_editor c;
         previousContent := captured;
         world := module_state c |} in
  let changed := negb (bool_decide (previousContent v = captured)) in
  let state := if changed then previousContent v else state_previousContent c in
  {| mounted_editor := editor v;
     state_previousContent := state;
     handlers :=
       if negb (bool_decide (state = state_previousContent c))
       then handlers c ++ [state] else handlers c;
     module_state := world v |}.

(** An [update] event of the editor and the debounce delay after it:
    the handlers registered when the event is emitted run in the order
    of their registration. *)
Definition update_event (c : component) : component :=
  fold_left (fun c captured => run_handler captured c) (handlers c) c.

(** The component once the editor exists: one handler, of the render
    with the initial state. *)
Definition mount (ed : Editor) (w : env) : component :=
  {| mounted_editor := ed;
     state_previousContent := lit "";
     handlers := [lit ""];
     module_state := w |}.

End Engine.

(** ** Notions used to state the properties *)

(** Value of a list of digits, least significant first. *)
Fixpoint le_value (l : list N) : N :=
  match l with
  | [] => 0
  | d :: r => d + 10 * le_value r
  end%N.

(** A non-empty run of decimal digits. *)
Definition numeral (s : jstr) : Prop :=
  s ≠ [] ∧ Forall (fun c => is_digit c = true) s.

(** The entries the indexer writes for a row, a table: in the order of the
    writes. *)
Fixpoint row_entries (rowIndex cellIndex : nat) (cells : list Cell)
    : list (jstr * jstr) :=
  match cells with
  | [] => []
  | cell :: rest =>
      (cellRef_of cellIndex rowIndex, cell_text cell)
      :: row_entries rowIndex (S cellIndex) rest
  end.

Fixpoint rows_entries (rowIndex : nat) (rows : list Row) : list (jstr * jstr) :=
  match rows with
  | [] => []
  | row :: rest =>
      row_entries rowIndex 0 (row_cells row) ++ rows_entries (S rowIndex) rest
  end.

Definition insert_entry (m : gmap jstr jstr) (kv : jstr * jstr)
    : gmap jstr jstr :=
  <[kv.1 := kv.2]> m.

Definition table_cells (table : Table) : gmap jstr jstr :=
  fold_left insert_entry (rows_entries 0 (table_rows table)) ∅.

(** A table of two rows and three columns. *)
Definition table_2x3 (a1 b1 c1 a2 b2 c2 : Cell) : Table :=
  {| table_rows := [ {| row_cells := [a1; b1; c1] |};
                     {| row_cells := [a2; b2; c2] |} ] |}.

(** The coordinate of column [col] (0 for A) and row [row] (1-based). *)
Definition coordinate (col row : Z) : jstr :=
  fromCharCode (65 + col) ++ Z_toString row.

(** A column letter A..Z and a 1-based row number. *)
Definition well_formed_coordinate (col row : Z) : Prop :=
  0 <= col < 26 ∧ 1 <= row < 2 ^ 53.

(** The cells of a rectangle in column-major order: the columns from left
    to right, each from its top row to its bottom row. *)
Definition rectangle (c1 r1 c2 r2 : Z) : list (Z * Z) :=
  flat_map (fun col => map (fun row => (col, row)) (seqZ r1 (r2 - r1 + 1)))
    (seqZ c1 (c2 - c1 + 1)).

(** A table identifier: [table] followed by decimal digits. *)
Definition table_identifier (name : jstr) : Prop :=
  ∃ digits, numeral digits ∧ name = lit "table" ++ digits.

Section Notions.

Context {L : Libraries}.

(** What a cell contributes to a range: its value if it exists and its
    text converts to a number, nothing otherwise. *)
Definition numeric_cell (cells : gmap jstr jstr) (at_ : Z * Z) : list num :=
  match cells !! coordinate at_.1 at_.2 with
  | Some v => if isNaN (Number v) then [] else [Number v]
  | None => []
  end.

(** The LaTeX case of the classification, and what it passes on. *)
Definition latex_delimited (expression : jstr) : bool :=
  startsWith expression (lit "$$") && endsWith expression (lit "$$").

Definition latex_source (expression : jstr) : jstr :=
  trim (slice expression 2 (-2)).

(** The evaluator call made for an expression that is not cached. *)
Definition evaluator_call (expression : jstr) : call :=
  if latex_delimited expression
  then KatexRenderToString (latex_source expression) false
  else if includes expression (lit "table")
  then MathEvaluate (processTableExpression expression) true
  else MathEvaluate expression false.

(** [math.round(v, 3).toString()] *)
Definition rounded (v : mathval) : result jstr :=
  match math_round v 3 with
  | Ok r => toString r
  | Throw e => Throw e
  end.

(** What that call and the conversion of its result give. *)
Definition fresh_rendering (expression : jstr) (tableData : table_index)
    : result jstr :=
  if latex_delimited expression
  then katex_renderToString (latex_source expression) false
  else if includes expression (lit "table")
  then
    match
      math_evaluate (processTableExpression expression)
        (Some (fun tableName startCell endCell =>
                 getRange tableName startCell endCell tableData))
    with
    | Ok v => if typeof_number v then rounded v else toString v
    | Throw e => Throw e
    end
  else
    match math_evaluate expression None with
    | Ok v => rounded v
    | Throw e => Throw e
    end.

(** Every cached rendering of a LaTeX placeholder is what the renderer
    returns for it. *)
Definition cache_sound (cache : gmap jstr jstr) : Prop :=
  ∀ expression r,
    cache !! expression = Some r →
    latex_delimited expression = true →
    katex_renderToString (latex_source expression) false = Ok r.

(** [c'] has the entries of [c] and, besides, only renderings that a
    fresh evaluation with the table index [td] gives. *)
Definition grown_by_evaluation (td : table_index) (c c' : gmap jstr jstr)
    : Prop :=
  (∀ k v, c !! k = Some v → c' !! k = Some v) ∧
  (∀ k v, c' !! k = Some v →
          c !! k = Some v ∨ (c !! k = None ∧ fresh_rendering k td = Ok v)).

(** Successive evaluations, each of a snapshot with its table index. *)
Fixpoint run_cycles (cycles : list (jstr * table_index)) (st : env) : env :=
  match cycles with
  | [] => st
  | (content, tableData) :: rest =>
      run_cycles rest (evaluateTableExpressions content tableData st).2
  end.

End Notions.

(** The calls that replace the document content. *)
Definition content_replacements (l : list call) : list call :=
  filter (fun c => is_SetContent c = true) l.

Section ControllerNotions.

Context {L : Libraries} {E : EditorAPI}.

(** The rewritten snapshot a cycle computes when it gets that far, and
    the state after computing it. *)
Definition candidate (v : view) : jstr * env :=
  let str := getHTML (editor v) in
  evaluateTableExpressions str (parseTables str).2
    (log (ParseFromString str) (world v)).

(** The cycle goes as far as replacing the content. *)
Definition replaces_content (v : view) : Prop :=
  let str := getHTML (editor v) in
  includes str [rbrace] = true ∧
  str ≠ previousContent v ∧
  (candidate v).1 ≠ previousContent v.

(** An editor that gives back the content it was given, and whose
    content is not changed by setting the selection. *)
Definition keeps_content : Prop :=
  (∀ content emitUpdate preserveWhitespace ed,
     getHTML (setContent content emitUpdate preserveWhitespace ed) = content) ∧
  (∀ from to ed, getHTML (setTextSelection from to ed) = getHTML ed).

End ControllerNotions.

(** A view on the sample editor. *)
Definition sample_view (content : jstr) (from to : Z) (previous : jstr)
    : view (E := Sample.plain_editor_api) :=
  @Build_view Sample.plain_editor_api
    {| Sample.html := content; Sample.sel_from := from; Sample.sel_to := to |}
    previous Sample.initial.

(** The user changes the document of the sample editor. *)
Definition user_edit (ed : Sample.plain_editor)
    (c : component (E := Sample.plain_editor_api))
    : component (E := Sample.plain_editor_api) :=
  @Build_component Sample.plain_editor_api ed (state_previousContent c)
    (handlers c) (module_state c).


(** ** Range references, as [processTableExpression] reads them *)


(** A column letter A..Z followed by decimal digits: [[A-Z]\d+]. *)
Definition cell_reference (a : jstr) : Prop :=
  ∃ c digits, a = c :: digits ∧ is_upper c = true ∧ numeral digits.

(** [table<n>[<a>:<b>]] *)
Definition range_reference (n a b : jstr) : jstr :=
  lit "table" ++ n ++ [91%N] ++ a ++ [58%N] ++ b ++ [93%N].

(** [getRange("<tableName>", "<startCell>", "<endCell>")] *)
Definition getRange_call (tableName startCell endCell : jstr) : jstr :=
  lit "getRange(" ++ dquote ++ tableName ++ dquote ++ lit ", " ++
  dquote ++ startCell ++ dquote ++ lit ", " ++
  dquote ++ endCell ++ dquote ++ lit ")".

(** ** [debounce]

    [debounce(fn, delay)] returns a function that keeps one timeout in the
    variable [timer] of its closure.  Time is the clock of the event loop,
    in milliseconds; the delays meant are those [setTimeout] takes as
    they are, 1 to 2^31 - 1, as the 300 of the view. *)

Section Debounce.

Context {A : Type}.

(** The timeout set last, while it is pending: the time from which it
    is due and the arguments it passes to [fn]. *)
Definition timer_state : Type := option (Z * A).

Inductive timer_event : Type :=
  | Called (now : Z) (args : A) (* the returned function is called *)
  | Elapsed (now : Z).          (* the event loop runs the timeout if due *)

(** The returned function: [clearTimeout(timer)] and
    [timer = setTimeout(() => fn(...args), delay)].  The result is the
    timer and the calls of [fn] made meanwhile, by their arguments. *)
Definition debounce (delay now : Z) (args : A) (timer : timer_state)
    : timer_state * list A :=
  (Some (now + delay, args), []).

(** The event loop at time [now]: a pending timeout that is due runs. *)
Definition run_timeout (now : Z) (timer : timer_state)
    : timer_state * list A :=
  match timer with
  | Some (due, args) => if due <=? now then (None, [args]) else (timer, [])
  | None => (None, [])
  end.

Definition timer_step (delay : Z) (ev : timer_event) (timer : timer_state)
    : timer_state * list A :=
  match ev with
  | Called now args => debounce delay now args timer
  | Elapsed now => run_timeout now timer
  end.

(** A history of calls and of turns of the event loop; the calls of
    [fn] it leads to, in order. *)
Fixpoint run_events (delay : Z) (evs : list timer_event) (timer : timer_state)
    : timer_state * list A :=
  match evs with
  | [] => (timer, [])
  | ev :: rest =>
      let (timer1, served1) := timer_step delay ev timer in
      let (timer2, served2) := run_events delay rest timer1 in
      (timer2, served1 ++ served2)
  end.

(** The arguments of the calls of a history, in order. *)
Definition called_args (evs : list timer_event) : list A :=
  omap (fun ev => match ev with Called _ args => Some args | Elapsed _ => None end)
    evs.

(** A turn of the event loop before the timeout set at [now] is due. *)
Definition premature (delay now : Z) (ev : timer_event) : Prop :=
  match ev with
  | Called _ _ => False
  | Elapsed t => t < now + delay
  end.

End Debounce.

Arguments timer_state A : clear implicits.
Arguments timer_event A : clear implicits.

(** ** The earlier version of the view: [parseAndEvaluate] and its handler *)

Module Legacy.

Section Legacy.

Context {L : Libraries}.

(** [String(v)]: what [replace] makes of the value the callback
    returns. *)
Variable String_of : mathval → jstr.

(** The replacement callback of [parseAndEvaluate]: the value of the
    expression, or the match itself when the evaluation throws. *)
Definition evaluate_match (expression : jstr) : env → jstr * env :=
  try_catch
    (let* result := call_math expression None in
     ret (String_of result))%js
    (fun error st' =>
       (lbrace :: expression ++ [rbrace],
        log (ConsoleError expression) st')).

(** Function to parse and evaluate expressions *)
Definition parseAndEvaluate (content : jstr) : env → jstr * env :=
  replace_segments evaluate_match (scan content).

Context {E : EditorAPI}.

(** The handler registered for [update]; one run of it. *)
Definition updateContent (ed : Editor) (w : env) : Editor * env :=
  let start := selection_from ed in
  let end_ := selection_to ed in
  let str := getHTML ed in
  let (newContent, w1) := parseAndEvaluate str w in
  (setTextSelection start end_ (setContent newContent false true ed),
   log (SetTextSelection start end_)
     (log (SetContent newContent false true) w1)).

End Legacy.

End Legacy.

(** ** The link extension: [extensions/CustomLink.ts] *)

Module CustomLink.

(** The mouse event of a click, through what [handleClick] reads: the
    button, the node name of the target and its [href] property
    ([None] when it is [null] or [undefined]), the Control key. *)
Record MouseEvent : Type := {
  button : Z;
  target_nodeName : jstr;
  target_href : option jstr;
  ctrlKey : bool
}.

(** The editor view: whether it is editable, and the [href] of
    [getAttributes(view.state, "link")]. *)
Record EditorView : Type := {
  editable : bool;
  attrs_href : option jstr
}.

(** [a ?? b] *)
Definition nullish_or (a b : option jstr) : option jstr :=
  match a with
  | Some _ => a
  | None => b
  end.

(** Truthiness of a string that may be [null] or [undefined]. *)
Definition truthy (s : option jstr) : bool :=
  match s with
  | Some (_ :: _) => true
  | _ => false
  end.

(** [handleClick]: what it returns (the click is handled) and the calls
    of [window.api.openExternalLink] it makes. *)
Definition handleClick (view : EditorView) (event : MouseEvent)
    : bool * list jstr :=
  if negb (button event =? 0) then (false, [])
  else if negb (bool_decide (target_nodeName event = lit "A")) then (false, [])
  else
    let href := nullish_or (target_href event) (attrs_href view) in
    (* [link] is the target, an object *)
    if truthy href then
      (true,
       if editable view then
         if ctrlKey event then [default [] href] else []
       else [])
    else (false, []).

(** A [classList]: an ordered set of tokens. *)
Definition classList_add (token : jstr) (l : list jstr) : list jstr :=
  if bool_decide (token ∈ l) then l else l ++ [token].

Definition classList_remove (token : jstr) (l : list jstr) : list jstr :=
  filter (fun t => t ≠ token) l.

(** The [keydown] and [keyup] handlers, on the class lists of the
    elements [document.querySelectorAll(".ProseMirror a")] returns. *)
Definition keydown (key : jstr) (anchors : list (list jstr))
    : list (list jstr) :=
  if bool_decide (key = lit "Control")
  then classList_add (lit "ctrl") <$> anchors else anchors.

Definition keyup (key : jstr) (anchors : list (list jstr))
    : list (list jstr) :=
  if bool_decide (key = lit "Control")
  then classList_remove (lit "ctrl") <$> anchors else anchors.

End CustomLink.

(** ** The component, again *)

Section ComponentNotions.

Context {L : Libraries} {E : EditorAPI}.

(** The handler registered last is the one of the current render: it
    has closed over the value the state cell has now. *)
Definition newest_handler_is_current (c : component) : Prop :=
  last (handlers c) = Some (state_previousContent c).

End ComponentNotions.

(** ** The zoom handlers

    [p.editor.zoom] is a double; the handlers compute with doubles. *)

Module Zoom.

Import PrimFloat.

(** The requests of the main process: [onEditorZoomIn],
    [onEditorZoomOut], [onEditorResetZoom]. *)
Inductive request : Type :=
  | ZoomIn
  | ZoomOut
  | ResetZoom.

(** The doubles the literals [0.1], [0.2] and [5.1] denote. *)
Definition tenth : float := 0x1.999999999999ap-4.
Definition fifth : float := 0x1.999999999999ap-3.
Definition five_and_tenth : float := 0x1.4666666666666p+2.

(** What the handler of a request does to [p.editor.zoom]. *)
Definition handle (r : request) (zoom : float) : float :=
  match r with
  | ZoomIn => if (zoom <=? 5)%float then (zoom + tenth)%float else zoom
  | ZoomOut => if (fifth <=? zoom)%float then (zoom - tenth)%float else zoom
  | ResetZoom => 1%float
  end.

(** The handlers run for a sequence of requests. *)
Definition run (requests : list request) (zoom : float) : float :=
  fold_left (fun z r => handle r z) requests zoom.

Fixpoint iterate (n : nat) (f : float → float) (z : float) : list float :=
  match n with
  | O => []
  | S n' => z :: iterate n' f (f z)
  end.

(** The levels met by zooming out of, and into, the level 1: 51 levels
    from about 0.1 to about 5.1, in increasing order. *)
Definition zoom_levels : list float :=
  rev (iterate 10 (handle ZoomOut) 1%float) ++
  iterate 41 (handle ZoomIn) (handle ZoomIn 1%float).

Definition is_level (zoom : float) : bool :=
  existsb (Leibniz.eqb zoom) zoom_levels.

End Zoom.

(** ** More sample values *)

(** [String] on the values of the sample evaluator. *)
Definition sample_String (v : Sample.value) : jstr :=
  match Sample.value_toString v with
  | Ok s => s
  | Throw _ => []
  end.

(** * Properties *)

Local Open Scope Z_scope.

(** ** Decimal numerals *)


Lemma le_digits_value fuel n :
  (n < 2 ^ N.of_nat fuel)%N → le_value (le_digits fuel n) = n.
Proof.
  revert n. induction fuel as [|fuel IH]; intros n Hn.
  - simpl in *. lia.
  - simpl le_digits. destruct (N.ltb_spec n 10) as [Hlt|Hge].
    + simpl. lia.
    + simpl. rewrite IH.
      * pose proof (N.div_mod n 10). lia.
      * apply N.Div0.div_lt_upper_bound.
        rewrite Nat2N.inj_succ, N.pow_succ_r' in Hn. lia.
Qed.

Lemma le_digits_small fuel n :
  (n < 2 ^ N.of_nat fuel)%N → Forall (fun d => (d < 10)%N) (le_digits fuel n).
Proof.
  revert n. induction fuel as [|fuel IH]; intros n Hn.
  - simpl in *. constructor; [lia | constructor].
  - simpl le_digits. destruct (N.ltb_spec n 10) as [Hlt|Hge].
    + constructor; [lia | constructor].
    + constructor.
      * apply N.mod_lt. lia.
      * apply IH. apply N.Div0.div_lt_upper_bound.
        rewrite Nat2N.inj_succ, N.pow_succ_r' in Hn. lia.
Qed.

Lemma le_digits_nonempty fuel n : le_digits fuel n ≠ [].
Proof. destruct fuel; simpl; [done|]. by destruct (n <? 10)%N. Qed.

Lemma digits_fuel n : (n < 2 ^ N.of_nat (S (N.to_nat (N.log2 n))))%N.
Proof.
  rewrite Nat2N.inj_succ, N2Nat.id.
  destruct (N.eq_dec n 0%N) as [->|Hn]; [reflexivity|].
  apply N.log2_spec. lia.
Qed.

Lemma digit_value_code d : (d < 10)%N → digit_value 10 (digit_code d) = Some d.
Proof.
  intros Hd. unfold digit_value, digit_code.
  destruct (N.leb_spec 48 (48 + d)); [|lia].
  destruct (N.leb_spec (48 + d) 57); [|lia]. simpl.
  destruct (N.ltb_spec (48 + d - 48) 10); [|lia]. f_equal. lia.
Qed.

Lemma is_digit_code d : (d < 10)%N → is_digit (digit_code d) = true.
Proof.
  intros Hd. unfold is_digit, digit_code.
  destruct (N.leb_spec 48 (48 + d)); [|lia].
  destruct (N.leb_spec (48 + d) 57); [done|lia].
Qed.

Lemma parse_digits_codes ds a :
  Forall (fun d => (d < 10)%N) ds →
  parse_digits 10 (map digit_code ds) (Some a)
  = Some (fold_left (fun a d => a * 10 + d)%N ds a).
Proof.
  intros Hds. revert a. induction Hds as [|d ds Hd _ IH]; intros a; [done|].
  simpl. rewrite digit_value_code by done. apply IH.
Qed.

Lemma fold_left_rev_digits l :
  fold_left (fun a d => a * 10 + d)%N (rev l) 0%N = le_value l.
Proof.
  induction l as [|d l IH]; [done|].
  simpl. rewrite fold_left_app. simpl. rewrite IH. lia.
Qed.

Lemma parse_digits_N_toString n : parse_digits 10 (N_toString n) None = Some n.
Proof.
  unfold N_toString.
  pose proof (le_digits_small _ _ (digits_fuel n)) as Hsmall.
  pose proof (le_digits_value _ _ (digits_fuel n)) as Hval.
  pose proof (le_digits_nonempty (S (N.to_nat (N.log2 n))) n) as Hne.
  remember (le_digits _ n) as l eqn:Hl. clear Hl.
  rewrite <- Hval, <- fold_left_rev_digits.
  apply Forall_rev in Hsmall.
  destruct (rev l) as [|d ds] eqn:Hrev.
  - destruct l; [done|]. simpl in Hrev. by destruct (rev l).
  - inversion Hsmall; subst. simpl.
    rewrite digit_value_code by done.
    rewrite parse_digits_codes by done. done.
Qed.

Lemma numeral_N_toString n : numeral (N_toString n).
Proof.
  unfold N_toString, numeral.
  pose proof (le_digits_small _ _ (digits_fuel n)) as Hsmall.
  pose proof (le_digits_nonempty (S (N.to_nat (N.log2 n))) n) as Hne.
  remember (le_digits _ n) as l eqn:Hl. clear Hl. split.
  - destruct l as [|d l]; [done|]. simpl. rewrite map_app. simpl.
    by destruct (map digit_code (rev l)).
  - apply Forall_map, Forall_rev. eapply Forall_impl; [exact Hsmall|].
    intros d Hd. by apply is_digit_code.
Qed.

Lemma is_digit_range c : is_digit c = true → (48 <= c <= 57)%N.
Proof.
  unfold is_digit. intros H. apply andb_true_iff in H as [H1 H2].
  apply N.leb_le in H1, H2. lia.
Qed.

Lemma is_digit_cases c :
  is_digit c = true →
  (c = 48 ∨ c = 49 ∨ c = 50 ∨ c = 51 ∨ c = 52 ∨ c = 53 ∨ c = 54 ∨
   c = 55 ∨ c = 56 ∨ c = 57)%N.
Proof. intros H%is_digit_range. lia. Qed.

Ltac digit_cases H :=
  destruct (is_digit_cases _ H)
    as [ -> | [ -> | [ -> | [ -> | [ -> | [ -> | [ -> | [ -> | [ -> | -> ] ] ] ] ] ] ] ] ].

Lemma numeral_trimStart s : numeral s → trimStart s = s.
Proof.
  intros [Hne Hall]. destruct s as [|c s]; [done|].
  inversion Hall as [|? ? Hc _]; subst. simpl.
  digit_cases Hc; reflexivity.
Qed.

Lemma numeral_strip_sign s : numeral s → strip_sign s = (false, s).
Proof.
  intros [Hne Hall]. destruct s as [|c s]; [done|].
  inversion Hall as [|? ? Hc _]; subst. simpl.
  digit_cases Hc; reflexivity.
Qed.

Lemma numeral_strip_hex_prefix s : numeral s → strip_hex_prefix s = (10%N, s).
Proof.
  intros [Hne Hall]. destruct s as [|c [|x s]]; [done..|].
  inversion Hall as [|? ? _ Hall']; subst.
  inversion Hall' as [|? ? Hx _]; subst. simpl.
  digit_cases Hx; by rewrite andb_false_r.
Qed.

Lemma parseInt_numeral n : parseInt (N_toString n) = Some (Z.of_N n).
Proof.
  pose proof (numeral_N_toString n) as Hnum. unfold parseInt.
  rewrite numeral_trimStart, numeral_strip_sign by done. cbv beta iota.
  rewrite numeral_strip_hex_prefix by done. cbv beta iota.
  by rewrite parse_digits_N_toString.
Qed.

(** Reading back a printed integer. *)
Lemma parseInt_Z_toString z : parseInt (Z_toString z) = Some z.
Proof.
  unfold Z_toString. destruct (Z.ltb_spec z 0) as [Hneg|Hpos].
  - pose proof (numeral_N_toString (Z.abs_N z)) as Hnum.
    unfold parseInt.
    change (trimStart (45%N :: ?s)) with (45%N :: s).
    change (strip_sign (45%N :: ?s)) with (true, s). cbv beta iota.
    rewrite numeral_strip_hex_prefix by done. cbv beta iota.
    rewrite parse_digits_N_toString. f_equal. lia.
  - rewrite parseInt_numeral. f_equal. lia.
Qed.

Lemma Z_toString_inj z1 z2 : Z_toString z1 = Z_toString z2 → z1 = z2.
Proof.
  intros H. apply (f_equal parseInt) in H.
  rewrite !parseInt_Z_toString in H. congruence.
Qed.

Lemma Z_toString_nonempty z : Z_toString z ≠ [].
Proof.
  unfold Z_toString. destruct (z <? 0); [done|].
  apply numeral_N_toString.
Qed.

(** ** The table indexer *)

Lemma columnIndexToLetter_inj c1 c2 :
  Z.of_nat c1 < 65471 → Z.of_nat c2 < 65471 →
  columnIndexToLetter c1 = columnIndexToLetter c2 → c1 = c2.
Proof.
  unfold columnIndexToLetter, fromCharCode. intros H1 H2 [= H].
  rewrite !Z.mod_small in H by lia. lia.
Qed.

Lemma cellRef_of_inj c1 r1 c2 r2 :
  Z.of_nat c1 < 65471 → Z.of_nat c2 < 65471 →
  cellRef_of c1 r1 = cellRef_of c2 r2 → c1 = c2 ∧ r1 = r2.
Proof.
  unfold cellRef_of. intros H1 H2 H.
  unfold columnIndexToLetter, fromCharCode in H. simpl in H.
  injection H as Hc Hr. split.
  - rewrite !Z.mod_small in Hc by lia. lia.
  - apply Z_toString_inj in Hr. lia.
Qed.

Lemma tableName_of_inj i j : tableName_of i = tableName_of j → i = j.
Proof.
  unfold tableName_of. intros H%app_inv_head%Z_toString_inj. lia.
Qed.

Lemma set_cell_present (name k v : jstr) (td : table_index)
    (m : gmap jstr jstr) :
  td !! name = Some m → set_cell name k v td = <[name := <[k := v]> m]> td.
Proof.
  intros Hm. unfold set_cell. apply map_eq. intros n.
  destruct (decide (name = n)) as [<-|Hne].
  - by rewrite lookup_alter_eq, lookup_insert_eq, Hm.
  - by rewrite lookup_alter_ne, lookup_insert_ne.
Qed.

Lemma index_cells_from (name : jstr) R cells :
  ∀ i (td : table_index) (m : gmap jstr jstr),
  td !! name = Some m →
  forEach_from i
    (fun cell cellIndex td =>
       set_cell name (cellRef_of cellIndex R) (cell_text cell) td) cells td
  = <[name := fold_left insert_entry (row_entries R i cells) m]> td.
Proof.
  induction cells as [|cell cells IH]; intros i td m Hm; simpl.
  - by rewrite insert_id.
  - rewrite (set_cell_present _ _ _ _ m) by done.
    erewrite IH by apply lookup_insert_eq.
    by rewrite insert_insert_eq.
Qed.

Lemma index_rows_from (name : jstr) rows :
  ∀ r (td : table_index) (m : gmap jstr jstr),
  td !! name = Some m →
  forEach_from r (index_row name) rows td
  = <[name := fold_left insert_entry (rows_entries r rows) m]> td.
Proof.
  induction rows as [|row rows IH]; intros r td m Hm; simpl.
  - by rewrite insert_id.
  - unfold index_row at 2. unfold forEach.
    rewrite (index_cells_from _ _ _ _ _ m) by done.
    erewrite IH by apply lookup_insert_eq.
    by rewrite insert_insert_eq, fold_left_app.
Qed.

Lemma index_table_insert (table : Table) (i : nat) (td : table_index) :
  index_table table i td = <[tableName_of i := table_cells table]> td.
Proof.
  unfold index_table, forEach, table_cells.
  erewrite index_rows_from by apply lookup_insert_eq.
  by rewrite insert_insert_eq.
Qed.

Lemma index_tables_other tables : ∀ (i : nat) (td : table_index) (k : nat),
  (k < i)%nat →
  forEach_from i index_table tables td !! tableName_of k = td !! tableName_of k.
Proof.
  induction tables as [|t tables IH]; intros i td k Hk; simpl; [done|].
  rewrite IH by lia. rewrite index_table_insert.
  apply lookup_insert_ne. intros H%tableName_of_inj. lia.
Qed.

Lemma index_tables_lookup tables :
  ∀ (i : nat) (td : table_index) (j : nat) table,
  tables !! j = Some table →
  forEach_from i index_table tables td !! tableName_of (i + j)
  = Some (table_cells table).
Proof.
  induction tables as [|t tables IH]; intros i td j table Hj; [done|].
  destruct j as [|j]; simpl in *.
  - injection Hj as ->. rewrite Nat.add_0_r.
    rewrite index_tables_other by lia.
    rewrite index_table_insert. apply lookup_insert_eq.
  - replace (i + S j)%nat with (S i + j)%nat by lia. by apply IH.
Qed.

Lemma row_entries_elem R cells : ∀ i (k v : jstr),
  (k, v) ∈ row_entries R i cells ↔
  ∃ C cell,
    cells !! C = Some cell ∧ k = cellRef_of (i + C) R ∧ v = cell_text cell.
Proof.
  induction cells as [|c cells IH]; intros i k v; simpl.
  - split; [by intros ?%elem_of_nil|]. by intros (C & cell & ? & _).
  - rewrite elem_of_cons, IH. split.
    + intros [[= -> ->]|(C & cell & HC & -> & ->)].
      * exists 0%nat, c. by rewrite Nat.add_0_r.
      * exists (S C), cell. split; [done|].
        by replace (i + S C)%nat with (S i + C)%nat by lia.
    + intros ([|C] & cell & HC & -> & ->); simpl in HC.
      * left. injection HC as ->. by rewrite Nat.add_0_r.
      * right. exists C, cell. split; [done|].
        by replace (i + S C)%nat with (S i + C)%nat by lia.
Qed.

Lemma rows_entries_elem rows : ∀ r (k v : jstr),
  (k, v) ∈ rows_entries r rows ↔
  ∃ R row C cell,
    rows !! R = Some row ∧ row_cells row !! C = Some cell ∧
    k = cellRef_of C (r + R) ∧ v = cell_text cell.
Proof.
  induction rows as [|row rows IH]; intros r k v; simpl.
  - split; [by intros ?%elem_of_nil|]. by intros (R & ? & ? & ? & ? & _).
  - rewrite elem_of_app, IH, row_entries_elem. split.
    + intros [(C & cell & HC & -> & ->)|(R & row' & C & cell & HR & HC & -> & ->)].
      * exists 0%nat, row, C, cell. by rewrite Nat.add_0_r.
      * exists (S R), row', C, cell. repeat split; [done..|].
        by replace (r + S R)%nat with (S r + R)%nat by lia.
    + intros ([|R] & row' & C & cell & HR & HC & -> & ->); simpl in HR.
      * left. injection HR as ->. exists C, cell. by rewrite Nat.add_0_r.
      * right. exists R, row', C, cell. repeat split; [done..|].
        by replace (r + S R)%nat with (S r + R)%nat by lia.
Qed.

Lemma fold_insert_entry_elem l : ∀ (m : gmap jstr jstr) (k v : jstr),
  fold_left insert_entry l m !! k = Some v → (k, v) ∈ l ∨ m !! k = Some v.
Proof.
  induction l as [|[k' v'] l IH] using rev_ind; intros m k v; simpl; [auto|].
  rewrite fold_left_app. simpl. unfold insert_entry at 1. simpl.
  destruct (decide (k' = k)) as [->|Hne].
  - rewrite lookup_insert_eq. intros [= ->]. left.
    apply elem_of_app. right. by apply list_elem_of_singleton.
  - rewrite lookup_insert_ne by done. intros [?|?]%IH; [left|by right].
    apply elem_of_app. by left.
Qed.

Lemma fold_insert_entry_lookup l : ∀ (m : gmap jstr jstr) (k v : jstr),
  (k, v) ∈ l → (∀ v', (k, v') ∈ l → v' = v) →
  fold_left insert_entry l m !! k = Some v.
Proof.
  induction l as [|[k' v'] l IH] using rev_ind; intros m k v Hin Hfun.
  - by apply elem_of_nil in Hin.
  - rewrite fold_left_app. simpl. unfold insert_entry at 1. simpl.
    destruct (decide (k' = k)) as [->|Hne].
    + rewrite lookup_insert_eq. f_equal. apply Hfun.
      apply elem_of_app. right. by apply list_elem_of_singleton.
    + rewrite lookup_insert_ne by done. apply IH.
      * apply elem_of_app in Hin as [?|Hin]; [done|].
        apply list_elem_of_singleton in Hin. congruence.
      * intros v'' ?. apply Hfun. apply elem_of_app. by left.
Qed.

Section Indexer.

Context {L : Libraries}.

(** C1. The table index of a snapshot has, for the table at position
    [ti] (0-based), an entry [table<ti+1>]; in it the cell at row [R],
    position [C] (both 0-based) is stored under
    [letter(C) + (R+1)], with its trimmed text, and there are no other
    keys.  [letter] maps 0, 1, 2, ... to [A], [B], [C], ...: it is the
    character of code 65 + C.  A table of two rows and three cells each
    is indexed under exactly A1, B1, C1, A2, B2, C2, whatever the cells
    contain.  (Rows are taken with fewer than 65471 cells, so that the
    character code does not wrap around.) *)
Theorem parseTables_coordinates :
  (∀ content ti table,
     doc_tables (parseFromString content) !! ti = Some table →
     (∀ row, row ∈ table_rows table →
             Z.of_nat (length (row_cells row)) <= 65471) →
     ∃ cells,
       (parseTables content).2 !! tableName_of ti = Some cells ∧
       (∀ R row C cell,
          table_rows table !! R = Some row →
          row_cells row !! C = Some cell →
          cells !! (columnIndexToLetter C ++ Z_toString (Z.of_nat R + 1))
          = Some (cell_text cell)) ∧
       (∀ k v,
          cells !! k = Some v →
          ∃ R row C cell,
            table_rows table !! R = Some row ∧
            row_cells row !! C = Some cell ∧
            k = columnIndexToLetter C ++ Z_toString (Z.of_nat R + 1) ∧
            v = cell_text cell)) ∧
  (∀ C, (C < 26)%nat → columnIndexToLetter C = [N.of_nat (65 + C)]) ∧
  (columnIndexToLetter 0 = lit "A" ∧ columnIndexToLetter 1 = lit "B" ∧
   columnIndexToLetter 2 = lit "C") ∧
  (∀ a1 b1 c1 a2 b2 c2,
     index_tables {| doc_tables := [table_2x3 a1 b1 c1 a2 b2 c2] |}
     = {[ lit "table1" :=
            list_to_map
              [(lit "A1", cell_text a1); (lit "B1", cell_text b1);
               (lit "C1", cell_text c1); (lit "A2", cell_text a2);
               (lit "B2", cell_text b2); (lit "C2", cell_text c2)] ]}).
Proof.
  split; [|split; [|split]].
  - intros content ti table Hti Hcols. exists (table_cells table).
    split; [|split].
    + unfold parseTables, index_tables, forEach. simpl.
      by apply (index_tables_lookup _ 0).
    + intros R row C cell HR HC. unfold table_cells.
      apply fold_insert_entry_lookup.
      * apply rows_entries_elem. by exists R, row, C, cell.
      * intros v' (R' & row' & C' & cell' & HR' & HC' & Hk & ->)%rows_entries_elem.
        simpl in Hk. apply cellRef_of_inj in Hk as [-> ->].
        -- congruence.
        -- apply lookup_lt_Some in HC.
           specialize (Hcols row (list_elem_of_lookup_2 _ _ _ HR)). lia.
        -- apply lookup_lt_Some in HC'.
           specialize (Hcols row' (list_elem_of_lookup_2 _ _ _ HR')). lia.
    + intros k v Hk. unfold table_cells in Hk.
      apply fold_insert_entry_elem in Hk as [Hk|Hk]; [|done].
      by apply rows_entries_elem in Hk.
  - intros C HC. unfold columnIndexToLetter, fromCharCode.
    rewrite Z.mod_small by lia. f_equal. lia.
  - done.
  - intros. unfold index_tables, forEach. simpl.
    rewrite index_table_insert. rewrite insert_empty. f_equal.
Qed.

End Indexer.

(** ** The range lookup *)

Lemma for_iter_append {A : Type} (g : Z → list A) body :
  (∀ j acc, body j acc = acc ++ g j) →
  ∀ n i acc, for_iter n i body acc = acc ++ flat_map g (seqZ i (Z.of_nat n)).
Proof.
  intros Hbody. induction n as [|n IH]; intros i acc.
  - simpl. by rewrite app_nil_r.
  - cbn [for_iter]. rewrite IH, Hbody. rewrite (seqZ_cons i) by lia.
    replace (Z.succ i) with (i + 1) by lia.
    replace (Z.pred (Z.of_nat (S n))) with (Z.of_nat n) by lia.
    simpl. by rewrite <- app_assoc.
Qed.

Lemma for_iter_skip {St : Type} (body : Z → St → St) :
  (∀ j s, body j s = s) → ∀ n i s, for_iter n i body s = s.
Proof.
  intros Hbody. induction n as [|n IH]; intros i s; simpl; [done|].
  by rewrite IH, Hbody.
Qed.

Lemma for_iter_ext {St : Type} (body1 body2 : Z → St → St) :
  (∀ j s, body1 j s = body2 j s) →
  ∀ n i s, for_iter n i body1 s = for_iter n i body2 s.
Proof.
  intros Hbody. induction n as [|n IH]; intros i s; simpl; [done|].
  by rewrite IH, Hbody.
Qed.

Lemma seqZ_of_to_nat m n : seqZ m (Z.of_nat (Z.to_nat n)) = seqZ m n.
Proof.
  destruct (Z.le_gt_cases 0 n).
  - by rewrite Z2Nat.id.
  - by rewrite !seqZ_nil by lia.
Qed.

Lemma flat_map_fmap {A B C : Type} (f : B → list C) (g : A → B) l :
  flat_map f (g <$> l) = flat_map (fun x => f (g x)) l.
Proof.
  induction l as [|x l IH]; [done|].
  rewrite fmap_cons. cbn [flat_map]. by rewrite IH.
Qed.

Lemma flat_map_flat_map {A B C : Type} (f : B → list C) (g : A → list B) l :
  flat_map f (flat_map g l) = flat_map (fun x => flat_map f (g x)) l.
Proof.
  induction l as [|x l IH]; simpl; [done|].
  by rewrite flat_map_app, IH.
Qed.

Lemma slice_from_tail c (s : jstr) : slice_from (c :: s) 1 = s.
Proof.
  unfold slice_from, slice, slice_index.
  assert (Z.of_nat (length (c :: s)) = Z.of_nat (length s) + 1) as Hlen
    by (rewrite length_cons; lia).
  remember (Z.of_nat (length (c :: s))) as len eqn:E. clear E.
  destruct (Z.ltb_spec 1 0); [lia|].
  destruct (Z.ltb_spec len 0); [lia|].
  rewrite (Z.min_l 1) by lia. rewrite Z.min_id.
  change (Z.to_nat 1) with 1%nat. cbn [drop].
  apply take_ge. lia.
Qed.

Lemma column_of_coordinate col row :
  -65 <= col < 65471 → column_of (coordinate col row) = Some col.
Proof.
  intros Hcol. unfold column_of, coordinate, fromCharCode. simpl.
  rewrite Z.mod_small by lia. f_equal. lia.
Qed.

Lemma row_of_coordinate col row : row_of (coordinate col row) = Some (row - 1).
Proof.
  unfold row_of, coordinate, fromCharCode.
  change ([?c] ++ ?s) with (c :: s).
  by rewrite slice_from_tail, parseInt_Z_toString.
Qed.

Lemma cellRef_at_coordinate col row :
  cellRef_at col row = coordinate col (row + 1).
Proof. unfold cellRef_at, coordinate. do 2 f_equal. lia. Qed.

Lemma get_property_own {A : Type} (o : gmap jstr A) k a :
  o !! k = Some a → get_property o k = Own a.
Proof. intros H. unfold get_property. by rewrite H. Qed.

Lemma startsWith_app (p s : jstr) : startsWith (p ++ s) p = true.
Proof.
  induction p as [|c p IH]; simpl; [done|]. by rewrite N.eqb_refl.
Qed.

Lemma table_identifier_not_inherited name :
  table_identifier name → name ∉ object_prototype_names.
Proof.
  intros (digits & _ & ->) Hin.
  assert (Forall (fun p => startsWith p (lit "table") = false)
            object_prototype_names) as Hall.
  { unfold object_prototype_names. repeat constructor. }
  rewrite Forall_forall in Hall. apply Hall in Hin.
  by rewrite startsWith_app in Hin.
Qed.

Section Range.

Context {L : Libraries}.

Lemma getRange_own (td : table_index) name cells startCell endCell :
  td !! name = Some cells →
  getRange name startCell endCell td
  = Ok (for_upto (column_of startCell) (column_of endCell)
          (fun col =>
             for_upto (row_of startCell) (row_of endCell)
               (fun row values =>
                  values ++ numeric_cell cells (col, row + 1)))
          []).
Proof.
  intros Hname. unfold getRange. rewrite (get_property_own _ _ _ Hname).
  f_equal. unfold for_upto.
  destruct (column_of startCell) as [sc|], (column_of endCell) as [ec|];
    try done.
  destruct (row_of startCell) as [sr|], (row_of endCell) as [er|]; try done.
  apply for_iter_ext. intros col acc.
  apply for_iter_ext. intros row values.
  unfold numeric_cell, get_property. simpl.
  rewrite cellRef_at_coordinate.
  destruct (cells !! coordinate col (row + 1)) as [v|]; simpl.
  - destruct (isNaN (Number v)); simpl; [by rewrite app_nil_r|done].
  - rewrite app_nil_r. by case_bool_decide.
Qed.

(** C2. For a table of the index and two boundary coordinates (a column
    letter A..Z and a 1-based row number each), [getRange] returns the
    values of the cells of the rectangle in column-major order: the
    columns from the start column to the end column and, within each
    column, the rows from the start row to the end row; a cell
    contributes [Number] of its text when that is not [NaN], and nothing
    when it is missing or not numeric.  On [table1] with A1=1, A2=2,
    B1=3, B2=4 the range A1:B2 is the numbers of 1, 2, 3, 4 in this
    order. *)
Theorem getRange_column_major :
  (∀ (td : table_index) name cells c1 r1 c2 r2,
     td !! name = Some cells →
     well_formed_coordinate c1 r1 → well_formed_coordinate c2 r2 →
     getRange name (coordinate c1 r1) (coordinate c2 r2) td
     = Ok (flat_map (numeric_cell cells) (rectangle c1 r1 c2 r2))) ∧
  rectangle 0 1 1 2 = [(0, 1); (0, 2); (1, 1); (1, 2)] ∧
  (Forall (fun text => isNaN (Number text) = false)
     [lit "1"; lit "2"; lit "3"; lit "4"] →
   getRange (lit "table1") (lit "A1") (lit "B2")
     {[ lit "table1" :=
          list_to_map [(lit "A1", lit "1"); (lit "A2", lit "2");
                       (lit "B1", lit "3"); (lit "B2", lit "4")] ]}
   = Ok [Number (lit "1"); Number (lit "2"); Number (lit "3");
         Number (lit "4")]).
Proof.
  assert (∀ (td : table_index) name cells c1 r1 c2 r2,
     td !! name = Some cells →
     -65 <= c1 < 65471 → -65 <= c2 < 65471 →
     getRange name (coordinate c1 r1) (coordinate c2 r2) td
     = Ok (flat_map (numeric_cell cells) (rectangle c1 r1 c2 r2))) as Hgen.
  { intros td name cells c1 r1 c2 r2 Hname Hc1 Hc2.
    rewrite (getRange_own _ _ cells) by done.
    rewrite !column_of_coordinate, !row_of_coordinate by lia.
    unfold for_upto, rectangle. f_equal.
    rewrite (for_iter_append
               (fun col => flat_map (numeric_cell cells)
                             (map (fun row => (col, row))
                                (seqZ r1 (r2 - r1 + 1))))).
    - simpl. by rewrite flat_map_flat_map, seqZ_of_to_nat.
    - intros col acc.
      rewrite (for_iter_append (fun row => numeric_cell cells (col, row + 1)))
        by done.
      f_equal.
      replace (r2 - 1 - (r1 - 1) + 1) with (r2 - r1 + 1) by lia.
      rewrite seqZ_of_to_nat.
      replace (seqZ r1 (r2 - r1 + 1))
        with (Z.add 1 <$> seqZ (r1 - 1) (r2 - r1 + 1))
        by (rewrite fmap_add_seqZ; f_equal; lia).
      change (map ?f (?g <$> ?l)) with (f <$> (g <$> l)).
      rewrite <- list_fmap_compose, flat_map_fmap.
      apply flat_map_ext. intros row. simpl. do 2 f_equal. lia. }
  split; [|split].
  - intros td name cells c1 r1 c2 r2 Hname [Hc1 _] [Hc2 _].
    apply Hgen; [done|lia..].
  - done.
  - intros Hnum.
    rewrite !Forall_cons in Hnum. destruct Hnum as (H1 & H2 & H3 & H4 & _).
    set (cells := list_to_map _).
    assert (cells !! lit "A1" = Some (lit "1")) as HA1 by reflexivity.
    assert (cells !! lit "A2" = Some (lit "2")) as HA2 by reflexivity.
    assert (cells !! lit "B1" = Some (lit "3")) as HB1 by reflexivity.
    assert (cells !! lit "B2" = Some (lit "4")) as HB2 by reflexivity.
    clearbody cells.
    change (lit "A1") with (coordinate 0 1) in *.
    change (lit "A2") with (coordinate 0 2) in *.
    change (lit "B1") with (coordinate 1 1) in *.
    change (lit "B2") with (coordinate 1 2) in *.
    erewrite Hgen; [|apply lookup_singleton_eq|lia..].
    change (rectangle 0 1 1 2) with [(0, 1); (0, 2); (1, 1); (1, 2)].
    cbn [flat_map]. unfold numeric_cell. cbn [fst snd].
    rewrite HA1, HA2, HB1, HB2.
    by rewrite H1, H2, H3, H4.
Qed.

(** C10. On a table of the index, a range whose end column is before
    its start column, or whose end row is before its start row, is
    empty: [getRange] returns the empty sequence, it neither reorders
    the bounds nor throws.  [table1[B2:A1]] is such a range.  (The
    columns and rows are the numbers [getRange] computes from its two
    arguments; rows are compared as integers, which is what the doubles
    of the code do below 2^53.) *)
Theorem getRange_reversed_empty :
  (∀ (td : table_index) name cells startCell endCell,
     td !! name = Some cells →
     jsint_lt (column_of endCell) (column_of startCell) = true ∨
     (jsint_lt (row_of endCell) (row_of startCell) = true ∧
      safe_integer (parseInt (slice_from startCell 1)) ∧
      safe_integer (parseInt (slice_from endCell 1))) →
     getRange name startCell endCell td = Ok []) ∧
  (∀ (td : table_index) cells,
     td !! lit "table1" = Some cells →
     getRange (lit "table1") (lit "B2") (lit "A1") td = Ok []).
Proof.
  assert (∀ (td : table_index) name cells startCell endCell,
     td !! name = Some cells →
     jsint_lt (column_of endCell) (column_of startCell) = true ∨
     jsint_lt (row_of endCell) (row_of startCell) = true →
     getRange name startCell endCell td = Ok []) as Hgen.
  { intros td name cells startCell endCell Hname Hrev.
    rewrite (getRange_own _ _ cells) by done. f_equal.
    unfold for_upto, jsint_lt in *.
    destruct (column_of startCell) as [sc|], (column_of endCell) as [ec|];
      try done.
    destruct Hrev as [Hcol|Hrow].
    - apply Z.ltb_lt in Hcol.
      by replace (Z.to_nat (ec - sc + 1)) with 0%nat by lia.
    - destruct (row_of startCell) as [sr|], (row_of endCell) as [er|];
        try done.
      apply Z.ltb_lt in Hrow.
      replace (Z.to_nat (er - sr + 1)) with 0%nat by lia.
      by apply for_iter_skip. }
  split.
  - intros td name cells startCell endCell Hname [Hcol|(Hrow & _ & _)];
      eapply Hgen; eauto.
  - intros td cells Hname. eapply Hgen; [done|]. by left.
Qed.

(** The lookup of a table that the index does not have. *)
Lemma getRange_missing_table (td : table_index) name startCell endCell :
  table_identifier name → td !! name = None →
  getRange name startCell endCell td
  = Throw (JsError (lit "Table " ++ dquote ++ name ++ dquote ++
                    lit " not found.")).
Proof.
  intros Hid Hname. unfold getRange, get_property. rewrite Hname.
  rewrite bool_decide_eq_false_2; [done|].
  by apply table_identifier_not_inherited.
Qed.

End Range.

(** ** The evaluator and its cache *)

Lemma evaluator_calls_app l1 l2 :
  evaluator_calls (l1 ++ l2) = (evaluator_calls l1 + evaluator_calls l2)%nat.
Proof. unfold evaluator_calls. by rewrite filter_app, length_app. Qed.

Section Evaluator.

Context {L : Libraries}.

(** The [try] block makes one evaluator call; it stores the rendering
    when there is one and stores nothing when something was thrown. *)
Lemma evaluate_uncached_eq expression tableData st :
  evaluate_uncached expression tableData st
  = match fresh_rendering expression tableData with
    | Ok r =>
        (Ok r, cache_set expression r (log (evaluator_call expression) st))
    | Throw e => (Throw e, log (evaluator_call expression) st)
    end.
Proof.
  unfold evaluate_uncached, fresh_rendering, evaluator_call, latex_delimited,
    latex_source, rounded, call_katex, call_math, bind, lift, exec, ret.
  destruct (startsWith expression (lit "$$") && endsWith expression (lit "$$")).
  - by destruct (katex_renderToString _ _).
  - destruct (includes expression (lit "table")).
    + rewrite bool_decide_eq_true_2 by eauto.
      destruct (math_evaluate _ _) as [v|]; [|done].
      destruct (typeof_number v).
      * destruct (math_round v 3) as [r|]; [|done].
        by destruct (toString r).
      * by destruct (toString v).
    + rewrite bool_decide_eq_false_2 by (by intros [? ?]).
      destruct (math_evaluate _ _) as [v|]; [|done].
      destruct (math_round v 3) as [r|]; [|done].
      by destruct (toString r).
Qed.

Lemma evaluate_placeholder_eq tableData expression st :
  evaluate_placeholder tableData expression st
  = match expressionCache st !! expression with
    | Some cached => (cached, st)
    | None =>
        match fresh_rendering expression tableData with
        | Ok r =>
            (r, cache_set expression r (log (evaluator_call expression) st))
        | Throw _ =>
            (error_marker expression,
             log (ConsoleError expression)
               (log (evaluator_call expression) st))
        end
    end.
Proof.
  unfold evaluate_placeholder, try_catch. rewrite evaluate_uncached_eq.
  destruct (expressionCache st !! expression); [done|].
  by destruct (fresh_rendering _ _).
Qed.

Lemma evaluator_call_is_evaluator expression :
  is_evaluator_call (evaluator_call expression) = true.
Proof.
  unfold evaluator_call. destruct (latex_delimited _); [done|].
  by destruct (includes _ _).
Qed.

Lemma evaluator_calls_log_call expression st :
  evaluator_calls (calls (log (evaluator_call expression) st))
  = S (evaluator_calls (calls st)).
Proof.
  simpl. rewrite evaluator_calls_app. unfold evaluator_calls at 2.
  rewrite filter_cons_True by apply evaluator_call_is_evaluator.
  simpl. lia.
Qed.

(** Entries are only ever added. *)
Lemma evaluate_placeholder_keeps tableData expression st (k v : jstr) :
  expressionCache st !! k = Some v →
  expressionCache (evaluate_placeholder tableData expression st).2 !! k = Some v.
Proof.
  intros Hk. rewrite evaluate_placeholder_eq.
  destruct (expressionCache st !! expression) as [r|] eqn:He; [done|].
  destruct (fresh_rendering _ _); simpl; [|done].
  rewrite lookup_insert_ne; [done|]. congruence.
Qed.

Lemma replace_segments_keeps tableData segs : ∀ st (k v : jstr),
  expressionCache st !! k = Some v →
  expressionCache
    (replace_segments (evaluate_placeholder tableData) segs st).2 !! k
  = Some v.
Proof.
  induction segs as [|[t|e] segs IH]; intros st k v Hk; simpl; [done|..].
  - specialize (IH st k v Hk).
    by destruct (replace_segments _ segs st).
  - pose proof (evaluate_placeholder_keeps tableData e st k v Hk) as H1.
    destruct (evaluate_placeholder tableData e st) as [r st1].
    specialize (IH st1 k v H1).
    by destruct (replace_segments _ segs st1).
Qed.

Lemma run_cycles_keeps cycles : ∀ st (k v : jstr),
  expressionCache st !! k = Some v →
  expressionCache (run_cycles cycles st) !! k = Some v.
Proof.
  induction cycles as [|[content td] cycles IH]; intros st k v Hk; [done|].
  simpl. apply IH. by apply replace_segments_keeps.
Qed.

(** C3, as the code has it.  The callback first looks the exact text of
    the placeholder up in the cache and returns a stored rendering as it
    is, without calling an evaluator.  On a miss it calls an evaluator
    once.  If that succeeds, the rendering is stored under the text
    before it is returned, so that a second evaluation of the same text
    (with any table index) is answered from the cache and calls no
    evaluator, while a text that differs from it and was not cached is
    evaluated.  If something is thrown, the error marker is returned
    and nothing is stored. *)
Theorem cache_lookup_then_store :
  (∀ td e st r,
     expressionCache st !! e = Some r →
     evaluate_placeholder td e st = (r, st)) ∧
  (∀ td e st r st1,
     expressionCache st !! e = None →
     evaluate_uncached e td st = (Ok r, st1) →
     evaluate_placeholder td e st = (r, st1) ∧
     expressionCache st1 = <[e := r]> (expressionCache st) ∧
     evaluator_calls (calls st1) = S (evaluator_calls (calls st)) ∧
     (∀ td', evaluate_placeholder td' e st1 = (r, st1)) ∧
     (∀ td' e',
        e' ≠ e → expressionCache st !! e' = None →
        evaluator_calls (calls (evaluate_placeholder td' e' st1).2)
        = S (evaluator_calls (calls st1)))) ∧
  (∀ td e st err st1,
     expressionCache st !! e = None →
     evaluate_uncached e td st = (Throw err, st1) →
     evaluate_placeholder td e st
     = (error_marker e, log (ConsoleError e) st1) ∧
     expressionCache (evaluate_placeholder td e st).2 = expressionCache st ∧
     evaluator_calls (calls (evaluate_placeholder td e st).2)
     = S (evaluator_calls (calls st))).
Proof.
  split; [|split].
  - intros td e st r Hhit. unfold evaluate_placeholder. by rewrite Hhit.
  - intros td e st r st1 Hmiss Hbody.
    assert (evaluate_placeholder td e st = (r, st1)) as Heval.
    { unfold evaluate_placeholder, try_catch. by rewrite Hmiss, Hbody. }
    rewrite evaluate_uncached_eq in Hbody.
    destruct (fresh_rendering e td) as [r'|]; [|done].
    injection Hbody as -> <-.
    split; [done|]. split; [done|]. split.
    { apply evaluator_calls_log_call. }
    split.
    + intros td'. unfold evaluate_placeholder. simpl.
      by rewrite lookup_insert_eq.
    + intros td' e' Hne Hmiss'. rewrite evaluate_placeholder_eq. simpl.
      rewrite lookup_insert_ne by done. rewrite Hmiss'.
      destruct (fresh_rendering e' td'); simpl.
      * rewrite !evaluator_calls_app. simpl.
        unfold evaluator_calls at 3.
        rewrite filter_cons_True by apply evaluator_call_is_evaluator.
        simpl. lia.
      * rewrite !evaluator_calls_app. simpl.
        unfold evaluator_calls at 3 4.
        rewrite filter_cons_True by apply evaluator_call_is_evaluator.
        simpl. lia.
  - intros td e st err st1 Hmiss Hbody.
    assert (evaluate_placeholder td e st
            = (error_marker e, log (ConsoleError e) st1)) as Heval.
    { unfold evaluate_placeholder, try_catch. by rewrite Hmiss, Hbody. }
    rewrite Heval. split; [done|].
    rewrite evaluate_uncached_eq in Hbody.
    destruct (fresh_rendering e td) as [|err']; [done|].
    injection Hbody as -> <-. simpl. split; [done|].
    rewrite !evaluator_calls_app. simpl.
    unfold evaluator_calls at 2 3.
    rewrite filter_cons_True by apply evaluator_call_is_evaluator.
    simpl. lia.
Qed.

(** C9. A placeholder that mentions [table] and whose rendering is in
    the cache, as it is after a successful evaluation of it, renders to
    that same string from then on: after any number of further
    evaluation cycles, with any table index, it is answered from the
    cache and no evaluator is called, so two runs that differ only in
    the contents of the tables give the same output. *)
Theorem cached_table_rendering_is_kept :
  (∀ td e st r st1,
     includes e (lit "table") = true →
     expressionCache st !! e = None →
     evaluate_uncached e td st = (Ok r, st1) →
     expressionCache st1 !! e = Some r) ∧
  (∀ e st r,
     includes e (lit "table") = true →
     expressionCache st !! e = Some r →
     ∀ cycles td1 td2,
       evaluate_placeholder td1 e (run_cycles cycles st)
       = (r, run_cycles cycles st) ∧
       (evaluate_placeholder td1 e (run_cycles cycles st)).1
       = (evaluate_placeholder td2 e (run_cycles cycles st)).1).
Proof.
  split.
  - intros td e st r st1 _ Hmiss Hbody.
    rewrite evaluate_uncached_eq in Hbody.
    destruct (fresh_rendering e td); [|done].
    injection Hbody as -> <-. apply lookup_insert_eq.
  - intros e st r _ Hhit cycles td1 td2.
    pose proof (run_cycles_keeps cycles st e r Hhit) as Hkept.
    unfold evaluate_placeholder. by rewrite Hkept.
Qed.

Lemma cache_sound_empty : cache_sound ∅.
Proof. intros e r H. by rewrite lookup_empty in H. Qed.

Lemma evaluate_placeholder_sound tableData expression st :
  cache_sound (expressionCache st) →
  cache_sound (expressionCache (evaluate_placeholder tableData expression st).2).
Proof.
  intros Hsound. rewrite evaluate_placeholder_eq.
  destruct (expressionCache st !! expression) eqn:Hc; [done|].
  destruct (fresh_rendering expression tableData) as [r|] eqn:Hr; [|done].
  simpl. intros e r' He Hlatex.
  destruct (decide (expression = e)) as [->|Hne].
  - rewrite lookup_insert_eq in He. injection He as <-.
    unfold fresh_rendering in Hr. by rewrite Hlatex in Hr.
  - rewrite lookup_insert_ne in He by done. by apply Hsound.
Qed.

(** C8. A placeholder whose text starts and ends with [$$] is a LaTeX
    placeholder whatever else it contains (the word [table] included):
    when it is not cached, the one evaluator call made for it is
    [katex.renderToString] on the text between the delimiters, trimmed,
    with [throwOnError: false], and mathjs is not called.  The callback
    always returns a string: the renderer's string, which is then
    cached, or, should the renderer throw all the same, the error
    marker.  A cached rendering of such a placeholder is the
    renderer's string too. *)
Theorem latex_placeholder_rendering :
  (∀ td e st,
     latex_delimited e = true →
     expressionCache st !! e = None →
     evaluate_placeholder td e st
     = match katex_renderToString (trim (slice e 2 (-2))) false with
       | Ok r =>
           (r, cache_set e r
                 (log (KatexRenderToString (trim (slice e 2 (-2))) false) st))
       | Throw _ =>
           (error_marker e,
            log (ConsoleError e)
              (log (KatexRenderToString (trim (slice e 2 (-2))) false) st))
       end) ∧
  (∀ td e st,
     latex_delimited e = true →
     cache_sound (expressionCache st) →
     (katex_renderToString (trim (slice e 2 (-2))) false
      = Ok (evaluate_placeholder td e st).1 ∨
      (∃ err, katex_renderToString (trim (slice e 2 (-2))) false = Throw err) ∧
      (evaluate_placeholder td e st).1 = error_marker e) ∧
     cache_sound (expressionCache (evaluate_placeholder td e st).2)).
Proof.
  split.
  - intros td e st Hlatex Hmiss. rewrite evaluate_placeholder_eq, Hmiss.
    unfold fresh_rendering, evaluator_call. by rewrite Hlatex.
  - intros td e st Hlatex Hsound. split.
    + rewrite evaluate_placeholder_eq.
      destruct (expressionCache st !! e) as [r|] eqn:Hc.
      * left. by apply Hsound.
      * unfold fresh_rendering. rewrite Hlatex. unfold latex_source.
        destruct (katex_renderToString _ _) as [r|err]; [by left|].
        right. eauto.
    + by apply evaluate_placeholder_sound.
Qed.

Lemma replace_segments_app callback segs1 segs2 st :
  replace_segments callback (segs1 ++ segs2) st
  = let (out1, st1) := replace_segments callback segs1 st in
    let (out2, st2) := replace_segments callback segs2 st1 in
    (out1 ++ out2, st2).
Proof.
  revert st. induction segs1 as [|[t|e] segs1 IH]; intros st; simpl.
  - by destruct (replace_segments callback segs2 st).
  - rewrite IH. destruct (replace_segments callback segs1 st) as [o1 st1].
    destruct (replace_segments callback segs2 st1). by rewrite app_assoc.
  - destruct (callback e st) as [v st0]. rewrite IH.
    destruct (replace_segments callback segs1 st0) as [o1 st1].
    destruct (replace_segments callback segs2 st1). by rewrite app_assoc.
Qed.

(** The rendering and the cache that result depend on the cache alone,
    not on the calls recorded. *)
Lemma evaluate_placeholder_cache_only tableData expression st st' :
  expressionCache st = expressionCache st' →
  (evaluate_placeholder tableData expression st).1
  = (evaluate_placeholder tableData expression st').1 ∧
  expressionCache (evaluate_placeholder tableData expression st).2
  = expressionCache (evaluate_placeholder tableData expression st').2.
Proof.
  intros Hc. rewrite !evaluate_placeholder_eq, <- Hc.
  destruct (expressionCache st !! expression); [done|].
  destruct (fresh_rendering _ _); simpl; by rewrite ?Hc.
Qed.

Lemma replace_segments_cache_only tableData segs : ∀ st st',
  expressionCache st = expressionCache st' →
  (replace_segments (evaluate_placeholder tableData) segs st).1
  = (replace_segments (evaluate_placeholder tableData) segs st').1 ∧
  expressionCache (replace_segments (evaluate_placeholder tableData) segs st).2
  = expressionCache (replace_segments (evaluate_placeholder tableData) segs st').2.
Proof.
  induction segs as [|[t|e] segs IH]; intros st st' Hc; simpl; [done|..].
  - destruct (IH st st' Hc) as [H1 H2].
    destruct (replace_segments _ segs st), (replace_segments _ segs st').
    simpl in *. by subst.
  - destruct (evaluate_placeholder_cache_only tableData e st st' Hc)
      as [H1 H2].
    destruct (evaluate_placeholder tableData e st) as [v st1],
      (evaluate_placeholder tableData e st') as [v' st1'].
    simpl in *. subst v'.
    destruct (IH st1 st1' H2) as [H3 H4].
    destruct (replace_segments _ segs st1), (replace_segments _ segs st1').
    simpl in *. by subst.
Qed.

(** C4, as the code has it.  [getRange] throws [Error('Table "<id>"
    not found.')] for a table identifier that the index does not have.
    For a placeholder that is not cached, is not LaTeX and mentions
    [table], when mathjs hands on what [getRange] throws for the
    reference, the error is caught in the callback: the rendering is
    the error marker around the source text, nothing is cached and
    nothing is thrown further.  The placeholders before and after a
    failing one render as they do without it, and leave the same
    cache.  [table9[A1:B2]] is rewritten to the call
    [getRange("table9", "A1", "B2")]. *)
Theorem missing_table_is_marked :
  (∀ (td : table_index) name startCell endCell,
     table_identifier name → td !! name = None →
     getRange name startCell endCell td
     = Throw (JsError (lit "Table " ++ dquote ++ name ++ dquote ++
                       lit " not found."))) ∧
  (∀ (td : table_index) e st name startCell endCell,
     table_identifier name → td !! name = None →
     expressionCache st !! e = None →
     latex_delimited e = false →
     includes e (lit "table") = true →
     (∀ (g : range_function num) err,
        g name startCell endCell = Throw err →
        math_evaluate (processTableExpression e) (Some g) = Throw err) →
     evaluate_uncached e td st
     = (Throw (JsError (lit "Table " ++ dquote ++ name ++ dquote ++
                        lit " not found.")),
        log (MathEvaluate (processTableExpression e) true) st) ∧
     evaluate_placeholder td e st
     = (error_marker e,
        log (ConsoleError e)
          (log (MathEvaluate (processTableExpression e) true) st))) ∧
  (∀ td segs1 e segs2 st err,
     let callback := evaluate_placeholder td in
     let before := replace_segments callback segs1 st in
     let after := replace_segments callback segs2 before.2 in
     let all := replace_segments callback (segs1 ++ Placeholder e :: segs2) st in
     expressionCache before.2 !! e = None →
     (evaluate_uncached e td before.2).1 = Throw err →
     all.1 = before.1 ++ error_marker e ++ after.1 ∧
     expressionCache all.2 = expressionCache after.2 ∧
     replace_segments callback (segs1 ++ segs2) st
     = (before.1 ++ after.1, after.2)) ∧
  processTableExpression (lit "table9[A1:B2]")
  = lit "getRange(" ++ dquote ++ lit "table9" ++ dquote ++ lit ", " ++
    dquote ++ lit "A1" ++ dquote ++ lit ", " ++
    dquote ++ lit "B2" ++ dquote ++ lit ")".
Proof.
  split; [|split; [|split]].
  - intros. by apply getRange_missing_table.
  - intros td e st name startCell endCell Hid Habsent Hmiss Hlatex Htable Hlib.
    assert (fresh_rendering e td
            = Throw (JsError (lit "Table " ++ dquote ++ name ++ dquote ++
                              lit " not found."))) as Hfresh.
    { unfold fresh_rendering. rewrite Hlatex, Htable.
      erewrite Hlib; [done|]. by apply getRange_missing_table. }
    assert (evaluator_call e = MathEvaluate (processTableExpression e) true)
      as Hcall.
    { unfold evaluator_call. by rewrite Hlatex, Htable. }
    split.
    + by rewrite evaluate_uncached_eq, Hfresh, Hcall.
    + by rewrite evaluate_placeholder_eq, Hmiss, Hfresh, Hcall.
  - intros td segs1 e segs2 st err callback before after all Hmiss Hfail.
    subst all after. rewrite !replace_segments_app. fold before.
    destruct before as [out1 st1]. simpl in *.
    rewrite evaluate_uncached_eq in Hfail.
    subst callback. rewrite (evaluate_placeholder_eq td e st1), Hmiss.
    destruct (fresh_rendering e td); [done|].
    set (st1' := log (ConsoleError e) (log (evaluator_call e) st1)).
    destruct (replace_segments_cache_only td segs2 st1' st1) as [H1 H2];
      [done|].
    destruct (replace_segments _ segs2 st1') as [out2' st2'].
    destruct (replace_segments _ segs2 st1) as [out2 st2].
    simpl in *. by subst.
  - reflexivity.
Qed.

End Evaluator.

(** ** The scanner *)

Lemma scan_go_source s : ∀ text expr,
  concat (map segment_source (scan_go s text expr))
  = rev text ++
    match expr with Some e => lbrace :: rev e | None => [] end ++ s.
Proof.
  induction s as [|c s IH]; intros text expr.
  - destruct expr as [e|]; simpl; by rewrite !app_nil_r.
  - destruct expr as [[|d e]|]; cbn [scan_go].
    + destruct (N.eqb_spec c rbrace) as [->|_]; rewrite IH; simpl.
      * rewrite <- !app_assoc. done.
      * done.
    + destruct (N.eqb_spec c rbrace) as [->|_].
      * cbn [map concat segment_source]. rewrite IH. simpl.
        rewrite <- !app_assoc. done.
      * rewrite IH. simpl. rewrite <- !app_assoc. done.
    + destruct (N.eqb_spec c lbrace) as [->|_]; rewrite IH; simpl.
      * done.
      * rewrite <- !app_assoc. done.
Qed.

(** The segments of a snapshot, put back together, are the snapshot. *)
Lemma scan_source content :
  concat (map segment_source (scan content)) = content.
Proof. unfold scan. by rewrite scan_go_source. Qed.

Lemma scan_go_placeholders s : ∀ text expr,
  (∀ e, expr = Some e → rbrace ∉ e) →
  Forall (fun e => e ≠ [] ∧ rbrace ∉ e) (placeholders (scan_go s text expr)).
Proof.
  induction s as [|c s IH]; intros text expr Hexpr.
  - destruct expr; constructor.
  - destruct expr as [[|d e]|]; cbn [scan_go].
    + destruct (N.eqb_spec c rbrace) as [->|Hc].
      * by apply IH.
      * apply IH. intros e' [= <-]. apply not_elem_of_cons.
        split; [congruence|apply not_elem_of_nil].
    + destruct (N.eqb_spec c rbrace) as [->|Hc].
      * cbn [placeholders omap]. constructor.
        -- split.
           ++ intros Hnil. apply (f_equal (@length N)) in Hnil.
              rewrite length_rev in Hnil. done.
           ++ rewrite list_elem_of_In, <- in_rev, <- list_elem_of_In.
              by apply Hexpr.
        -- by apply IH.
      * apply IH. intros e' [= <-]. apply not_elem_of_cons.
        split; [congruence|]. by apply Hexpr.
    + destruct (N.eqb c lbrace); apply IH; try done.
      intros e' [= <-]. apply not_elem_of_nil.
Qed.

(** X3. The scanner partitions the snapshot: its segments, each
    placeholder put back between its braces, are the snapshot when
    concatenated; and a placeholder is never empty and has no closing
    brace in it. *)
Theorem scan_partitions_snapshot content :
  concat (map segment_source (scan content)) = content ∧
  Forall (fun e => e ≠ [] ∧ rbrace ∉ e) (placeholders (scan content)).
Proof.
  split; [apply scan_source|]. by apply scan_go_placeholders.
Qed.

Lemma replace_segments_text callback segs st :
  placeholders segs = [] →
  replace_segments callback segs st = (concat (map segment_source segs), st).
Proof.
  induction segs as [|[t|e] segs IH]; intros Hnone; simpl; [done| |done].
  by rewrite IH.
Qed.

Lemma includes_char_false (s : jstr) c : includes s [c] = false → c ∉ s.
Proof.
  induction s as [|b s IH]; simpl; intros H Hin.
  - by apply elem_of_nil in Hin.
  - apply orb_false_iff in H as [H1 H2].
    apply elem_of_cons in Hin as [->|Hin]; [|by apply IH].
    by rewrite N.eqb_refl in H1.
Qed.

Lemma scan_go_no_rbrace s : ∀ text expr,
  rbrace ∉ s → placeholders (scan_go s text expr) = [].
Proof.
  induction s as [|c s IH]; intros text expr Hs.
  - by destruct expr.
  - apply not_elem_of_cons in Hs as [Hc Hs].
    destruct expr as [[|d e]|]; cbn [scan_go].
    + destruct (N.eqb_spec c rbrace); [done|]. by apply IH.
    + destruct (N.eqb_spec c rbrace); [done|]. by apply IH.
    + destruct (N.eqb c lbrace); by apply IH.
Qed.

Section Stability.

Context {L : Libraries}.

Lemma grown_refl (td : table_index) (c : gmap jstr jstr) :
  grown_by_evaluation td c c.
Proof. split; auto. Qed.

Lemma grown_step (td : table_index) (e : jstr) (st : env) (c : gmap jstr jstr) :
  grown_by_evaluation td c (expressionCache st) →
  grown_by_evaluation td c (expressionCache (evaluate_placeholder td e st).2).
Proof.
  intros [Hsub Hnew]. rewrite evaluate_placeholder_eq.
  destruct (expressionCache st !! e) as [r|] eqn:He; [done|].
  destruct (fresh_rendering e td) as [r|] eqn:Hr; [|done].
  simpl. split.
  - intros k v Hk. rewrite lookup_insert_ne; [by apply Hsub|].
    intros ->. apply Hsub in Hk. congruence.
  - intros k v. destruct (decide (e = k)) as [<-|Hne].
    + rewrite lookup_insert_eq. intros [= <-]. right. split; [|done].
      destruct (c !! e) as [w|] eqn:Hc; [|done].
      apply Hsub in Hc. congruence.
    + rewrite lookup_insert_ne by done. apply Hnew.
Qed.

Lemma grown_segments (td : table_index) (segs : list segment) :
  ∀ (st : env) (c : gmap jstr jstr),
  grown_by_evaluation td c (expressionCache st) →
  grown_by_evaluation td c
    (expressionCache (replace_segments (evaluate_placeholder td) segs st).2).
Proof.
  induction segs as [|[t|e] segs IH]; intros st c Hg; simpl; [done|..].
  - specialize (IH st c Hg). by destruct (replace_segments _ segs st).
  - pose proof (grown_step td e st c Hg) as Hg1.
    destruct (evaluate_placeholder td e st) as [v st1].
    specialize (IH st1 c Hg1). by destruct (replace_segments _ segs st1).
Qed.

Lemma grown_same_rendering td e st st' :
  grown_by_evaluation td (expressionCache st) (expressionCache st') →
  (evaluate_placeholder td e st).1 = (evaluate_placeholder td e st').1 ∧
  grown_by_evaluation td
    (expressionCache (evaluate_placeholder td e st).2)
    (expressionCache (evaluate_placeholder td e st').2).
Proof.
  intros [Hsub Hnew]. rewrite !evaluate_placeholder_eq.
  destruct (expressionCache st !! e) as [r|] eqn:He.
  - rewrite (Hsub _ _ He). by split.
  - destruct (expressionCache st' !! e) as [r'|] eqn:He'.
    + destruct (Hnew _ _ He') as [?|[_ Hr]]; [congruence|].
      rewrite Hr. simpl. split; [done|]. split.
      * intros k v. destruct (decide (e = k)) as [<-|Hne].
        -- rewrite lookup_insert_eq. congruence.
        -- rewrite lookup_insert_ne by done. apply Hsub.
      * intros k v Hk. destruct (decide (e = k)) as [<-|Hne].
        -- left. rewrite lookup_insert_eq. congruence.
        -- rewrite lookup_insert_ne by done. by apply Hnew.
    + destruct (fresh_rendering e td) as [r|] eqn:Hr; simpl; [|by split].
      split; [done|]. split.
      * intros k v. destruct (decide (e = k)) as [<-|Hne].
        -- by rewrite !lookup_insert_eq.
        -- rewrite !lookup_insert_ne by done. apply Hsub.
      * intros k v. destruct (decide (e = k)) as [<-|Hne].
        -- rewrite !lookup_insert_eq. by left.
        -- rewrite !lookup_insert_ne by done. apply Hnew.
Qed.

Lemma grown_same_output td segs : ∀ st st',
  grown_by_evaluation td (expressionCache st) (expressionCache st') →
  (replace_segments (evaluate_placeholder td) segs st).1
  = (replace_segments (evaluate_placeholder td) segs st').1.
Proof.
  induction segs as [|[t|e] segs IH]; intros st st' Hg; simpl; [done|..].
  - specialize (IH st st' Hg).
    destruct (replace_segments _ segs st), (replace_segments _ segs st').
    simpl in *. by subst.
  - destruct (grown_same_rendering td e st st' Hg) as [Hv Hg1].
    destruct (evaluate_placeholder td e st) as [v st1],
      (evaluate_placeholder td e st') as [v' st1'].
    simpl in *. subst v'. specialize (IH st1 st1' Hg1).
    destruct (replace_segments _ segs st1), (replace_segments _ segs st1').
    simpl in *. by subst.
Qed.

(** Evaluating a snapshot again, with the cache its evaluation left
    behind, gives the same text. *)
Lemma evaluateTableExpressions_again content td st st' :
  expressionCache st' = expressionCache (evaluateTableExpressions content td st).2 →
  (evaluateTableExpressions content td st').1
  = (evaluateTableExpressions content td st).1.
Proof.
  intros Hc. unfold evaluateTableExpressions in *. symmetry.
  apply grown_same_output. rewrite Hc.
  apply grown_segments, grown_refl.
Qed.

(** X5. Evaluating a snapshot twice in a row, with the same table index,
    gives the same text both times. *)
Lemma evaluation_is_repeatable content td st :
  (evaluateTableExpressions content td
     (evaluateTableExpressions content td st).2).1
  = (evaluateTableExpressions content td st).1.
Proof. by apply evaluateTableExpressions_again. Qed.

Lemma evaluate_placeholder_replacements td e st :
  content_replacements (calls (evaluate_placeholder td e st).2)
  = content_replacements (calls st).
Proof.
  rewrite evaluate_placeholder_eq. unfold content_replacements.
  destruct (expressionCache st !! e); [done|].
  unfold evaluator_call.
  destruct (fresh_rendering e td); simpl; rewrite ?filter_app;
    destruct (latex_delimited e); try destruct (includes e _);
    by rewrite ?app_nil_r.
Qed.

Lemma replace_segments_replacements td segs : ∀ st,
  content_replacements
    (calls (replace_segments (evaluate_placeholder td) segs st).2)
  = content_replacements (calls st).
Proof.
  induction segs as [|[t|e] segs IH]; intros st; simpl; [done|..].
  - specialize (IH st). by destruct (replace_segments _ segs st).
  - pose proof (evaluate_placeholder_replacements td e st) as H1.
    destruct (evaluate_placeholder td e st) as [v st1].
    specialize (IH st1). destruct (replace_segments _ segs st1).
    simpl in *. congruence.
Qed.

End Stability.

(** ** The content handler *)

Section Controller.

Context {L : Libraries} {E : EditorAPI}.

Lemma updateContent_eq v :
  updateContent v
  = let start := selection_from (editor v) in
    let end_ := selection_to (editor v) in
    let str := getHTML (editor v) in
    if includes str [rbrace] then
      if bool_decide (str = previousContent v) then v
      else if bool_decide ((candidate v).1 = previousContent v) then
        {| editor := setTextSelection start end_ (editor v);
           previousContent := previousContent v;
           world := log (SetTextSelection start end_) (candidate v).2 |}
      else
        {| editor :=
             setTextSelection start end_
               (setContent (candidate v).1 false true (editor v));
           previousContent := (candidate v).1;
           world :=
             log (SetTextSelection start end_)
               (log (SetContent (candidate v).1 false true) (candidate v).2) |}
    else v.
Proof.
  unfold updateContent, candidate, parseTables. cbn [fst snd].
  destruct (includes _ _); [|done].
  destruct (bool_decide (getHTML (editor v) = previousContent v)); [done|].
  cbn [negb].
  destruct (evaluateTableExpressions _ _ _) as [newContent w1]. cbn [fst snd].
  by destruct (bool_decide (newContent = previousContent v)).
Qed.

Lemma candidate_replacements v :
  content_replacements (calls (candidate v).2)
  = content_replacements (calls (world v)).
Proof.
  unfold candidate, evaluateTableExpressions.
  rewrite replace_segments_replacements. unfold content_replacements.
  simpl. rewrite filter_app. simpl. by rewrite app_nil_r.
Qed.

(** The calls of one cycle that replace the content. *)
Lemma updateContent_replacements v :
  content_replacements (calls (world (updateContent v)))
  = content_replacements (calls (world v)) ++
    (if bool_decide (replaces_content v)
     then [SetContent (candidate v).1 false true] else []).
Proof.
  rewrite updateContent_eq. unfold replaces_content. cbn zeta.
  destruct (includes (getHTML (editor v)) [rbrace]) eqn:Hbrace.
  2:{ rewrite bool_decide_eq_false_2 by (by intros [? _]).
      by rewrite app_nil_r. }
  case_bool_decide as Hsame.
  { rewrite bool_decide_eq_false_2 by (by intros (_ & ? & _)).
    by rewrite app_nil_r. }
  case_bool_decide as Hcand.
  - rewrite bool_decide_eq_false_2 by (by intros (_ & _ & ?)).
    simpl. unfold content_replacements at 1. rewrite filter_app. simpl.
    rewrite !app_nil_r. apply candidate_replacements.
  - rewrite bool_decide_eq_true_2 by done.
    simpl. unfold content_replacements at 1. rewrite !filter_app. simpl.
    rewrite app_nil_r. f_equal. apply candidate_replacements.
Qed.

(** C6. When the snapshot has no closing brace the cycle does nothing
    at all: the view is unchanged, so nothing was parsed, no evaluator
    was called, and neither the content nor the selection was set.
    Such a snapshot has no placeholder.  In general, the evaluation of
    a snapshot without placeholders is that snapshot, unchanged, with
    no call and no change to the cache, so that a cycle on it can only
    ever write back the text it has read. *)
Theorem no_closing_brace_no_op :
  (∀ v, includes (getHTML (editor v)) [rbrace] = false → updateContent v = v) ∧
  (∀ content,
     includes content [rbrace] = false → placeholders (scan content) = []) ∧
  (∀ content td st,
     placeholders (scan content) = [] →
     evaluateTableExpressions content td st = (content, st)) ∧
  (∀ v,
     placeholders (scan (getHTML (editor v))) = [] →
     content_replacements (calls (world (updateContent v)))
     = content_replacements (calls (world v)) ∨
     content_replacements (calls (world (updateContent v)))
     = content_replacements (calls (world v)) ++
       [SetContent (getHTML (editor v)) false true]).
Proof.
  assert (∀ content td st,
     placeholders (scan content) = [] →
     evaluateTableExpressions content td st = (content, st)) as Hplain.
  { intros content td st Hnone. unfold evaluateTableExpressions.
    rewrite replace_segments_text by done. by rewrite scan_source. }
  split; [|split; [|split]].
  - intros v Hbrace. unfold updateContent. by rewrite Hbrace.
  - intros content Hbrace. apply scan_go_no_rbrace.
    by apply includes_char_false.
  - done.
  - intros v Hnone. rewrite updateContent_replacements.
    case_bool_decide; [right|left; by rewrite app_nil_r].
    unfold candidate. by rewrite Hplain.
Qed.

(** X1. One handler, with the [previousContent] it holds.  A cycle on a
    snapshot that is this [previousContent] (an evaluated snapshot, no
    edit since) does nothing.  A cycle whose candidate is this
    [previousContent] replaces nothing: the editor only has its
    selection set and no [setContent] call is made.  And with an editor
    that gives back the content it was given, a cycle run again right
    after a cycle, with the [previousContent] that cycle has set,
    computes no different candidate: it makes no [setContent] call and
    leaves the content and [previousContent] as they are. *)
Theorem refresh_idempotent :
  (∀ v, getHTML (editor v) = previousContent v → updateContent v = v) ∧
  (∀ v,
     includes (getHTML (editor v)) [rbrace] = true →
     getHTML (editor v) ≠ previousContent v →
     (candidate v).1 = previousContent v →
     editor (updateContent v)
     = setTextSelection (selection_from (editor v)) (selection_to (editor v))
         (editor v) ∧
     previousContent (updateContent v) = previousContent v ∧
     content_replacements (calls (world (updateContent v)))
     = content_replacements (calls (world v))) ∧
  (keeps_content →
   ∀ v,
     content_replacements (calls (world (updateContent (updateContent v))))
     = content_replacements (calls (world (updateContent v))) ∧
     previousContent (updateContent (updateContent v))
     = previousContent (updateContent v) ∧
     getHTML (editor (updateContent (updateContent v)))
     = getHTML (editor (updateContent v))).
Proof.
  split; [|split].
  - intros v Hsame. rewrite updateContent_eq. cbn zeta.
    rewrite (bool_decide_eq_true_2 _ Hsame). by destruct (includes _ _).
  - intros v Hbrace Hedit Hcand. rewrite updateContent_replacements.
    rewrite (bool_decide_eq_false_2 (replaces_content v))
      by (by intros (_ & _ & ?)).
    rewrite app_nil_r. rewrite updateContent_eq. cbn zeta.
    rewrite Hbrace, (bool_decide_eq_false_2 _ Hedit),
      (bool_decide_eq_true_2 _ Hcand). done.
  - intros [Hset Hsel] v.
    assert (∀ u, updateContent u = u →
              content_replacements (calls (world (updateContent u)))
              = content_replacements (calls (world u)) ∧
              previousContent (updateContent u) = previousContent u ∧
              getHTML (editor (updateContent u)) = getHTML (editor u))
      as Hfix by (by intros u ->).
    rewrite (updateContent_eq v). cbn zeta.
    destruct (includes (getHTML (editor v)) [rbrace]) eqn:Hbrace.
    2:{ apply Hfix. rewrite updateContent_eq. cbn zeta. by rewrite Hbrace. }
    case_bool_decide as Hsame.
    { apply Hfix. rewrite updateContent_eq. cbn zeta.
      by rewrite Hbrace, (bool_decide_eq_true_2 _ Hsame). }
    case_bool_decide as Hcand.
    + (* the candidate was the last applied snapshot: it is again *)
      set (v1 := {| editor := _; previousContent := _; world := _ |}).
      assert (getHTML (editor v1) = getHTML (editor v)) as Hhtml
        by apply Hsel.
      assert ((candidate v1).1 = (candidate v).1) as Hagain.
      { unfold candidate. rewrite Hhtml.
        by apply evaluateTableExpressions_again. }
      assert (¬ replaces_content v1) as Hnot.
      { intros (_ & _ & Hc). apply Hc. by rewrite Hagain. }
      rewrite updateContent_replacements, (bool_decide_eq_false_2 _ Hnot).
      rewrite app_nil_r. split; [done|].
      rewrite (updateContent_eq v1). cbn zeta.
      rewrite Hhtml, Hbrace.
      rewrite (bool_decide_eq_false_2 (getHTML (editor v) = previousContent v1))
        by done.
      rewrite (bool_decide_eq_true_2 ((candidate v1).1 = previousContent v1))
        by (by rewrite Hagain).
      cbn [previousContent editor]. split; [done|]. by rewrite !Hsel.
    + (* the content was replaced: the next snapshot is the applied one *)
      apply Hfix. rewrite updateContent_eq. cbn zeta. cbn [editor previousContent].
      rewrite Hsel, Hset, (bool_decide_eq_true_2 _ eq_refl).
      destruct (includes (candidate v).1 [rbrace]); reflexivity.
Qed.

(** C7. A cycle that replaces the content reads the selection offsets
    before anything else and, after [setContent], calls
    [setTextSelection] with exactly these two offsets: the last two
    calls of the cycle are the replacement and the restoration, and the
    editor is the one obtained by them in this order.  The offsets are
    passed on as they were read, whatever the lengths of the old and
    the new content.  Only such a cycle calls [setContent]. *)
Theorem selection_restored :
  (∀ v,
     replaces_content v →
     editor (updateContent v)
     = setTextSelection (selection_from (editor v)) (selection_to (editor v))
         (setContent (candidate v).1 false true (editor v)) ∧
     calls (world (updateContent v))
     = calls (candidate v).2 ++
       [SetContent (candidate v).1 false true;
        SetTextSelection (selection_from (editor v)) (selection_to (editor v))] ∧
     previousContent (updateContent v) = (candidate v).1) ∧
  (∀ v,
     content_replacements (calls (world (updateContent v)))
     ≠ content_replacements (calls (world v)) →
     replaces_content v).
Proof.
  split.
  - intros v (Hbrace & Hedit & Hcand). rewrite updateContent_eq. cbn zeta.
    rewrite Hbrace, (bool_decide_eq_false_2 _ Hedit),
      (bool_decide_eq_false_2 _ Hcand).
    simpl. by rewrite <- app_assoc.
  - intros v Hchanged. rewrite updateContent_replacements in Hchanged.
    case_bool_decide; [done|]. by rewrite app_nil_r in Hchanged.
Qed.

End Controller.

(** ** The component and its handlers *)

Section Component.

Context {L : Libraries} {E : EditorAPI}.

Lemma run_handler_handlers captured (c : component) :
  handlers c `prefix_of` handlers (run_handler captured c).
Proof.
  unfold run_handler. cbn [handlers].
  destruct (negb (bool_decide (_ = state_previousContent c))).
  - by apply prefix_app_r.
  - done.
Qed.

(** X2. No handler is ever unregistered: the handlers registered before an
    [update] event are still registered after it, followed by those
    registered in between. *)
Lemma handlers_never_removed (c : component) :
  handlers c `prefix_of` handlers (update_event c).
Proof.
  unfold update_event. generalize (handlers c) at 2. intros l.
  revert c. induction l as [|captured l IH]; intros c; [done|].
  simpl. etrans; [apply (run_handler_handlers captured)|apply IH].
Qed.

(** X7. Without a closing brace in the snapshot an [update] event
    leaves the component as it is, however many handlers run. *)
Lemma update_event_without_closing_brace (c : component) :
  includes (getHTML (mounted_editor c)) [rbrace] = false →
  update_event c = c.
Proof.
  intros Hbrace. unfold update_event.
  assert (∀ captured, run_handler captured c = c) as Hrun.
  { intros captured. unfold run_handler, updateContent. cbn [editor].
    rewrite Hbrace. cbn [previousContent editor world].
    rewrite (bool_decide_eq_true_2 (captured = captured)) by done.
    cbn [negb].
    rewrite (bool_decide_eq_true_2 (state_previousContent c = _)) by done.
    by destruct c. }
  generalize (handlers c) at 1. intros l.
  induction l as [|captured l IH]; simpl; [done|]. by rewrite Hrun.
Qed.

(** A handler whose [previousContent] is not the current content writes
    that content back when it has a closing brace but no placeholder. *)
Lemma stale_handler_writes_back v :
  includes (getHTML (editor v)) [rbrace] = true →
  placeholders (scan (getHTML (editor v))) = [] →
  getHTML (editor v) ≠ previousContent v →
  (candidate v).1 = getHTML (editor v) ∧
  content_replacements (calls (world (updateContent v)))
  = content_replacements (calls (world v)) ++
    [SetContent (getHTML (editor v)) false true].
Proof.
  intros Hbrace Hnone Hstale.
  assert ((candidate v).1 = getHTML (editor v)) as Hcand.
  { unfold candidate, evaluateTableExpressions.
    rewrite replace_segments_text by done. simpl. apply scan_source. }
  split; [done|]. rewrite updateContent_replacements.
  rewrite bool_decide_eq_true_2; [by rewrite Hcand|].
  split; [done|]. split; [done|]. by rewrite Hcand.
Qed.

End Component.

(** ** More on the table index *)

Lemma forEach_index_table_is_Some tables :
  ∀ (i : nat) (td : table_index) (name : jstr),
  is_Some (forEach_from i index_table tables td !! name) ↔
  is_Some (td !! name) ∨
  ∃ j, (j < length tables)%nat ∧ name = tableName_of (i + j).
Proof.
  induction tables as [|t tables IH]; intros i td name; cbn [forEach_from].
  - split; [by left|]. intros [H|(j & Hj & _)]; [done|simpl in Hj; lia].
  - rewrite IH, index_table_insert, lookup_insert_is_Some. split.
    + intros [[Heq | [Hne H]] | (j & Hj & Hn)].
      * right. exists 0%nat. split; [simpl; lia|]. by rewrite Nat.add_0_r.
      * by left.
      * right. exists (S j). split; [simpl; lia|]. rewrite Hn. f_equal. lia.
    + intros [H | (j & Hj & Hn)].
      * destruct (decide (tableName_of i = name)); [by left; left|].
        by left; right.
      * destruct j as [|j].
        -- left. left. rewrite Hn. by rewrite Nat.add_0_r.
        -- right. exists j. split; [simpl in Hj; lia|]. rewrite Hn.
           f_equal. lia.
Qed.

Lemma index_tables_is_Some (doc : Document) (name : jstr) :
  is_Some (index_tables doc !! name) ↔
  ∃ i, (i < length (doc_tables doc))%nat ∧ name = tableName_of i.
Proof.
  unfold index_tables, forEach. rewrite forEach_index_table_is_Some.
  rewrite lookup_empty. split.
  - intros [[? [=]]|H]. exact H.
  - intros H. by right.
Qed.

Lemma forEach_index_table_size tables : ∀ (i : nat) (td : table_index),
  (∀ j, td !! tableName_of (i + j) = None) →
  size (forEach_from i index_table tables td) = (size td + length tables)%nat.
Proof.
  induction tables as [|t tables IH]; intros i td Hfresh; cbn [forEach_from].
  - simpl. lia.
  - rewrite IH, index_table_insert.
    + rewrite map_size_insert_None; [simpl; lia|].
      specialize (Hfresh 0%nat). by rewrite Nat.add_0_r in Hfresh.
    + intros j. rewrite index_table_insert, lookup_insert_ne.
      * specialize (Hfresh (S j)).
        by replace (i + S j)%nat with (S i + j)%nat in Hfresh by lia.
      * intros Heq. apply tableName_of_inj in Heq. lia.
Qed.

(** The table an entry of the index comes from. *)
Lemma index_tables_lookup_inv (doc : Document) (name : jstr)
    (cells : gmap jstr jstr) :
  index_tables doc !! name = Some cells →
  ∃ i table,
    doc_tables doc !! i = Some table ∧ name = tableName_of i ∧
    cells = table_cells table.
Proof.
  intros Hcells.
  destruct (proj1 (index_tables_is_Some doc name)) as (i & Hi & ->);
    [by eexists|].
  destruct (lookup_lt_is_Some_2 _ _ Hi) as [table Htable].
  exists i, table. split; [done|]. split; [done|].
  pose proof (index_tables_lookup (doc_tables doc) 0 ∅ i table Htable) as Hl.
  unfold index_tables, forEach in Hcells. simpl in Hl. congruence.
Qed.

(** *** Trimming *)

Lemma trimStart_idem s : trimStart (trimStart s) = trimStart s.
Proof.
  induction s as [|c s IH]; simpl; [done|].
  destruct (is_whitespace c) eqn:Hc; [done|]. simpl. by rewrite Hc.
Qed.

Lemma trimStart_snoc s c :
  is_whitespace c = false → trimStart (s ++ [c]) = trimStart s ++ [c].
Proof.
  intros Hc. induction s as [|d s IH]; simpl.
  - by rewrite Hc.
  - by destruct (is_whitespace d).
Qed.

Lemma trimStart_head s :
  trimStart s = [] ∨
  ∃ c s', trimStart s = c :: s' ∧ is_whitespace c = false.
Proof.
  induction s as [|c s IH]; simpl; [by left|].
  destruct (is_whitespace c) eqn:Hc; [done|]. right. by exists c, s.
Qed.

Lemma trimEnd_idem s : trimEnd (trimEnd s) = trimEnd s.
Proof. unfold trimEnd. by rewrite rev_involutive, trimStart_idem. Qed.

Lemma trimStart_trim s : trimStart (trim s) = trim s.
Proof.
  unfold trim. destruct (trimStart_head s) as [->|(c & s' & -> & Hc)]; [done|].
  unfold trimEnd. simpl. rewrite trimStart_snoc by done.
  rewrite rev_app_distr. simpl. by rewrite Hc.
Qed.

Lemma trim_idem s : trim (trim s) = trim s.
Proof.
  unfold trim at 1. rewrite trimStart_trim. unfold trim. apply trimEnd_idem.
Qed.

Lemma cell_text_trimmed cell : trim (cell_text cell) = cell_text cell.
Proof.
  unfold cell_text. destruct (textContent cell) as [t|]; [|done].
  destruct (trim t) as [|c t'] eqn:Ht; [done|]. rewrite <- Ht. apply trim_idem.
Qed.

(** *** The first digit of a printed number *)

Lemma le_digits_last fuel : ∀ n,
  (0 < n)%N → (n < 2 ^ N.of_nat fuel)%N →
  ∃ d, last (le_digits fuel n) = Some d ∧ (0 < d)%N.
Proof.
  induction fuel as [|fuel IH]; intros n Hpos Hn.
  - simpl in Hn. lia.
  - simpl le_digits. destruct (N.ltb_spec n 10) as [Hlt|Hge].
    + by exists n.
    + destruct (IH (n / 10)%N) as (d & Hd & Hd0).
      * apply N.div_str_pos. lia.
      * apply N.Div0.div_lt_upper_bound.
        rewrite Nat2N.inj_succ, N.pow_succ_r' in Hn. lia.
      * exists d. split; [|done].
        destruct (le_digits fuel (n / 10)) eqn:E; [done|].
        by rewrite last_cons, Hd.
Qed.

Lemma Z_toString_head z : 0 < z → head (Z_toString z) ≠ Some 48%N.
Proof.
  intros Hz. unfold Z_toString.
  destruct (Z.ltb_spec z 0) as [|_]; [lia|]. unfold N_toString.
  destruct (le_digits_last (S (N.to_nat (N.log2 (Z.to_N z)))) (Z.to_N z))
    as (d & Hd & Hd0); [lia|apply digits_fuel|].
  apply last_Some in Hd as [l' ->].
  rewrite rev_app_distr. simpl. unfold digit_code. intros [= H]. lia.
Qed.

Section IndexNames.

Context {L : Libraries}.

(** X8. The index has one entry for every table of the document and no
    other: its names are exactly [table1] to [table<n>] for the [n]
    tables the document query returns, whatever the tables contain. *)
Theorem parseTables_table_names :
  (∀ content name,
     is_Some ((parseTables content).2 !! name) ↔
     ∃ i, (i < length (doc_tables (parseFromString content)))%nat ∧
          name = tableName_of i) ∧
  (∀ content,
     size (parseTables content).2
     = length (doc_tables (parseFromString content))).
Proof.
  split.
  - intros content name. apply index_tables_is_Some.
  - intros content. unfold parseTables, index_tables, forEach. simpl.
    rewrite forEach_index_table_size; [by rewrite map_size_empty|].
    intros j. apply lookup_empty.
Qed.

(** X9. Every text the index holds is trimmed: trimming it again changes
    nothing, so it neither starts nor ends with white space (and a cell
    of white space only is held as the empty string). *)
Theorem indexed_text_is_trimmed content name cells k v :
  (parseTables content).2 !! name = Some cells →
  cells !! k = Some v →
  trim v = v.
Proof.
  intros Hcells Hk.
  apply index_tables_lookup_inv in Hcells as (i & table & _ & _ & ->).
  apply fold_insert_entry_elem in Hk as [Hin|Hk]; [|by rewrite lookup_empty in Hk].
  apply rows_entries_elem in Hin as (R & row & C & cell & _ & _ & _ & ->).
  apply cell_text_trimmed.
Qed.

(** X10. Table names are compared as texts: a reference whose number is
    written with a leading zero ([table01], and [table0]) names no table
    of the index, whatever the document is, and the range lookup throws
    the not-found error for it. *)
Theorem zero_padded_table_name_not_found content digits startCell endCell :
  numeral digits →
  head digits = Some 48%N →
  getRange (lit "table" ++ digits) startCell endCell (parseTables content).2
  = Throw (JsError (lit "Table " ++ dquote ++ (lit "table" ++ digits) ++
                    dquote ++ lit " not found.")).
Proof.
  intros Hnum Hhead. apply getRange_missing_table; [by exists digits|].
  apply eq_None_not_Some. intros Hsome.
  apply index_tables_is_Some in Hsome as (i & _ & Heq).
  unfold tableName_of in Heq. apply app_inv_head in Heq. subst digits.
  revert Hhead. apply Z_toString_head. lia.
Qed.

End IndexNames.

(** ** More on the range lookup *)

Lemma rectangle_elem c1 r1 c2 r2 col row :
  (col, row) ∈ rectangle c1 r1 c2 r2 ↔ c1 <= col <= c2 ∧ r1 <= row <= r2.
Proof.
  unfold rectangle. rewrite list_elem_of_In, in_flat_map. split.
  - intros (c & Hc & Hin). apply in_map_iff in Hin as (r & [= -> ->] & Hr).
    apply list_elem_of_In, elem_of_seqZ in Hc.
    apply list_elem_of_In, elem_of_seqZ in Hr. lia.
  - intros [Hc Hr]. exists col. split.
    + apply list_elem_of_In, elem_of_seqZ. lia.
    + apply in_map_iff. exists row. split; [done|].
      apply list_elem_of_In, elem_of_seqZ. lia.
Qed.

Lemma rectangle_columns c1 r1 c c2 r2 :
  c1 - 1 <= c <= c2 →
  rectangle c1 r1 c2 r2 = rectangle c1 r1 c r2 ++ rectangle (c + 1) r1 c2 r2.
Proof.
  intros Hc. unfold rectangle. rewrite <- flat_map_app. f_equal.
  replace (c2 - c1 + 1) with ((c - c1 + 1) + (c2 - (c + 1) + 1)) by lia.
  rewrite seqZ_app by lia. do 2 f_equal. lia.
Qed.

Lemma rectangle_rows c r1 r r2 :
  r1 - 1 <= r <= r2 →
  rectangle c r1 c r2 = rectangle c r1 c r ++ rectangle c (r + 1) c r2.
Proof.
  intros Hr. unfold rectangle.
  replace (c - c + 1) with 1 by lia.
  change (seqZ c 1) with [c]. cbn [flat_map]. rewrite !app_nil_r.
  rewrite <- map_app. f_equal.
  replace (r2 - r1 + 1) with ((r - r1 + 1) + (r2 - (r + 1) + 1)) by lia.
  rewrite seqZ_app by lia. do 2 f_equal. lia.
Qed.

Lemma flat_map_ext_elem {A B : Type} (f g : A → list B) (l : list A) :
  (∀ x, x ∈ l → f x = g x) → flat_map f l = flat_map g l.
Proof.
  induction l as [|x l IH]; intros Hext; simpl; [done|].
  rewrite Hext by apply list_elem_of_here.
  rewrite IH; [done|]. intros y Hy. apply Hext. by apply list_elem_of_further.
Qed.

Lemma coordinate_inj c r c' r' :
  -65 <= c < 65471 → -65 <= c' < 65471 →
  coordinate c r = coordinate c' r' → c = c' ∧ r = r'.
Proof.
  intros Hc Hc' Heq.
  pose proof (f_equal column_of Heq) as Hcol.
  pose proof (f_equal row_of Heq) as Hrow.
  rewrite !column_of_coordinate in Hcol by done.
  rewrite !row_of_coordinate in Hrow.
  injection Hcol as ->. injection Hrow as Hrow. split; [done|lia].
Qed.

(** *** Row numbers *)





Lemma is_upper_not_whitespace c : is_upper c = true → is_whitespace c = false.
Proof.
  unfold is_upper. intros H. apply andb_true_iff in H as [H1 H2].
  apply N.leb_le in H1, H2. unfold is_whitespace. cbn [existsb].
  repeat (rewrite (proj2 (N.eqb_neq c _)) by lia). done.
Qed.

Lemma parseInt_letter c rest : is_upper c = true → parseInt (c :: rest) = None.
Proof.
  intros Hc. unfold parseInt. cbn [trimStart].
  rewrite is_upper_not_whitespace by done.
  unfold is_upper in Hc. apply andb_true_iff in Hc as [H1 H2].
  apply N.leb_le in H1, H2.
  unfold strip_sign.
  rewrite (proj2 (N.eqb_neq c 45)), (proj2 (N.eqb_neq c 43)) by lia.
  assert (strip_hex_prefix (c :: rest) = (10%N, c :: rest)) as ->.
  { unfold strip_hex_prefix. destruct rest; [done|].
    by rewrite (proj2 (N.eqb_neq c 48)) by lia. }
  cbn [parse_digits]. unfold digit_value.
  destruct (N.leb_spec 48 c); [|lia].
  destruct (N.leb_spec c 57); [lia|]. cbn [andb].
  destruct (N.leb_spec 97 c); [lia|]. cbn [andb].
  destruct (N.leb_spec 65 c); [|lia].
  destruct (N.leb_spec c 90); [|lia]. cbn [andb].
  destruct (N.ltb_spec (c - 55) 10); [lia|done].
Qed.

Section RangeEdges.

Context {L : Libraries}.

Lemma getRange_rectangle (td : table_index) (name : jstr)
    (cells : gmap jstr jstr) (c1 r1 c2 r2 : Z) :
  td !! name = Some cells →
  -65 <= c1 < 65471 → -65 <= c2 < 65471 →
  getRange name (coordinate c1 r1) (coordinate c2 r2) td
  = Ok (flat_map (numeric_cell cells) (rectangle c1 r1 c2 r2)).
Proof.
  intros Hname Hc1 Hc2.
  rewrite (getRange_own _ _ cells) by done.
  rewrite !column_of_coordinate, !row_of_coordinate by lia.
  unfold for_upto, rectangle. f_equal.
  rewrite (for_iter_append
             (fun col => flat_map (numeric_cell cells)
                           (map (fun row => (col, row))
                              (seqZ r1 (r2 - r1 + 1))))).
  - simpl. by rewrite flat_map_flat_map, seqZ_of_to_nat.
  - intros col acc.
    rewrite (for_iter_append (fun row => numeric_cell cells (col, row + 1)))
      by done.
    f_equal.
    replace (r2 - 1 - (r1 - 1) + 1) with (r2 - r1 + 1) by lia.
    rewrite seqZ_of_to_nat.
    replace (seqZ r1 (r2 - r1 + 1))
      with (Z.add 1 <$> seqZ (r1 - 1) (r2 - r1 + 1))
      by (rewrite fmap_add_seqZ; f_equal; lia).
    change (map ?f (?g <$> ?l)) with (f <$> (g <$> l)).
    rewrite <- list_fmap_compose, flat_map_fmap.
    apply flat_map_ext. intros row. simpl. do 2 f_equal. lia.
Qed.


(** X11. A range is read column by column, so it is the range of its
    first columns followed by the range of the columns after them; and a
    range within one column is the range of its first rows followed by
    the range of the rows after them. *)
Theorem getRange_splits_by_column :
  (∀ (td : table_index) name cells c1 r1 c c2 r2,
     td !! name = Some cells →
     well_formed_coordinate c1 r1 → well_formed_coordinate c2 r2 →
     c1 <= c < c2 →
     ∃ first rest,
       getRange name (coordinate c1 r1) (coordinate c r2) td = Ok first ∧
       getRange name (coordinate (c + 1) r1) (coordinate c2 r2) td = Ok rest ∧
       getRange name (coordinate c1 r1) (coordinate c2 r2) td
       = Ok (first ++ rest)) ∧
  (∀ (td : table_index) name cells c r1 r r2,
     td !! name = Some cells →
     well_formed_coordinate c r1 → well_formed_coordinate c r2 →
     r1 <= r < r2 →
     ∃ first rest,
       getRange name (coordinate c r1) (coordinate c r) td = Ok first ∧
       getRange name (coordinate c (r + 1)) (coordinate c r2) td = Ok rest ∧
       getRange name (coordinate c r1) (coordinate c r2) td
       = Ok (first ++ rest)).
Proof.
  split.
  - intros td name cells c1 r1 c c2 r2 Hname [Hc1 _] [Hc2 _] Hc.
    eexists _, _. rewrite !(getRange_rectangle td name cells) by (done || lia).
    split; [done|]. split; [done|].
    by rewrite (rectangle_columns c1 r1 c c2 r2), flat_map_app by lia.
  - intros td name cells c r1 r r2 Hname [Hc _] _ Hr.
    eexists _, _. rewrite !(getRange_rectangle td name cells) by (done || lia).
    split; [done|]. split; [done|].
    by rewrite (rectangle_rows c r1 r r2), flat_map_app by lia.
Qed.

(** X12. A range reads the cells of its rectangle in its table and
    nothing else: writing a cell under a key that is no coordinate of the
    rectangle (a coordinate outside it in particular), or writing another
    table, does not change what the range returns. *)
Theorem getRange_reads_only_its_rectangle :
  (∀ (td : table_index) name cells (k v : jstr) c1 r1 c2 r2,
     td !! name = Some cells →
     well_formed_coordinate c1 r1 → well_formed_coordinate c2 r2 →
     (∀ col row, c1 <= col <= c2 → r1 <= row <= r2 → k ≠ coordinate col row) →
     getRange name (coordinate c1 r1) (coordinate c2 r2)
       (<[name := <[k := v]> cells]> td)
     = getRange name (coordinate c1 r1) (coordinate c2 r2) td) ∧
  (∀ (td : table_index) name cells (v : jstr) col row c1 r1 c2 r2,
     td !! name = Some cells →
     well_formed_coordinate c1 r1 → well_formed_coordinate c2 r2 →
     well_formed_coordinate col row →
     col < c1 ∨ c2 < col ∨ row < r1 ∨ r2 < row →
     getRange name (coordinate c1 r1) (coordinate c2 r2)
       (<[name := <[coordinate col row := v]> cells]> td)
     = getRange name (coordinate c1 r1) (coordinate c2 r2) td) ∧
  (∀ (td : table_index) (name other : jstr) (table : gmap jstr jstr)
     startCell endCell,
     other ≠ name →
     getRange name startCell endCell (<[other := table]> td)
     = getRange name startCell endCell td).
Proof.
  assert (∀ (td : table_index) name cells (k v : jstr) c1 r1 c2 r2,
     td !! name = Some cells →
     well_formed_coordinate c1 r1 → well_formed_coordinate c2 r2 →
     (∀ col row, c1 <= col <= c2 → r1 <= row <= r2 → k ≠ coordinate col row) →
     getRange name (coordinate c1 r1) (coordinate c2 r2)
       (<[name := <[k := v]> cells]> td)
     = getRange name (coordinate c1 r1) (coordinate c2 r2) td) as Hgen.
  { intros td name cells k v c1 r1 c2 r2 Hname [Hc1 _] [Hc2 _] Hout.
    rewrite (getRange_rectangle td name cells) by (done || lia).
    rewrite (getRange_rectangle _ name (<[k := v]> cells))
      by (by rewrite ?lookup_insert_eq || lia).
    f_equal. apply flat_map_ext_elem. intros [col row] Hin.
    apply rectangle_elem in Hin as [Hcol Hrow].
    unfold numeric_cell. cbn [fst snd].
    rewrite lookup_insert_ne; [done|]. by apply Hout. }
  split; [exact Hgen|]. split.
  - intros td name cells v col row c1 r1 c2 r2 Hname Hwf1 Hwf2 [Hcol _] Hout.
    apply Hgen; try done.
    intros col' row' Hcol' Hrow' Heq.
    destruct Hwf1 as [? _], Hwf2 as [? _].
    apply coordinate_inj in Heq as [-> ->]; lia.
  - intros td name other table startCell endCell Hne.
    unfold getRange, get_property at 1 3. by rewrite lookup_insert_ne.
Qed.

(** X13. A coordinate the lookup cannot read makes the range empty, it
    does not throw: with an empty coordinate the column is [NaN], with a
    coordinate that has no number after its first character the row is
    [NaN], and no turn of the loops is made.  So it is for a coordinate
    with two column letters, such as [AA1]. *)
Theorem getRange_malformed_coordinate :
  (∀ (td : table_index) name cells startCell endCell,
     td !! name = Some cells →
     column_of startCell = None ∨ column_of endCell = None ∨
     row_of startCell = None ∨ row_of endCell = None →
     getRange name startCell endCell td = Ok []) ∧
  column_of [] = None ∧
  (∀ c, row_of [c] = None) ∧
  (∀ c c' rest, is_upper c' = true → row_of (c :: c' :: rest) = None).
Proof.
  split; [|split; [done|split]].
  - intros td name cells startCell endCell Hname Hnan.
    rewrite (getRange_own _ _ cells) by done. f_equal. unfold for_upto.
    destruct (column_of startCell) as [sc|]; [|done].
    destruct (column_of endCell) as [ec|]; [|done].
    apply for_iter_skip. intros col values.
    destruct (row_of startCell) as [sr|]; [|done].
    destruct (row_of endCell) as [er|]; [|done].
    by destruct Hnan as [?|[?|[?|?]]].
  - intros c. unfold row_of. by rewrite slice_from_tail.
  - intros c c' rest Hc'. unfold row_of.
    by rewrite slice_from_tail, parseInt_letter.
Qed.



End RangeEdges.

(** ** The rewriting of range references *)

Lemma span_digits ds rest :
  Forall (fun c => is_digit c = true) ds →
  match rest with [] => True | c :: _ => is_digit c = false end →
  span is_digit (ds ++ rest) = (ds, rest).
Proof.
  intros Hds Hrest. induction Hds as [|d ds Hd _ IH]; simpl.
  - destruct rest as [|c rest]; [done|]. simpl. by rewrite Hrest.
  - by rewrite Hd, IH.
Qed.

Lemma match_digits_numeral ds c rest :
  numeral ds → is_digit c = false →
  match_digits (ds ++ c :: rest) = Some (ds, c :: rest).
Proof.
  intros [Hne Hds] Hc. unfold match_digits.
  rewrite span_digits by done. by destruct ds.
Qed.

Lemma match_cell_reference a c rest :
  cell_reference a → is_digit c = false →
  match_cell (a ++ c :: rest) = Some (a, c :: rest).
Proof.
  intros (l & ds & -> & Hl & Hds) Hc. simpl. rewrite Hl.
  by rewrite match_digits_numeral.
Qed.

Lemma match_prefix_app (p s : jstr) : match_prefix p (p ++ s) = Some s.
Proof.
  unfold match_prefix. rewrite startsWith_app.
  by rewrite drop_app_length.
Qed.

Lemma match_table_range_reference n a b post :
  numeral n → cell_reference a → cell_reference b →
  match_table_range (range_reference n a b ++ post)
  = Some (range_reference n a b, post).
Proof.
  intros Hn Ha Hb. unfold match_table_range, range_reference.
  rewrite <- !app_assoc. rewrite match_prefix_app. cbn [mbind option_bind].
  change ([91%N] ++ ?s) with (91%N :: s).
  rewrite match_digits_numeral by done. cbn [mbind option_bind match_char].
  rewrite N.eqb_refl. cbn [mbind option_bind].
  change ([58%N] ++ ?s) with (58%N :: s).
  rewrite match_cell_reference by done. cbn [mbind option_bind match_char].
  rewrite N.eqb_refl. cbn [mbind option_bind].
  change ([93%N] ++ ?s) with (93%N :: s).
  rewrite match_cell_reference by done. cbn [mbind option_bind match_char].
  by rewrite N.eqb_refl.
Qed.

(** *** [split] *)

Lemma split_go_app sep (l rest cur : jstr) :
  sep ∉ l → split_go sep (l ++ rest) cur = split_go sep rest (rev l ++ cur).
Proof.
  revert cur. induction l as [|c l IH]; intros cur Hsep; [done|].
  apply not_elem_of_cons in Hsep as [Hc Hl]. simpl.
  rewrite (proj2 (N.eqb_neq c sep)) by done.
  rewrite IH by done. by rewrite <- app_assoc.
Qed.

Lemma split_none sep (l : jstr) : sep ∉ l → split l sep = [l].
Proof.
  intros Hsep. unfold split.
  rewrite <- (app_nil_r l) at 1. rewrite split_go_app by done.
  simpl. by rewrite app_nil_r, rev_involutive.
Qed.

Lemma split_one sep (l1 l2 : jstr) :
  sep ∉ l1 → sep ∉ l2 → split (l1 ++ sep :: l2) sep = [l1; l2].
Proof.
  intros H1 H2. pose proof (split_none sep l2 H2) as Hs.
  unfold split in *. rewrite split_go_app by done. simpl.
  by rewrite N.eqb_refl, app_nil_r, rev_involutive, Hs.
Qed.

Lemma slice_drop_last (s : jstr) c : slice (s ++ [c]) 0 (-1) = s.
Proof.
  unfold slice, slice_index.
  assert (Z.of_nat (length (s ++ [c])) = Z.of_nat (length s) + 1) as ->
    by (rewrite length_app; simpl; lia).
  change (0 <? 0) with false. change (-1 <? 0) with true. cbv iota.
  rewrite Z.min_l by lia. rewrite Z.max_l by lia.
  change (Z.to_nat 0) with 0%nat. rewrite drop_0.
  replace (Z.to_nat (Z.of_nat (length s) + 1 + -1 - 0)) with (length s) by lia.
  by rewrite take_app_length.
Qed.

Lemma numeral_no_char ds c : numeral ds → is_digit c = false → c ∉ ds.
Proof.
  intros [_ Hds] Hc Hin. rewrite Forall_forall in Hds.
  apply Hds in Hin. congruence.
Qed.

Lemma cell_reference_no_char a c :
  cell_reference a → is_digit c = false → is_upper c = false → c ∉ a.
Proof.
  intros (l & ds & -> & Hl & Hds) Hd Hu Hin.
  apply elem_of_cons in Hin as [->|Hin]; [congruence|].
  by apply (numeral_no_char ds c).
Qed.

Lemma range_call_reference n a b :
  numeral n → cell_reference a → cell_reference b →
  range_call (range_reference n a b) = getRange_call (lit "table" ++ n) a b.
Proof.
  intros Hn Ha Hb. unfold range_call, range_reference.
  assert (split (lit "table" ++ n ++ [91%N] ++ a ++ [58%N] ++ b ++ [93%N]) 91
          = [lit "table" ++ n; a ++ [58%N] ++ b ++ [93%N]]) as ->.
  { rewrite (app_assoc (lit "table") n). apply split_one.
    - rewrite elem_of_app. intros [Hin|Hin].
      + exact (proj1 (bool_decide_eq_false (91%N ∈ lit "table")) eq_refl Hin).
      + revert Hin. by apply numeral_no_char.
    - rewrite !elem_of_app, !list_elem_of_singleton. intros [Hin|[?|[Hin|?]]];
        try done; revert Hin; by apply cell_reference_no_char. }
  cbn [element lookup list_lookup default from_option id].
  rewrite (app_assoc a), (app_assoc (a ++ [58%N]) b), slice_drop_last.
  rewrite <- (app_assoc a [58%N] b). change ([58%N] ++ b) with (58%N :: b).
  rewrite (split_one 58 a b)
    by (by apply cell_reference_no_char).
  reflexivity.
Qed.

(** *** The global replacement *)

Lemma replace_ranges_skip (l s : jstr) :
  replace_ranges (length l) (l ++ s) = replace_ranges 0 s.
Proof. induction l as [|c l IH]; [by destruct s|]. simpl. exact IH. Qed.

Lemma replace_ranges_match c s m post :
  match_table_range (c :: s) = Some (m, post) →
  c :: s = m ++ post →
  replace_ranges 0 (c :: s) = range_call m ++ replace_ranges 0 post.
Proof.
  intros Hmatch Heq. cbn [replace_ranges]. rewrite Hmatch.
  destruct m as [|c' m].
  - unfold match_table_range in Hmatch.
    destruct (match_prefix (lit "table") (c :: s)) as [r1|]; [|done].
    cbn [mbind option_bind] in Hmatch.
    destruct (match_digits r1) as [[n r2]|]; [|done].
    cbn [mbind option_bind] in Hmatch.
    destruct (match_char 91 r2) as [r3|]; [|done].
    cbn [mbind option_bind] in Hmatch.
    destruct (match_cell r3) as [[a r4]|]; [|done].
    cbn [mbind option_bind] in Hmatch.
    destruct (match_char 58 r4) as [r5|]; [|done].
    cbn [mbind option_bind] in Hmatch.
    destruct (match_cell r5) as [[b r6]|]; [|done].
    cbn [mbind option_bind] in Hmatch.
    destruct (match_char 93 r6) as [r7|]; [|done].
    cbn [mbind option_bind] in Hmatch. by injection Hmatch.
  - injection Heq as -> ->. simpl. rewrite Nat.sub_0_r.
    by rewrite replace_ranges_skip.
Qed.

Lemma match_table_range_startsWith s m post :
  match_table_range s = Some (m, post) → startsWith s (lit "table") = true.
Proof.
  unfold match_table_range, match_prefix.
  destruct (startsWith s (lit "table")); [done|]. by intros [=].
Qed.

(** No match begins in a text without [table], whatever follows it, as
    long as that begins with a [t]. *)
Lemma startsWith_table_straddle (p rest : jstr) :
  p ≠ [] →
  startsWith p (lit "table") = false →
  startsWith (p ++ 116%N :: rest) (lit "table") = false.
Proof.
  intros Hp Hstart.
  destruct p as [|c1 [|c2 [|c3 [|c4 [|c5 p]]]]]; [done|..];
    simpl in *; rewrite ?andb_false_r; done.
Qed.

Lemma replace_ranges_prefix (pre rest : jstr) :
  includes pre (lit "table") = false →
  replace_ranges 0 (pre ++ 116%N :: rest)
  = pre ++ replace_ranges 0 (116%N :: rest).
Proof.
  induction pre as [|c pre IH]; intros Hinc; [done|].
  cbn [includes] in Hinc. apply orb_false_iff in Hinc as [Hstart Hinc].
  change ((c :: pre) ++ 116%N :: rest) with (c :: (pre ++ 116%N :: rest)).
  cbn [replace_ranges].
  destruct (match_table_range (c :: pre ++ 116%N :: rest)) as [[m post]|] eqn:Hm.
  - apply match_table_range_startsWith in Hm.
    change (c :: pre ++ 116%N :: rest) with ((c :: pre) ++ 116%N :: rest) in Hm.
    by rewrite startsWith_table_straddle in Hm.
  - simpl. by rewrite IH.
Qed.

Lemma replace_ranges_without_table (e : jstr) :
  includes e (lit "table") = false → replace_ranges 0 e = e.
Proof.
  induction e as [|c e IH]; intros Hinc; [done|].
  cbn [includes] in Hinc. apply orb_false_iff in Hinc as [Hstart Hinc].
  cbn [replace_ranges].
  destruct (match_table_range (c :: e)) as [[m post]|] eqn:Hm.
  - apply match_table_range_startsWith in Hm. congruence.
  - by rewrite IH.
Qed.

(** X16. The rewriting of range references.  An expression without
    [table] is left as it is.  A reference [table<n>[<a>:<b>]], with
    [<n>] decimal digits and [<a>], [<b>] a letter A..Z followed by
    decimal digits each, is replaced by the call
    [getRange("table<n>", "<a>", "<b>")], the text before it (without
    [table]) is kept, and the rewriting goes on after it. *)
Theorem processTableExpression_rewrites_references :
  (∀ e, includes e (lit "table") = false → processTableExpression e = e) ∧
  (∀ pre n a b post,
     includes pre (lit "table") = false →
     numeral n → cell_reference a → cell_reference b →
     processTableExpression (pre ++ range_reference n a b ++ post)
     = pre ++ getRange_call (lit "table" ++ n) a b ++
       processTableExpression post).
Proof.
  split.
  - intros e. apply replace_ranges_without_table.
  - intros pre n a b post Hpre Hn Ha Hb. unfold processTableExpression.
    pose proof (match_table_range_reference n a b post Hn Ha Hb) as Hm.
    assert (∃ s, range_reference n a b ++ post = 116%N :: s) as [s Hs]
      by (by eexists).
    rewrite Hs in *. rewrite replace_ranges_prefix by done. f_equal.
    rewrite (replace_ranges_match _ _ _ _ Hm) by (by rewrite <- Hs).
    by rewrite range_call_reference.
Qed.

(** ** More on the evaluator *)

Lemma replace_segments_scan_text cb s : ∀ text expr st,
  replace_segments cb (scan_go s text expr) st
  = let (out, st') := replace_segments cb (scan_go s [] expr) st in
    (rev text ++ out, st').
Proof.
  induction s as [|c s IH]; intros text expr st.
  - destruct expr as [e|]; simpl; by rewrite ?app_nil_r, <- ?app_assoc.
  - destruct expr as [[|d e]|]; cbn [scan_go].
    + destruct (N.eqb c rbrace).
      * rewrite (IH (rbrace :: lbrace :: text) None),
          (IH [rbrace; lbrace] None).
        destruct (replace_segments cb (scan_go s [] None) st) as [out st'].
        simpl. by rewrite <- !app_assoc.
      * apply IH.
    + destruct (N.eqb c rbrace).
      * cbn [replace_segments].
        destruct (cb (rev (d :: e)) st) as [v st1].
        destruct (replace_segments cb (scan_go s [] None) st1) as [out st2].
        done.
      * apply IH.
    + destruct (N.eqb c lbrace).
      * apply IH.
      * rewrite (IH (c :: text) None), (IH [c] None).
        destruct (replace_segments cb (scan_go s [] None) st) as [out st'].
        simpl. by rewrite <- !app_assoc.
Qed.

Lemma scan_go_prefix pre : ∀ s text,
  lbrace ∉ pre → scan_go (pre ++ s) text None = scan_go s (rev pre ++ text) None.
Proof.
  induction pre as [|c pre IH]; intros s text Hpre; [done|].
  apply not_elem_of_cons in Hpre as [Hc Hpre]. simpl.
  rewrite (proj2 (N.eqb_neq c lbrace)) by done.
  rewrite IH by done. by rewrite <- app_assoc.
Qed.

Lemma replace_segments_scan_suffix cb post :
  rbrace ∉ post →
  ∀ s text expr st,
  replace_segments cb (scan_go (s ++ post) text expr) st
  = let (out, st') := replace_segments cb (scan_go s text expr) st in
    (out ++ post, st').
Proof.
  intros Hpost. induction s as [|c s IH]; intros text expr st.
  - rewrite app_nil_l.
    rewrite replace_segments_text by (by apply scan_go_no_rbrace).
    rewrite scan_go_source.
    destruct expr as [e|]; simpl; by rewrite ?app_nil_r, <- ?app_assoc.
  - change ((c :: s) ++ post) with (c :: (s ++ post)).
    destruct expr as [[|d e]|]; cbn [scan_go].
    + destruct (N.eqb c rbrace); apply IH.
    + destruct (N.eqb c rbrace); [|apply IH].
      cbn [replace_segments].
      destruct (cb (rev (d :: e)) st) as [v st1].
      rewrite IH.
      destruct (replace_segments cb (scan_go s [] None) st1) as [out st2].
      by rewrite <- !app_assoc.
    + destruct (N.eqb c lbrace); apply IH.
Qed.

Section EvaluatorInvariants.

Context {L : Libraries}.

Lemma evaluate_placeholder_new_entry td e st (k v : jstr) :
  expressionCache (evaluate_placeholder td e st).2 !! k = Some v →
  expressionCache st !! k = Some v ∨
  (expressionCache st !! k = None ∧ k = e ∧ fresh_rendering k td = Ok v).
Proof.
  rewrite evaluate_placeholder_eq.
  destruct (expressionCache st !! e) as [cached|] eqn:He; [by left|].
  destruct (fresh_rendering e td) as [r|err] eqn:Hr; simpl; [|by left].
  destruct (decide (k = e)) as [->|Hne].
  - rewrite lookup_insert_eq. intros [= <-]. by right.
  - rewrite lookup_insert_ne by done. by left.
Qed.

Lemma evaluate_placeholder_absent td e st (k : jstr) :
  expressionCache (evaluate_placeholder td e st).2 !! k = None →
  expressionCache st !! k = None.
Proof.
  intros H. destruct (expressionCache st !! k) as [v|] eqn:E; [|done].
  by rewrite (evaluate_placeholder_keeps td e st k v E) in H.
Qed.

Lemma replace_segments_new_entries td segs : ∀ st (k v : jstr),
  expressionCache (replace_segments (evaluate_placeholder td) segs st).2 !! k
  = Some v →
  expressionCache st !! k = Some v ∨
  (expressionCache st !! k = None ∧ k ∈ placeholders segs ∧
   fresh_rendering k td = Ok v).
Proof.
  induction segs as [|[t|e] segs IH]; intros st k v; cbn [replace_segments].
  - by left.
  - specialize (IH st k v).
    destruct (replace_segments (evaluate_placeholder td) segs st) as [out st'].
    exact IH.
  - pose proof (evaluate_placeholder_new_entry td e st k v) as Hnew.
    pose proof (evaluate_placeholder_absent td e st k) as Habsent.
    destruct (evaluate_placeholder td e st) as [v1 st1].
    specialize (IH st1 k v).
    destruct (replace_segments (evaluate_placeholder td) segs st1) as [out st2].
    cbn [snd] in *. intros H.
    destruct (IH H) as [Hk | (Hnone & Hin & Hfresh)].
    + destruct (Hnew Hk) as [?|(? & -> & ?)]; [by left|]. right.
      split; [done|]. split; [apply list_elem_of_here|done].
    + right. split; [by apply Habsent|].
      split; [by apply list_elem_of_further|done].
Qed.

Lemma evaluator_calls_snoc_error l e :
  evaluator_calls (l ++ [ConsoleError e]) = evaluator_calls l.
Proof.
  rewrite evaluator_calls_app.
  change (evaluator_calls [ConsoleError e]) with 0%nat. lia.
Qed.

Lemma evaluate_placeholder_calls td e st :
  calls st `prefix_of` calls (evaluate_placeholder td e st).2 ∧
  (evaluator_calls (calls (evaluate_placeholder td e st).2)
   ≤ S (evaluator_calls (calls st)))%nat.
Proof.
  rewrite evaluate_placeholder_eq.
  destruct (expressionCache st !! e) as [cached|]; [split; [done|simpl; lia]|].
  destruct (fresh_rendering e td) as [r|err]; cbn [snd].
  - split; [by apply prefix_app_r|].
    change (calls (cache_set e r ?s)) with (calls s).
    by rewrite evaluator_calls_log_call.
  - split.
    + cbn [log calls]. rewrite <- app_assoc. by apply prefix_app_r.
    + change (calls (log (ConsoleError e) ?s)) with (calls s ++ [ConsoleError e]).
      by rewrite evaluator_calls_snoc_error, evaluator_calls_log_call.
Qed.

Lemma replace_segments_calls td segs : ∀ st,
  calls st `prefix_of`
    calls (replace_segments (evaluate_placeholder td) segs st).2 ∧
  (evaluator_calls (calls (replace_segments (evaluate_placeholder td) segs st).2)
   ≤ evaluator_calls (calls st) + length (placeholders segs))%nat.
Proof.
  induction segs as [|[t|e] segs IH]; intros st; cbn [replace_segments].
  - split; [done|simpl; lia].
  - specialize (IH st).
    destruct (replace_segments (evaluate_placeholder td) segs st) as [out st'].
    exact IH.
  - pose proof (evaluate_placeholder_calls td e st) as [Hpre Hle].
    destruct (evaluate_placeholder td e st) as [v1 st1].
    specialize (IH st1).
    destruct (replace_segments (evaluate_placeholder td) segs st1) as [out st2].
    cbn [snd] in *. destruct IH as [Hpre' Hle']. split.
    + by etrans.
    + change (placeholders (Placeholder e :: segs)) with (e :: placeholders segs).
      simpl. lia.
Qed.

Lemma replace_segments_cached td segs : ∀ st,
  (∀ e, e ∈ placeholders segs → is_Some (expressionCache st !! e)) →
  (replace_segments (evaluate_placeholder td) segs st).2 = st.
Proof.
  induction segs as [|[t|e] segs IH]; intros st Hall; cbn [replace_segments].
  - done.
  - specialize (IH st Hall).
    destruct (replace_segments (evaluate_placeholder td) segs st) as [out st'].
    exact IH.
  - rewrite evaluate_placeholder_eq.
    destruct (Hall e) as [cached ->]; [apply list_elem_of_here|].
    assert (∀ e', e' ∈ placeholders segs → is_Some (expressionCache st !! e'))
      as Hrest by (intros e' He'; apply Hall; by apply list_elem_of_further).
    specialize (IH st Hrest).
    destruct (replace_segments (evaluate_placeholder td) segs st) as [out st'].
    exact IH.
Qed.

(** X17. What an evaluation does to the cache: the entries it finds are
    kept as they are, and an entry it adds is the rendering, by a fresh
    evaluation with the table index of the cycle, of a placeholder of
    the snapshot that was not cached. *)
Theorem cache_grows_by_placeholders content td st :
  (∀ k v,
     expressionCache st !! k = Some v →
     expressionCache (evaluateTableExpressions content td st).2 !! k = Some v) ∧
  (∀ k v,
     expressionCache (evaluateTableExpressions content td st).2 !! k = Some v →
     expressionCache st !! k = Some v ∨
     (expressionCache st !! k = None ∧ k ∈ placeholders (scan content) ∧
      fresh_rendering k td = Ok v)).
Proof.
  split.
  - intros k v. apply replace_segments_keeps.
  - intros k v. apply replace_segments_new_entries.
Qed.

(** X18. The calls of an evaluation: the calls made before it stay, in
    their order, at the head of the log; an evaluator (mathjs or KaTeX)
    is invoked at most once for each placeholder of the snapshot; and
    when every placeholder of the snapshot is cached nothing is called
    and nothing is stored. *)
Theorem evaluator_calls_per_cycle content td st :
  calls st `prefix_of` calls (evaluateTableExpressions content td st).2 ∧
  (evaluator_calls (calls (evaluateTableExpressions content td st).2)
   ≤ evaluator_calls (calls st) + length (placeholders (scan content)))%nat ∧
  ((∀ e, e ∈ placeholders (scan content) →
         is_Some (expressionCache st !! e)) →
   (evaluateTableExpressions content td st).2 = st).
Proof.
  split; [apply replace_segments_calls|].
  split; [apply replace_segments_calls|].
  apply replace_segments_cached.
Qed.

(** X19. The text before the first opening brace and the text after the
    last closing brace are copied: evaluating a snapshot that has a text
    without opening brace before it and a text without closing brace
    after it gives the evaluation of the snapshot between these two
    texts, and the same state. *)
Theorem text_outside_placeholders_is_kept pre content post td st :
  lbrace ∉ pre → rbrace ∉ post →
  evaluateTableExpressions (pre ++ content ++ post) td st
  = let (out, st') := evaluateTableExpressions content td st in
    (pre ++ out ++ post, st').
Proof.
  intros Hpre Hpost. unfold evaluateTableExpressions, scan.
  rewrite scan_go_prefix by done. rewrite app_nil_r.
  rewrite replace_segments_scan_text.
  rewrite replace_segments_scan_suffix by done.
  destruct (replace_segments (evaluate_placeholder td) (scan_go content [] None) st)
    as [out st'].
  by rewrite rev_involutive.
Qed.

End EvaluatorInvariants.

(** ** The debounced function *)

Section DebounceProperties.

Context {A : Type}.

Lemma run_events_app (delay : Z) (evs1 evs2 : list (timer_event A))
    (timer : timer_state A) :
  run_events delay (evs1 ++ evs2) timer
  = let (timer1, served1) := run_events delay evs1 timer in
    let (timer2, served2) := run_events delay evs2 timer1 in
    (timer2, served1 ++ served2).
Proof.
  revert timer. induction evs1 as [|ev evs1 IH]; intros timer.
  - simpl. by destruct (run_events delay evs2 timer).
  - cbn [app run_events].
    destruct (timer_step delay ev timer) as [timer0 served0]. rewrite IH.
    destruct (run_events delay evs1 timer0) as [timer1 served1].
    destruct (run_events delay evs2 timer1) as [timer2 served2].
    by rewrite app_assoc.
Qed.

Lemma run_events_premature (delay now : Z) (args : A)
    (quiet : list (timer_event A)) :
  Forall (premature delay now) quiet →
  run_events delay quiet (Some (now + delay, args))
  = (Some (now + delay, args), []).
Proof.
  induction 1 as [|ev quiet Hev _ IH]; [done|].
  destruct ev as [t a|t]; [done|]. cbn [run_events timer_step run_timeout].
  simpl in Hev. destruct (Z.leb_spec (now + delay) t); [lia|].
  by rewrite IH.
Qed.

Lemma run_events_served (delay : Z) (evs : list (timer_event A)) :
  ∀ timer : timer_state A,
  (run_events delay evs timer).2
    `sublist_of` (from_option (fun p => [p.2]) [] timer ++ called_args evs).
Proof.
  induction evs as [|ev evs IH]; intros timer; [apply sublist_nil_l|].
  destruct ev as [t a|t].
  - change (called_args (Called t a :: evs)) with (a :: called_args evs).
    cbn [run_events timer_step debounce].
    specialize (IH (Some (t + delay, a))).
    destruct (run_events delay evs (Some (t + delay, a))) as [timer2 served2].
    cbn [snd from_option app] in *. by apply sublist_inserts_l.
  - change (called_args (Elapsed t :: evs)) with (called_args evs).
    destruct timer as [[due args]|]; cbn [run_events timer_step run_timeout].
    + destruct (due <=? t).
      * specialize (IH None).
        destruct (run_events delay evs None) as [timer2 served2].
        cbn [snd from_option app] in *. by apply sublist_skip.
      * specialize (IH (Some (due, args))).
        by destruct (run_events delay evs (Some (due, args))).
    + specialize (IH None). by destruct (run_events delay evs None).
Qed.

(** X20. The debounced function, for a delay that [setTimeout] takes as
    it is.  A call made before the timeout of the call before it has run
    cancels that call, which is never served; a call that is followed by
    no other call until its delay is over is served when the event loop
    comes to it, with its own arguments; and nothing else is ever passed
    to [fn]: the arguments served are arguments of calls, in the order of
    the calls, each call at most once. *)
Theorem debounce_serves_last_call (delay : Z) :
  1 <= delay < 2 ^ 31 →
  (∀ t1 (a1 : A) quiet t2 a2 rest timer timer',
     Forall (premature delay t1) quiet →
     run_events delay (Called t1 a1 :: quiet ++ Called t2 a2 :: rest) timer
     = run_events delay (Called t2 a2 :: rest) timer') ∧
  (∀ t (a : A) quiet t' rest timer,
     Forall (premature delay t) quiet →
     t + delay <= t' →
     run_events delay (Called t a :: quiet ++ Elapsed t' :: rest) timer
     = let (timer', served) := run_events delay rest None in
       (timer', a :: served)) ∧
  (∀ evs : list (timer_event A),
     (run_events delay evs None).2 `sublist_of` called_args evs).
Proof.
  intros _. split; [|split].
  - intros t1 a1 quiet t2 a2 rest timer timer' Hquiet.
    cbn [run_events timer_step debounce]. rewrite run_events_app.
    rewrite run_events_premature by done.
    cbn [run_events timer_step debounce].
    by destruct (run_events delay rest (Some (t2 + delay, a2))).
  - intros t a quiet t' rest timer Hquiet Hdue.
    cbn [run_events timer_step debounce]. rewrite run_events_app.
    rewrite run_events_premature by done.
    cbn [run_events timer_step run_timeout].
    destruct (Z.leb_spec (t + delay) t'); [|lia].
    by destruct (run_events delay rest None).
  - intros evs. apply (run_events_served delay evs None).
Qed.

End DebounceProperties.

(** ** The earlier version of the view *)

Section LegacyProperties.

Context {L : Libraries}.

Variable String_of : mathval → jstr.

Lemma evaluate_match_eq expression st :
  Legacy.evaluate_match String_of expression st
  = match math_evaluate expression None with
    | Ok v => (String_of v, log (MathEvaluate expression false) st)
    | Throw _ =>
        (lbrace :: expression ++ [rbrace],
         log (ConsoleError expression)
           (log (MathEvaluate expression false) st))
    end.
Proof.
  unfold Legacy.evaluate_match, try_catch, call_math, bind, lift, exec, ret.
  rewrite bool_decide_eq_false_2 by (by intros [? ?]).
  by destruct (math_evaluate expression None).
Qed.

Lemma legacy_segments segs : ∀ st,
  expressionCache (replace_segments (Legacy.evaluate_match String_of) segs st).2
  = expressionCache st ∧
  evaluator_calls
    (calls (replace_segments (Legacy.evaluate_match String_of) segs st).2)
  = (evaluator_calls (calls st) + length (placeholders segs))%nat ∧
  content_replacements
    (calls (replace_segments (Legacy.evaluate_match String_of) segs st).2)
  = content_replacements (calls st) ∧
  ((∀ e, e ∈ placeholders segs → ∃ err, math_evaluate e None = Throw err) →
   (replace_segments (Legacy.evaluate_match String_of) segs st).1
   = concat (map segment_source segs)).
Proof.
  induction segs as [|[t|e] segs IH]; intros st; cbn [replace_segments].
  - repeat split; simpl; lia.
  - specialize (IH st).
    destruct (replace_segments (Legacy.evaluate_match String_of) segs st)
      as [out st'].
    cbn [fst snd] in *. destruct IH as (Hc & Hn & Hr & Hout).
    repeat split; try done. intros Hfail. simpl. by rewrite Hout.
  - rewrite evaluate_match_eq.
    change (placeholders (Placeholder e :: segs)) with (e :: placeholders segs).
    destruct (math_evaluate e None) as [v|err] eqn:Hev.
    + specialize (IH (log (MathEvaluate e false) st)).
      destruct (replace_segments (Legacy.evaluate_match String_of) segs _)
        as [out st'].
      cbn [fst snd] in *. destruct IH as (Hc & Hn & Hr & Hout).
      split; [done|]. split; [|split].
      * rewrite Hn. cbn [log calls]. rewrite evaluator_calls_app.
        change (evaluator_calls [MathEvaluate e false]) with 1%nat.
        simpl. lia.
      * rewrite Hr. cbn [log calls]. unfold content_replacements.
        by rewrite filter_app, app_nil_r.
      * intros Hfail. destruct (Hfail e) as [err Herr];
          [apply list_elem_of_here|congruence].
    + specialize (IH (log (ConsoleError e) (log (MathEvaluate e false) st))).
      destruct (replace_segments (Legacy.evaluate_match String_of) segs _)
        as [out st'].
      cbn [fst snd] in *. destruct IH as (Hc & Hn & Hr & Hout).
      split; [done|]. split; [|split].
      * rewrite Hn. cbn [log calls]. rewrite !evaluator_calls_app.
        change (evaluator_calls [MathEvaluate e false]) with 1%nat.
        change (evaluator_calls [ConsoleError e]) with 0%nat.
        simpl. lia.
      * rewrite Hr. cbn [log calls]. unfold content_replacements.
        by rewrite !filter_app, !app_nil_r.
      * intros Hfail. cbn [map concat segment_source].
        rewrite Hout; [done|].
        intros e' He'. apply Hfail. by apply list_elem_of_further.
Qed.

(** X21. The earlier [parseAndEvaluate] has no cache: it stores nothing,
    and it invokes the evaluator once for every placeholder of the
    content, at every run.  A placeholder whose evaluation throws is left
    in the text as it was typed, braces included, so a content whose
    placeholders all fail is returned as it is. *)
Theorem parseAndEvaluate_evaluates_every_placeholder content st :
  expressionCache (Legacy.parseAndEvaluate String_of content st).2
  = expressionCache st ∧
  evaluator_calls (calls (Legacy.parseAndEvaluate String_of content st).2)
  = (evaluator_calls (calls st) + length (placeholders (scan content)))%nat ∧
  ((∀ e, e ∈ placeholders (scan content) →
         ∃ err, math_evaluate e None = Throw err) →
   (Legacy.parseAndEvaluate String_of content st).1 = content).
Proof.
  unfold Legacy.parseAndEvaluate.
  destruct (legacy_segments (scan content) st) as (Hc & Hn & _ & Hout).
  split; [done|]. split; [done|].
  intros Hfail. rewrite Hout by done. apply scan_source.
Qed.

Context {E : EditorAPI}.

(** X22. The earlier handler replaces the content at every update: one
    [setContent] call, with the evaluated content, whether or not the
    document has a placeholder or has changed; for a document without
    placeholder it writes back the content it has read.  The selection
    read before is set again after it. *)
Theorem legacy_update_always_replaces :
  (∀ ed w,
     content_replacements (calls (Legacy.updateContent String_of ed w).2)
     = content_replacements (calls w) ++
       [SetContent (Legacy.parseAndEvaluate String_of (getHTML ed) w).1
          false true]) ∧
  (∀ ed w,
     (Legacy.updateContent String_of ed w).1
     = setTextSelection (selection_from ed) (selection_to ed)
         (setContent (Legacy.parseAndEvaluate String_of (getHTML ed) w).1
            false true ed)) ∧
  (∀ ed w,
     placeholders (scan (getHTML ed)) = [] →
     Legacy.updateContent String_of ed w
     = (setTextSelection (selection_from ed) (selection_to ed)
          (setContent (getHTML ed) false true ed),
        log (SetTextSelection (selection_from ed) (selection_to ed))
          (log (SetContent (getHTML ed) false true) w))).
Proof.
  split; [|split].
  - intros ed w. unfold Legacy.updateContent, Legacy.parseAndEvaluate.
    destruct (legacy_segments (scan (getHTML ed)) w) as (_ & _ & Hr & _).
    destruct (replace_segments (Legacy.evaluate_match String_of)
                (scan (getHTML ed)) w) as [out w1].
    cbn [fst snd log calls] in *. unfold content_replacements in *.
    rewrite !filter_app, Hr. by rewrite app_nil_r.
  - intros ed w. unfold Legacy.updateContent, Legacy.parseAndEvaluate.
    by destruct (replace_segments (Legacy.evaluate_match String_of)
                   (scan (getHTML ed)) w).
  - intros ed w Hnone. unfold Legacy.updateContent, Legacy.parseAndEvaluate.
    rewrite replace_segments_text by done. by rewrite scan_source.
Qed.

End LegacyProperties.

(** ** The link extension *)

Section LinkProperties.

Import CustomLink.

Lemma classList_remove_add (token : jstr) (l : list jstr) :
  classList_remove token (classList_add token l) = classList_remove token l.
Proof.
  unfold classList_remove, classList_add. case_bool_decide; [done|].
  rewrite filter_app, filter_cons_False, filter_nil by (by intros ?).
  by rewrite app_nil_r.
Qed.

Lemma classList_remove_absent (token : jstr) (l : list jstr) :
  token ∉ l → classList_remove token l = l.
Proof.
  unfold classList_remove. induction l as [|t l IH]; intros Hin; [done|].
  apply not_elem_of_cons in Hin as [Hne Hin].
  rewrite filter_cons_True by done. by rewrite IH.
Qed.

Lemma classList_add_present (token : jstr) (l : list jstr) :
  token ∈ classList_add token l.
Proof.
  unfold classList_add. case_bool_decide; [done|].
  apply elem_of_app. right. apply list_elem_of_here.
Qed.

Lemma classList_add_idem (token : jstr) (l : list jstr) :
  classList_add token (classList_add token l) = classList_add token l.
Proof.
  unfold classList_add at 1.
  by rewrite bool_decide_eq_true_2 by apply classList_add_present.
Qed.

(** X23. The class [ctrl] of the links follows the Control key: after
    the key is pressed every link has the class, once, however often the
    key event repeats; after it is released no link has it, and a link
    that did not have the class before has its class list back as it
    was; any other key changes nothing. *)
Theorem control_key_marks_links :
  (∀ anchors,
     Forall (fun l => lit "ctrl" ∈ l) (keydown (lit "Control") anchors)) ∧
  (∀ anchors,
     keydown (lit "Control") (keydown (lit "Control") anchors)
     = keydown (lit "Control") anchors) ∧
  (∀ anchors,
     Forall (fun l => lit "ctrl" ∉ l)
       (keyup (lit "Control") (keydown (lit "Control") anchors))) ∧
  (∀ anchors,
     Forall (fun l => lit "ctrl" ∉ l) anchors →
     keyup (lit "Control") (keydown (lit "Control") anchors) = anchors) ∧
  (∀ key anchors,
     key ≠ lit "Control" →
     keydown key anchors = anchors ∧ keyup key anchors = anchors).
Proof.
  assert (∀ anchors,
     keyup (lit "Control") (keydown (lit "Control") anchors)
     = classList_remove (lit "ctrl") <$> anchors) as Hround.
  { intros anchors. unfold keyup, keydown.
    rewrite !bool_decide_eq_true_2 by done.
    rewrite <- list_fmap_compose. apply list_fmap_ext.
    intros i l _. apply classList_remove_add. }
  split; [|split; [|split; [|split]]].
  - intros anchors. unfold keydown. rewrite bool_decide_eq_true_2 by done.
    apply Forall_fmap, Forall_forall. intros l _. apply classList_add_present.
  - intros anchors. unfold keydown. rewrite !bool_decide_eq_true_2 by done.
    rewrite <- list_fmap_compose. apply list_fmap_ext.
    intros i l _. apply classList_add_idem.
  - intros anchors. rewrite Hround.
    apply Forall_fmap, Forall_forall. intros l _.
    unfold classList_remove. intros Hin.
    by apply list_elem_of_filter in Hin as [Hne _].
  - intros anchors Hnone. rewrite Hround.
    induction Hnone as [|l anchors Hl _ IH]; [done|].
    rewrite fmap_cons, IH. by rewrite classList_remove_absent.
  - intros key anchors Hkey. unfold keydown, keyup.
    by rewrite !bool_decide_eq_false_2.
Qed.

(** X24. What a click does.  It is handled exactly when it is made with
    the main button on an element named [A] whose [href] (that of the
    element, or that of the link mark when the element has none) is not
    empty.  A link is opened only by a handled click with the Control
    key in an editable view, and it is that [href]; at most one link is
    opened.  An element whose own [href] is the empty string is not
    handled: the [href] of the link mark is not looked at then. *)
Theorem handleClick_opens_on_ctrl_click :
  (∀ view event,
     (handleClick view event).1 = true ↔
     button event = 0 ∧ target_nodeName event = lit "A" ∧
     truthy (nullish_or (target_href event) (attrs_href view)) = true) ∧
  (∀ view event h,
     h ∈ (handleClick view event).2 ↔
     (handleClick view event).1 = true ∧ editable view = true ∧
     ctrlKey event = true ∧
     nullish_or (target_href event) (attrs_href view) = Some h) ∧
  (∀ view event, (length (handleClick view event).2 ≤ 1)%nat) ∧
  (∀ view event,
     target_href event = Some [] → handleClick view event = (false, [])).
Proof.
  split; [|split; [|split]].
  - intros view event. unfold handleClick.
    destruct (Z.eqb_spec (button event) 0) as [Hb|Hb]; cbn [negb];
      [|by intuition].
    case_bool_decide as Hn; cbn [negb]; [|by intuition].
    destruct (truthy _); cbn [fst]; by intuition.
  - intros view event h. unfold handleClick.
    destruct (Z.eqb_spec (button event) 0) as [Hb|Hb]; cbn [negb].
    2: { cbn [fst snd]. rewrite elem_of_nil. by intuition. }
    case_bool_decide as Hn; cbn [negb].
    2: { cbn [fst snd]. rewrite elem_of_nil. by intuition. }
    destruct (nullish_or (target_href event) (attrs_href view)) as [[|c s]|];
      cbn [truthy fst snd default from_option id].
    + rewrite elem_of_nil. by intuition.
    + destruct (editable view), (ctrlKey event);
        rewrite ?list_elem_of_singleton, ?elem_of_nil;
        intuition congruence.
    + rewrite elem_of_nil. by intuition.
  - intros view event. unfold handleClick.
    repeat (case_match; cbn [snd length]; try lia).
  - intros view event Hhref. unfold handleClick, nullish_or. rewrite Hhref.
    cbn [truthy]. by repeat case_match.
Qed.

End LinkProperties.

(** ** Tables wider than the alphabet *)

Section WideTables.

Context {L : Libraries}.

(** X25. The cells of the 27th column and of the columns after it are
    indexed under a first character that is no capital letter ([[] for
    the 27th), so no cell reference of the range pattern names them, and
    no range between two columns A..Z reads them: what they hold does
    not change the result of such a range. *)
Theorem columns_beyond_Z_are_not_read :
  (∀ C R,
     (26 <= C)%nat → Z.of_nat C < 65471 → ¬ cell_reference (cellRef_of C R)) ∧
  (∀ (td : table_index) name cells C R (v : jstr) c1 r1 c2 r2,
     td !! name = Some cells →
     well_formed_coordinate c1 r1 → well_formed_coordinate c2 r2 →
     (26 <= C)%nat → Z.of_nat C < 65471 →
     getRange name (coordinate c1 r1) (coordinate c2 r2)
       (<[name := <[cellRef_of C R := v]> cells]> td)
     = getRange name (coordinate c1 r1) (coordinate c2 r2) td).
Proof.
  split.
  - intros C R HC Hwrap (c & digits & Heq & Hupper & _).
    unfold cellRef_of, columnIndexToLetter, fromCharCode in Heq.
    injection Heq as <- _.
    rewrite Z.mod_small in Hupper by lia.
    unfold is_upper in Hupper. apply andb_true_iff in Hupper as [_ H].
    apply N.leb_le in H. lia.
  - intros td name cells C R v c1 r1 c2 r2 Hname [Hc1 _] [Hc2 _] HC Hwrap.
    rewrite (getRange_rectangle td name cells) by (done || lia).
    rewrite (getRange_rectangle _ name (<[cellRef_of C R := v]> cells))
      by (by rewrite ?lookup_insert_eq || lia).
    f_equal. apply flat_map_ext_elem. intros [col row] Hin.
    apply rectangle_elem in Hin as [Hcol Hrow].
    unfold numeric_cell. cbn [fst snd].
    rewrite lookup_insert_ne; [done|].
    change (cellRef_of C R) with (coordinate (Z.of_nat C) (Z.of_nat R + 1)).
    intros Heq. apply coordinate_inj in Heq as [Heq _]; lia.
Qed.

End WideTables.

(** ** The component: the handler registered last *)

Section NewestHandler.

Context {L : Libraries} {E : EditorAPI}.

Lemma run_handler_newest captured (c : component) :
  newest_handler_is_current c →
  newest_handler_is_current (run_handler captured c).
Proof.
  unfold newest_handler_is_current, run_handler. cbn [handlers state_previousContent].
  intros Hc. case_bool_decide as Hstate; cbn [negb].
  - by rewrite Hstate.
  - by rewrite last_snoc.
Qed.

Lemma fold_run_handler_newest (l : list jstr) : ∀ c : component,
  newest_handler_is_current c →
  newest_handler_is_current
    (fold_left (fun c captured => run_handler captured c) l c).
Proof.
  induction l as [|captured l IH]; intros c Hc; [done|].
  simpl. apply IH. by apply run_handler_newest.
Qed.

(** X26. Of the handlers registered, the last one is always the one of
    the current render: it has closed over the value the state cell
    [previousContent] has now.  This holds when the component is mounted
    and is kept by every run of a handler and by every update event (the
    handlers before the last one are the stale ones). *)
Theorem newest_handler_closes_over_state :
  (∀ ed w, newest_handler_is_current (mount ed w)) ∧
  (∀ captured (c : component),
     newest_handler_is_current c →
     newest_handler_is_current (run_handler captured c)) ∧
  (∀ c : component,
     newest_handler_is_current c →
     newest_handler_is_current (update_event c)).
Proof.
  split; [done|]. split.
  - apply run_handler_newest.
  - intros c Hc. unfold update_event. by apply fold_run_handler_newest.
Qed.

Lemma run_handler_effects captured (c : component) :
  (length (handlers (run_handler captured c)) ≤ S (length (handlers c)))%nat ∧
  ∃ written,
    (length written ≤ 1)%nat ∧
    content_replacements (calls (module_state (run_handler captured c)))
    = content_replacements (calls (module_state c)) ++ written.
Proof.
  split.
  - unfold run_handler. cbn [handlers].
    case_bool_decide; cbn [negb]; [lia|]. rewrite length_app. simpl. lia.
  - unfold run_handler. cbn [module_state].
    rewrite updateContent_replacements. cbn [world].
    eexists. split; [|done]. case_bool_decide; simpl; lia.
Qed.

Lemma fold_run_handler_effects (l : list jstr) : ∀ c : component,
  (length (handlers (fold_left (fun c captured => run_handler captured c) l c))
   ≤ length (handlers c) + length l)%nat ∧
  ∃ written,
    (length written ≤ length l)%nat ∧
    content_replacements
      (calls (module_state
                (fold_left (fun c captured => run_handler captured c) l c)))
    = content_replacements (calls (module_state c)) ++ written.
Proof.
  induction l as [|captured l IH]; intros c.
  - split; [simpl; lia|]. exists []. split; [done|]. by rewrite app_nil_r.
  - cbn [fold_left].
    destruct (IH (run_handler captured c)) as (Hn & written & Hlen & Hw).
    destruct (run_handler_effects captured c) as (Hn1 & written1 & Hlen1 & Hw1).
    split; [simpl; lia|].
    exists (written1 ++ written). split.
    + rewrite length_app. simpl. lia.
    + by rewrite Hw, Hw1, app_assoc.
Qed.

(** X29. What an update event can do at most: every handler registered
    when the event is emitted runs once, makes at most one [setContent]
    call and registers at most one handler.  So the content is replaced
    at most as many times as there are handlers, after the replacements
    made before, and the number of handlers at most doubles. *)
Theorem update_event_effects_are_bounded (c : component) :
  (length (handlers (update_event c)) ≤ 2 * length (handlers c))%nat ∧
  ∃ written,
    (length written ≤ length (handlers c))%nat ∧
    content_replacements (calls (module_state (update_event c)))
    = content_replacements (calls (module_state c)) ++ written.
Proof.
  unfold update_event.
  destruct (fold_run_handler_effects (handlers c) c) as (Hn & written & Hlen & Hw).
  split; [lia|]. by exists written.
Qed.

End NewestHandler.

(** ** The zoom handlers *)

Section ZoomProperties.

Import PrimFloat FloatAxioms.
Import Zoom.

Lemma is_level_elem zoom : is_level zoom = true ↔ zoom ∈ zoom_levels.
Proof.
  unfold is_level. rewrite existsb_exists, list_elem_of_In. split.
  - intros (z & Hin & Heq). apply Leibniz.eqb_spec in Heq. by subst.
  - intros Hin. exists zoom. split; [done|]. by apply Leibniz.eqb_spec.
Qed.

Lemma zoom_levels_forall (P : float → bool) :
  forallb P zoom_levels = true → ∀ zoom, zoom ∈ zoom_levels → P zoom = true.
Proof.
  intros Hall zoom Hin. rewrite forallb_forall in Hall.
  apply Hall. by apply list_elem_of_In.
Qed.

Lemma zoom_levels_closed r zoom :
  zoom ∈ zoom_levels → handle r zoom ∈ zoom_levels.
Proof.
  intros Hin. apply is_level_elem.
  destruct r.
  - revert zoom Hin.
    apply (zoom_levels_forall (fun z => is_level (handle ZoomIn z))).
    vm_compute. reflexivity.
  - revert zoom Hin.
    apply (zoom_levels_forall (fun z => is_level (handle ZoomOut z))).
    vm_compute. reflexivity.
  - vm_compute. reflexivity.
Qed.

Lemma run_levels requests : ∀ zoom,
  zoom ∈ zoom_levels → run requests zoom ∈ zoom_levels.
Proof.
  induction requests as [|r requests IH]; intros zoom Hin; [done|].
  apply IH. by apply zoom_levels_closed.
Qed.

(** X27. Once the zoom has been reset, it stays on 51 levels, whatever
    requests follow: the doubles met by adding and subtracting 0.1 from
    1, all of them above 0.1 and below 5.1.  (Zooming in is refused
    above 5.0 and zooming out below 0.2, so the level just below 5.1 and
    the level just above 0.1 are reached.) *)
Theorem zoom_stays_on_its_levels :
  (∀ before after zoom,
     run (before ++ ResetZoom :: after) zoom ∈ zoom_levels) ∧
  (∀ zoom,
     zoom ∈ zoom_levels →
     (tenth <? zoom)%float = true ∧ (zoom <? five_and_tenth)%float = true) ∧
  length zoom_levels = 51%nat ∧
  (∃ lowest highest,
     head zoom_levels = Some lowest ∧ last zoom_levels = Some highest ∧
     handle ZoomOut lowest = lowest ∧ handle ZoomIn highest = highest).
Proof.
  split; [|split; [|split]].
  - intros before after zoom. unfold run. rewrite fold_left_app.
    cbn [fold_left handle]. apply run_levels.
    apply is_level_elem. vm_compute. reflexivity.
  - intros zoom Hin. apply andb_true_iff. revert zoom Hin.
    apply (zoom_levels_forall
             (fun z => (tenth <? z)%float && (z <? five_and_tenth)%float)).
    vm_compute. reflexivity.
  - reflexivity.
  - eexists _, _. split; [vm_compute; reflexivity|].
    split; [vm_compute; reflexivity|]. split; vm_compute; reflexivity.
Qed.

(** X28. On these levels zooming in and zooming out undo each other
    exactly, rounding included: where zooming in is not refused, zooming
    out after it gives the level back, and where zooming out is not
    refused, zooming in after it gives the level back. *)
Theorem zoom_in_and_out_are_inverse :
  (∀ zoom,
     zoom ∈ zoom_levels → (zoom <=? 5)%float = true →
     handle ZoomOut (handle ZoomIn zoom) = zoom) ∧
  (∀ zoom,
     zoom ∈ zoom_levels → (fifth <=? zoom)%float = true →
     handle ZoomIn (handle ZoomOut zoom) = zoom).
Proof.
  split.
  - intros zoom Hin Hle. apply Leibniz.eqb_spec. revert Hle.
    pose proof (zoom_levels_forall
                  (fun z => implb (z <=? 5)%float
                              (Leibniz.eqb (handle ZoomOut (handle ZoomIn z)) z)))
      as Hall.
    cbv beta in Hall. intros Hle.
    specialize (Hall ltac:(vm_compute; reflexivity) zoom Hin).
    by rewrite Hle in Hall.
  - intros zoom Hin Hle. apply Leibniz.eqb_spec. revert Hle.
    pose proof (zoom_levels_forall
                  (fun z => implb (fifth <=? z)%float
                              (Leibniz.eqb (handle ZoomIn (handle ZoomOut z)) z)))
      as Hall.
    cbv beta in Hall. intros Hle.
    specialize (Hall ltac:(vm_compute; reflexivity) zoom Hin).
    by rewrite Hle in Hall.
Qed.

End ZoomProperties.

(** ** The properties on concrete inputs *)

#[local] Existing Instance Sample.libraries.
#[local] Existing Instance Sample.plain_editor_api.

Lemma parseTables_coordinates_witness :
  ∃ cells,
    (parseTables (L := Sample.libraries_with (fun _ => Sample.one_table))
       (lit "<table>..</table>")).2 !! lit "table1" = Some cells ∧
    cells !! lit "B1" = Some (lit "3") ∧
    cells !! lit "A2" = Some (lit "2").
Proof.
  destruct (proj1 (parseTables_coordinates
                     (L := Sample.libraries_with (fun _ => Sample.one_table)))
              (lit "<table>..</table>") 0%nat
              Sample.table eq_refl)
    as (cells & Hlookup & Hcells & _).
  - intros row Hrow. apply list_elem_of_In in Hrow.
    destruct Hrow as [<-|[<-|[]]]; simpl; lia.
  - exists cells. split; [exact Hlookup|]. split.
    + exact (Hcells 0%nat _ 1%nat (Sample.cell (lit " 3 ")) eq_refl eq_refl).
    + exact (Hcells 1%nat _ 0%nat (Sample.cell (lit "2")) eq_refl eq_refl).
Defined.

Lemma getRange_column_major_witness :
  getRange (L := Sample.libraries) (lit "table1") (lit "A1") (lit "B2")
    (index_tables Sample.one_table)
  = Ok [Some 1; Some 2; Some 3; Some 4] ∧
  getRange (L := Sample.libraries) (lit "table1") (lit "A1") (lit "B2")
    {[ lit "table1" :=
         list_to_map [(lit "A1", lit "1"); (lit "A2", lit "2");
                      (lit "B1", lit "3"); (lit "B2", lit "4")] ]}
  = Ok [Some 1; Some 2; Some 3; Some 4].
Proof.
  split.
  - change (lit "A1") with (coordinate 0 1).
    change (lit "B2") with (coordinate 1 2).
    rewrite (proj1 (getRange_column_major (L := Sample.libraries))
               (index_tables Sample.one_table) (lit "table1")
               (table_cells Sample.table)
               0 1 1 2).
    + reflexivity.
    + reflexivity.
    + unfold well_formed_coordinate. lia.
    + unfold well_formed_coordinate. lia.
  - apply (proj2 (proj2 (getRange_column_major (L := Sample.libraries)))).
    repeat constructor.
Defined.

Lemma getRange_reversed_empty_witness :
  getRange (L := Sample.libraries) (lit "table1") (lit "B2") (lit "A1")
    (index_tables Sample.one_table) = Ok [] ∧
  getRange (L := Sample.libraries) (lit "table1") (lit "A2") (lit "B1")
    (index_tables Sample.one_table) = Ok [].
Proof.
  split.
  - apply (proj1 (getRange_reversed_empty (L := Sample.libraries))
             (index_tables Sample.one_table) (lit "table1")
             (table_cells Sample.table)).
    + reflexivity.
    + left. reflexivity.
  - apply (proj1 (getRange_reversed_empty (L := Sample.libraries))
             (index_tables Sample.one_table) (lit "table1")
             (table_cells Sample.table)).
    + reflexivity.
    + right. split; [reflexivity|]. split; vm_compute; reflexivity.
Defined.

(** An expression mathjs rejects is evaluated at each occurrence: its
    error marker is not stored. *)
Lemma error_marker_is_not_cached :
  let first :=
    evaluate_placeholder (L := Sample.libraries) ∅ (lit "2+") Sample.initial in
  let second :=
    evaluate_placeholder (L := Sample.libraries) ∅ (lit "2+") first.2 in
  first.1 = error_marker (lit "2+") ∧
  expressionCache first.2 !! lit "2+" = None ∧
  second.1 = error_marker (lit "2+") ∧
  evaluator_calls (calls first.2) = 1%nat ∧
  evaluator_calls (calls second.2) = 2%nat.
Proof. vm_compute. repeat split. Qed.

Lemma cache_lookup_then_store_witness :
  let first :=
    evaluate_placeholder (L := Sample.libraries) ∅ (lit "2+2") Sample.initial in
  first.1 = lit "4" ∧
  expressionCache first.2 = {[ lit "2+2" := lit "4" ]} ∧
  evaluator_calls (calls first.2) = 1%nat ∧
  evaluate_placeholder (L := Sample.libraries) ∅ (lit "2+2") first.2 = first ∧
  evaluator_calls
    (calls (evaluate_placeholder (L := Sample.libraries) ∅ (lit "2+3") first.2).2)
  = 2%nat.
Proof.
  cbv zeta.
  destruct (proj1 (proj2 (cache_lookup_then_store (L := Sample.libraries)))
              ∅ (lit "2+2") Sample.initial (lit "4")
              (cache_set (lit "2+2") (lit "4")
                 (log (MathEvaluate (lit "2+2") false) Sample.initial))
              eq_refl eq_refl)
    as (Heval & Hcache & Hcalls & Hagain & Hother).
  rewrite Heval. cbn [fst snd]. split; [reflexivity|]. split.
  - rewrite Hcache. apply insert_empty.
  - split; [exact Hcalls|]. split; [apply Hagain|].
    by rewrite (Hother ∅ (lit "2+3")).
Defined.

(** A placeholder cached while its table existed keeps its rendering
    when the table is gone: no error marker. *)
Lemma cached_reference_to_missing_table :
  let e := lit "sum(table1[A1:A2])" in
  let first :=
    evaluateTableExpressions (L := Sample.libraries) (lit "{sum(table1[A1:A2])}")
      (index_tables Sample.one_table) Sample.initial in
  let second :=
    evaluateTableExpressions (L := Sample.libraries) (lit "{sum(table1[A1:A2])}")
      ∅ first.2 in
  first.1 = lit "3" ∧
  (∅ : table_index) !! lit "table1" = None ∧
  second.1 = lit "3" ∧
  bool_decide (second.1 = error_marker e) = false ∧
  calls second.2 = calls first.2.
Proof. vm_compute. repeat split. Qed.

Lemma missing_table_is_marked_witness :
  evaluate_placeholder (L := Sample.libraries) (index_tables Sample.one_table)
    (lit "table9[A1:B2]") Sample.initial
  = (error_marker (lit "table9[A1:B2]"),
     log (ConsoleError (lit "table9[A1:B2]"))
       (log (MathEvaluate (processTableExpression (lit "table9[A1:B2]")) true)
          Sample.initial)).
Proof.
  apply (proj1 (proj2 (missing_table_is_marked (L := Sample.libraries)))
           (index_tables Sample.one_table) (lit "table9[A1:B2]") Sample.initial
           (lit "table9") (lit "A1") (lit "B2")).
  - exists (lit "9"). split; [|reflexivity].
    split; [discriminate|]. repeat constructor.
  - reflexivity.
  - reflexivity.
  - reflexivity.
  - reflexivity.
  - intros g err Hg. change (processTableExpression (lit "table9[A1:B2]"))
      with (lit "getRange(" ++ dquote ++ lit "table9" ++ dquote ++ lit ", " ++
            dquote ++ lit "A1" ++ dquote ++ lit ", " ++
            dquote ++ lit "B2" ++ dquote ++ lit ")").
    change (math_evaluate ?expr (Some g))
      with (match g (lit "table9") (lit "A1") (lit "B2") with
            | Ok l => Ok (Sample.VArray l)
            | Throw x => Throw x
            end).
    by rewrite Hg.
Defined.

Lemma latex_placeholder_rendering_witness :
  evaluate_placeholder (L := Sample.libraries) ∅ (lit "$$ table x^2 $$")
    Sample.initial
  = (lit "<span class=katex>table x^2</span>",
     cache_set (lit "$$ table x^2 $$") (lit "<span class=katex>table x^2</span>")
       (log (KatexRenderToString (lit "table x^2") false) Sample.initial)).
Proof.
  exact (proj1 (latex_placeholder_rendering (L := Sample.libraries))
           ∅ (lit "$$ table x^2 $$") Sample.initial eq_refl eq_refl).
Defined.

Lemma cached_table_rendering_is_kept_witness :
  let e := lit "sum(table1[A1:A2])" in
  let st := cache_set e (lit "3") Sample.initial in
  let later :=
    run_cycles (L := Sample.libraries)
      [(lit "{2+2} {table1[A1:A1]}", index_tables Sample.one_table);
       (lit "{2+}", ∅)] st in
  evaluate_placeholder (L := Sample.libraries) ∅ e later = (lit "3", later) ∧
  evaluate_placeholder (L := Sample.libraries) (index_tables Sample.one_table)
    e later = (lit "3", later).
Proof.
  cbv zeta. split.
  - apply (proj2 (cached_table_rendering_is_kept (L := Sample.libraries))
             (lit "sum(table1[A1:A2])")
             (cache_set (lit "sum(table1[A1:A2])") (lit "3") Sample.initial)
             (lit "3") eq_refl eq_refl _ ∅ ∅).
  - apply (proj2 (cached_table_rendering_is_kept (L := Sample.libraries))
             (lit "sum(table1[A1:A2])")
             (cache_set (lit "sum(table1[A1:A2])") (lit "3") Sample.initial)
             (lit "3") eq_refl eq_refl _ (index_tables Sample.one_table) ∅).
Defined.

Lemma no_closing_brace_no_op_witness :
  updateContent (sample_view (lit "no braces, 2+2 {") 3 4 (lit "before"))
  = sample_view (lit "no braces, 2+2 {") 3 4 (lit "before").
Proof.
  exact (proj1 (no_closing_brace_no_op (L := Sample.libraries)
                  (E := Sample.plain_editor_api))
           (sample_view (lit "no braces, 2+2 {") 3 4 (lit "before")) eq_refl).
Defined.

Lemma refresh_idempotent_witness :
  let v := sample_view (lit "total {2+2}") 2 2 [] in
  Sample.html (editor (updateContent v)) = lit "total 4" ∧
  updateContent (updateContent v) = updateContent v ∧
  content_replacements (calls (world (updateContent (updateContent v))))
  = content_replacements (calls (world (updateContent v))).
Proof.
  cbv zeta. split; [reflexivity|]. split.
  - apply (proj1 (refresh_idempotent (L := Sample.libraries)
                    (E := Sample.plain_editor_api))). reflexivity.
  - apply (proj2 (proj2 (refresh_idempotent (L := Sample.libraries)
                           (E := Sample.plain_editor_api)))).
    split; reflexivity.
Defined.

Lemma selection_restored_witness :
  let v := sample_view (lit "ab {2+2} cd") 5 5 [] in
  length (getHTML (editor v)) = 11%nat ∧
  editor (updateContent v)
  = {| Sample.html := lit "ab 4 cd"; Sample.sel_from := 5; Sample.sel_to := 5 |} ∧
  calls (world (updateContent v))
  = [ParseFromString (lit "ab {2+2} cd"); MathEvaluate (lit "2+2") false;
     SetContent (lit "ab 4 cd") false true; SetTextSelection 5 5].
Proof.
  cbv zeta. split; [reflexivity|].
  destruct (proj1 (selection_restored (L := Sample.libraries)
                     (E := Sample.plain_editor_api))
              (sample_view (lit "ab {2+2} cd") 5 5 []))
    as (Heditor & Hcalls & _).
  - split; [reflexivity|]. split; [discriminate|]. vm_compute. discriminate.
  - rewrite Heditor, Hcalls. split; reflexivity.
Defined.

(** X4. A closing brace ends the placeholder, in LaTeX too: in
    [{$$\frac{1}{$$}] the first placeholder is [$$\frac{1], which is not
    delimited by [$$] on both sides and goes to mathjs, and the second is
    [$$], an empty LaTeX source. *)
Lemma latex_with_brace_is_cut :
  placeholders (scan (lit "{$$\frac{1}{$$}")) = [lit "$$\frac{1"; lit "$$"] ∧
  latex_delimited (lit "$$\frac{1") = false ∧
  latex_delimited (lit "$$") = true ∧
  latex_source (lit "$$") = [].
Proof. vm_compute. repeat split. Qed.

(** X6. The rewritten snapshot is not always a fixed point of the
    evaluation: the marker of a failed expression that contains an opening
    brace can form a new placeholder with a closing brace after it.  The
    handler does not get there when the snapshot is its [previousContent]. *)
Lemma rewritten_snapshot_can_change_again :
  let first := evaluateTableExpressions (lit "{{1}}") ∅ Sample.initial in
  let second := evaluateTableExpressions first.1 ∅ first.2 in
  first.1 = error_marker (lit "{1") ++ lit "}" ∧
  placeholders (scan first.1) = [lit "1</span>"] ∧
  second.1 = lit "<span style=" ++ dquote ++ lit "color: red;" ++ dquote ++
             lit ">" ++ error_marker (lit "1</span>") ∧
  bool_decide (second.1 = first.1) = false.
Proof. vm_compute. repeat split. Qed.

Lemma update_event_without_closing_brace_witness :
  let c :=
    user_edit {| Sample.html := lit "plain text {"; Sample.sel_from := 1;
                 Sample.sel_to := 1 |}
      (update_event
         (mount {| Sample.html := lit "x } {2+2}"; Sample.sel_from := 0;
                   Sample.sel_to := 0 |} Sample.initial)) in
  handlers c = [lit ""; lit "x } 4"] ∧ update_event c = c.
Proof.
  cbv zeta. split; [reflexivity|].
  apply update_event_without_closing_brace. reflexivity.
Defined.

(** C5 on the component.  The document [x } {2+2}] is evaluated by the one
    handler there is and becomes [x } 4]; this registers a second handler
    and leaves the first registered.  After the user has appended [!], both
    handlers run.  The first, whose [previousContent] is still the empty
    string, replaces the content by what it read.  The second then finds a
    snapshot that has just been applied and computes a candidate equal to
    it; it compares the candidate with the [previousContent] of its own
    render, [x } 4], and replaces the content once more. *)
Lemma stale_handler_replaces_again :
  let c0 :=
    mount {| Sample.html := lit "x } {2+2}"; Sample.sel_from := 9;
             Sample.sel_to := 9 |} Sample.initial in
  let c1 := update_event c0 in
  let edited :=
    user_edit {| Sample.html := lit "x } 4!"; Sample.sel_from := 6;
                 Sample.sel_to := 6 |} c1 in
  let after_first := run_handler (lit "") edited in
  let second :=
    @Build_view Sample.plain_editor_api (mounted_editor after_first)
      (lit "x } 4") (module_state after_first) in
  Sample.html (mounted_editor c1) = lit "x } 4" ∧
  handlers c1 = [lit ""; lit "x } 4"] ∧
  state_previousContent after_first = lit "x } 4!" ∧
  getHTML (editor second) = lit "x } 4!" ∧
  (candidate second).1 = lit "x } 4!" ∧
  content_replacements (calls (world (updateContent second)))
  = content_replacements (calls (world second)) ++
    [SetContent (lit "x } 4!") false true] ∧
  content_replacements (calls (module_state (update_event edited)))
  = [SetContent (lit "x } 4") false true;
     SetContent (lit "x } 4!") false true;
     SetContent (lit "x } 4!") false true] ∧
  handlers (update_event edited) = [lit ""; lit "x } 4"; lit "x } 4!"].
Proof. vm_compute. repeat split. Qed.

(** ** The further properties on concrete inputs *)

(** The sample table as a document of its own parser. *)
Lemma indexed_text_is_trimmed_witness :
  (parseTables (L := Sample.libraries_with (fun _ => Sample.one_table))
     (lit "<table>..</table>")).2 !! lit "table1"
  = Some (table_cells Sample.table) ∧
  table_cells Sample.table !! lit "B1" = Some (lit "3") ∧
  trim (lit "3") = lit "3".
Proof.
  split; [reflexivity|]. split; [reflexivity|].
  apply (indexed_text_is_trimmed
           (L := Sample.libraries_with (fun _ => Sample.one_table))
           (lit "<table>..</table>") (lit "table1")
           (table_cells Sample.table) (lit "B1") (lit "3"));
    reflexivity.
Defined.

Lemma zero_padded_table_name_not_found_witness :
  getRange (L := Sample.libraries_with (fun _ => Sample.one_table))
    (lit "table01") (lit "A1") (lit "B2")
    (parseTables (L := Sample.libraries_with (fun _ => Sample.one_table))
       (lit "<table>..</table>")).2
  = Throw (JsError (lit "Table " ++ dquote ++ lit "table01" ++ dquote ++
                    lit " not found.")).
Proof.
  apply (zero_padded_table_name_not_found
           (L := Sample.libraries_with (fun _ => Sample.one_table))
           (lit "<table>..</table>") (lit "01") (lit "A1") (lit "B2")).
  - split; [done|]. repeat constructor.
  - reflexivity.
Defined.

Lemma getRange_splits_by_column_witness :
  ∃ first rest,
    getRange (L := Sample.libraries) (lit "table1") (lit "A1") (lit "A2")
      (index_tables Sample.one_table) = Ok first ∧
    getRange (L := Sample.libraries) (lit "table1") (lit "B1") (lit "B2")
      (index_tables Sample.one_table) = Ok rest ∧
    getRange (L := Sample.libraries) (lit "table1") (lit "A1") (lit "B2")
      (index_tables Sample.one_table) = Ok (first ++ rest).
Proof.
  apply (proj1 (getRange_splits_by_column (L := Sample.libraries))
           (index_tables Sample.one_table) (lit "table1")
           (table_cells Sample.table) 0 1 0 1 2 eq_refl);
    unfold well_formed_coordinate; lia.
Defined.

Lemma getRange_reads_only_its_rectangle_witness :
  getRange (L := Sample.libraries) (lit "table1") (lit "A1") (lit "A2")
    (<[lit "table1" := <[lit "B2" := lit "100"]> (table_cells Sample.table)]>
       (index_tables Sample.one_table))
  = getRange (L := Sample.libraries) (lit "table1") (lit "A1") (lit "A2")
      (index_tables Sample.one_table).
Proof.
  apply (proj1 (proj2 (getRange_reads_only_its_rectangle (L := Sample.libraries)))
           (index_tables Sample.one_table) (lit "table1")
           (table_cells Sample.table) (lit "100") 1 2 0 1 0 2 eq_refl);
    unfold well_formed_coordinate; lia.
Defined.

Lemma getRange_malformed_coordinate_witness :
  getRange (L := Sample.libraries) (lit "table1") (lit "AA1") (lit "AB2")
    (index_tables Sample.one_table) = Ok [].
Proof.
  apply (proj1 (getRange_malformed_coordinate (L := Sample.libraries))
           (index_tables Sample.one_table) (lit "table1")
           (table_cells Sample.table) (lit "AA1") (lit "AB2") eq_refl).
  right. right. left. reflexivity.
Defined.



Lemma processTableExpression_rewrites_references_witness :
  processTableExpression (lit "sqrt(table12[A1:B20]) + 1")
  = lit "sqrt(" ++
    getRange_call (lit "table12") (lit "A1") (lit "B20") ++ lit ") + 1".
Proof.
  destruct processTableExpression_rewrites_references as [Hnone Href].
  change (lit "sqrt(table12[A1:B20]) + 1")
    with (lit "sqrt(" ++ range_reference (lit "12") (lit "A1") (lit "B20") ++
          lit ") + 1").
  rewrite Href.
  - by rewrite Hnone.
  - reflexivity.
  - split; [done|]. repeat constructor.
  - exists 65%N, (lit "1"). split; [done|]. split; [done|].
    split; [done|]. repeat constructor.
  - exists 66%N, (lit "20"). split; [done|]. split; [done|].
    split; [done|]. repeat constructor.
Defined.

Lemma cache_grows_by_placeholders_witness :
  let after := (evaluateTableExpressions (lit "a {2+2} b") ∅ Sample.initial).2 in
  expressionCache after !! lit "2+2" = Some (lit "4") ∧
  lit "2+2" ∈ placeholders (scan (lit "a {2+2} b")) ∧
  fresh_rendering (lit "2+2") ∅ = Ok (lit "4").
Proof.
  cbv zeta.
  assert (expressionCache
            (evaluateTableExpressions (lit "a {2+2} b") ∅ Sample.initial).2
          !! lit "2+2" = Some (lit "4")) as Hafter by reflexivity.
  split; [exact Hafter|].
  destruct (proj2 (cache_grows_by_placeholders (lit "a {2+2} b") ∅
                     Sample.initial) (lit "2+2") (lit "4") Hafter)
    as [Hold|(_ & Hin & Hfresh)]; [discriminate Hold|].
  by split.
Defined.

Lemma evaluator_calls_per_cycle_witness :
  let st := (evaluateTableExpressions (lit "a {2+2} b") ∅ Sample.initial).2 in
  (evaluateTableExpressions (lit "{2+2}{2+2}") ∅ st).2 = st.
Proof.
  cbv zeta.
  apply (proj2 (proj2 (evaluator_calls_per_cycle (lit "{2+2}{2+2}") ∅ _))).
  intros e He. apply list_elem_of_In in He.
  destruct He as [<-|[<-|[]]]; by eexists.
Defined.

Lemma text_outside_placeholders_is_kept_witness :
  (evaluateTableExpressions (lit "<p>{2+2}</p>") ∅ Sample.initial).1
  = lit "<p>4</p>".
Proof.
  change (lit "<p>{2+2}</p>") with (lit "<p>" ++ lit "{2+2}" ++ lit "</p>").
  rewrite text_outside_placeholders_is_kept.
  - reflexivity.
  - exact (proj1 (bool_decide_eq_false (lbrace ∈ lit "<p>")) eq_refl).
  - exact (proj1 (bool_decide_eq_false (rbrace ∈ lit "</p>")) eq_refl).
Defined.

Lemma debounce_serves_last_call_witness :
  run_events 300
    [Called 0 (lit "a"); Elapsed 100; Called 200 (lit "b"); Elapsed 600] None
  = (None, [lit "b"]).
Proof.
  destruct (debounce_serves_last_call (A := jstr) 300 ltac:(lia))
    as (Hcancel & Hserve & _).
  etrans.
  - apply (Hcancel 0 (lit "a") [Elapsed 100] 200 (lit "b") [Elapsed 600]
             None None).
    repeat constructor.
  - apply (Hserve 200 (lit "b") [] 600 [] None); [constructor|lia].
Defined.

Lemma parseAndEvaluate_evaluates_every_placeholder_witness :
  (Legacy.parseAndEvaluate (L := Sample.libraries) sample_String
     (lit "a {2+} b {+}") Sample.initial).1
  = lit "a {2+} b {+}".
Proof.
  apply (proj2 (proj2 (parseAndEvaluate_evaluates_every_placeholder
                         (L := Sample.libraries) sample_String
                         (lit "a {2+} b {+}") Sample.initial))).
  intros e He. apply list_elem_of_In in He.
  destruct He as [<-|[<-|[]]]; by eexists.
Defined.

Lemma legacy_update_always_replaces_witness :
  let ed := {| Sample.html := lit "no placeholder";
               Sample.sel_from := 3; Sample.sel_to := 5 |} in
  Legacy.updateContent (L := Sample.libraries) (E := Sample.plain_editor_api)
    sample_String ed Sample.initial
  = ({| Sample.html := lit "no placeholder";
        Sample.sel_from := 3; Sample.sel_to := 5 |},
     {| expressionCache := ∅;
        calls := [SetContent (lit "no placeholder") false true;
                  SetTextSelection 3 5] |}).
Proof.
  cbv zeta.
  rewrite (proj2 (proj2 (legacy_update_always_replaces
                           (L := Sample.libraries)
                           (E := Sample.plain_editor_api) sample_String)));
    reflexivity.
Defined.

Lemma control_key_marks_links_witness :
  CustomLink.keyup (lit "Control")
    (CustomLink.keydown (lit "Control") [[lit "external"]; []])
  = [[lit "external"]; []] ∧
  CustomLink.keydown (lit "Shift") [[lit "external"]; []]
  = [[lit "external"]; []].
Proof.
  destruct control_key_marks_links as (_ & _ & _ & Hback & Hother). split.
  - apply Hback. repeat constructor.
    + exact (proj1 (bool_decide_eq_false (lit "ctrl" ∈ [lit "external"]))
               eq_refl).
    + apply not_elem_of_nil.
  - apply Hother.
    exact (proj1 (bool_decide_eq_false (lit "Shift" = lit "Control")) eq_refl).
Defined.

Lemma handleClick_opens_on_ctrl_click_witness :
  let view := {| CustomLink.editable := true; CustomLink.attrs_href := None |} in
  let event := {| CustomLink.button := 0;
                  CustomLink.target_nodeName := lit "A";
                  CustomLink.target_href := Some (lit "https://example.org/");
                  CustomLink.ctrlKey := true |} in
  lit "https://example.org/" ∈ (CustomLink.handleClick view event).2.
Proof.
  cbv zeta.
  apply (proj1 (proj2 handleClick_opens_on_ctrl_click)). by repeat split.
Defined.

Lemma columns_beyond_Z_are_not_read_witness :
  cellRef_of 26 0 = lit "[1" ∧
  getRange (L := Sample.libraries) (lit "table1") (lit "A1") (lit "Z9")
    (<[lit "table1" := <[lit "[1" := lit "100"]> (table_cells Sample.table)]>
       (index_tables Sample.one_table))
  = getRange (L := Sample.libraries) (lit "table1") (lit "A1") (lit "Z9")
      (index_tables Sample.one_table).
Proof.
  split; [reflexivity|].
  apply (proj2 (columns_beyond_Z_are_not_read (L := Sample.libraries))
           (index_tables Sample.one_table) (lit "table1")
           (table_cells Sample.table) 26%nat 0%nat (lit "100") 0 1 25 9 eq_refl);
    unfold well_formed_coordinate; lia.
Defined.

Lemma newest_handler_closes_over_state_witness :
  let ed := {| Sample.html := lit "x } {2+2}";
               Sample.sel_from := 0; Sample.sel_to := 0 |} in
  newest_handler_is_current
    (update_event (L := Sample.libraries) (E := Sample.plain_editor_api)
       (mount ed Sample.initial)).
Proof.
  cbv zeta.
  destruct (newest_handler_closes_over_state (L := Sample.libraries)
              (E := Sample.plain_editor_api)) as (Hmount & _ & Hevent).
  apply Hevent, Hmount.
Defined.

Section ZoomWitnesses.

Import PrimFloat.

Lemma zoom_stays_on_its_levels_witness :
  Zoom.run [Zoom.ZoomOut; Zoom.ResetZoom; Zoom.ZoomIn; Zoom.ZoomIn] 7%float
  ∈ Zoom.zoom_levels.
Proof.
  exact (proj1 zoom_stays_on_its_levels [Zoom.ZoomOut]
           [Zoom.ZoomIn; Zoom.ZoomIn] 7%float).
Defined.

Lemma zoom_in_and_out_are_inverse_witness :
  Zoom.handle Zoom.ZoomOut (Zoom.handle Zoom.ZoomIn 1%float) = 1%float.
Proof.
  apply (proj1 zoom_in_and_out_are_inverse).
  - apply is_level_elem. reflexivity.
  - reflexivity.
Defined.

End ZoomWitnesses.
